(** * airwaves_scheduler: schedule parser, rank colours, HTML renderer, ranking store

    A shallow embedding of [schedule.py] and [rank.py].

    - Python [str] values are lists of Unicode code points.
    - Insertion-ordered dictionaries whose order is observable (the schedule,
      the time slots of a day) are association lists with in-place update.
    - The rankings dictionary, which is only looked up and extended, is a
      [gmap].
    - [print] output is a list of messages, exceptions are values of [exn].
    - Python [float] is IEEE 754 binary64 with round-to-nearest-even. *)

From Stdlib Require Import ZArith Lia String Ascii QArith Qpower Qround Lqa.
From stdpp Require Import gmap list sorting.

Local Open Scope Z_scope.

(** ** Text *)

Module Text.

(** A Unicode code point. *)
Definition char : Type := N.

(** A Python [str]. *)
Definition str : Type := list N.

(** Code points of a literal. *)
Fixpoint u (s : string) : str :=
  match s with
  | EmptyString => []
  | String a s' => N_of_ascii a :: u s'
  end.

(** As [u], with every apostrophe of the literal read as a quotation mark
    (U+0022), for the templates that contain quotation marks. *)
Definition q (s : string) : str :=
  map (fun c => if N.eqb c 39 then 34%N else c) (u s).

Definition NL : N := 10.
Definition SPACE : N := 32.
Definition LPAREN : N := 40.
Definition RPAREN : N := 41.
Definition COLON : N := 58.

(** [str.isspace] on one code point, which is also the set [str.strip()]
    removes and the class [\s] of a [str] pattern. *)
Definition is_space (c : N) : bool :=
  ((9 <=? c) && (c <=? 13) || (28 <=? c) && (c <=? 32)
   || (c =? 133) || (c =? 160) || (c =? 5760)
   || (8192 <=? c) && (c <=? 8202)
   || (c =? 8232) || (c =? 8233) || (c =? 8239) || (c =? 8287)
   || (c =? 12288))%N.

Fixpoint drop_while (p : N -> bool) (s : str) : str :=
  match s with
  | [] => []
  | c :: s' => if p c then drop_while p s' else s
  end.

Fixpoint take_while (p : N -> bool) (s : str) : str :=
  match s with
  | [] => []
  | c :: s' => if p c then c :: take_while p s' else []
  end.

(** [s.lstrip()], [s.rstrip()], [s.strip()]. *)
Definition lstrip (s : str) : str := drop_while is_space s.
Definition rstrip (s : str) : str := rev (drop_while is_space (rev s)).
Definition strip (s : str) : str := rstrip (lstrip s).

(** [s.lstrip(' ')]. *)
Definition lstrip_spaces (s : str) : str := drop_while (N.eqb SPACE) s.

(** [s.split(sep)[0]] for a one-character separator. *)
Definition split_head (sep : N) (s : str) : str :=
  take_while (fun c => negb (N.eqb c sep)) s.

(** Python's [<] on [str]: lexicographic on code points. *)
Fixpoint str_ltb (a b : str) : bool :=
  match a, b with
  | _, [] => false
  | [], _ :: _ => true
  | x :: a', y :: b' => (x <? y)%N || (x =? y)%N && str_ltb a' b'
  end.

Definition str_leb (a b : str) : bool := negb (str_ltb b a).

End Text.

Import Text.

(** ** Exceptions and printed messages *)

Inductive exn : Type :=
| KeyError (key : str)
| FileNotFoundError
| OSError
| ValueError
| OverflowError
| ZeroDivisionError
| AttributeError
| TypeError
| YAMLError
| EOFError.

(** What the two programs print, one constructor per [print] call. *)
Inductive message : Type :=
| WarnEventLine (lineno : nat) (stripped_line : str)
    (* Warning: Could not parse event line {i + 1}: '{stripped_line}' *)
| ErrNotFound
    (* Error: The input schedule file '{filename}' was not found. *)
| ErrUnexpected (e : exn)
    (* An unexpected error occurred while reading '{filename}': {e} *)
| LoadingRankings
    (* Loading rankings from {RANKINGS_FILE}... *)
| FoundRanked (n : nat)
    (* Found {len(rankings)} ranked artists. *)
| NoRankingsFile
    (* '{RANKINGS_FILE}' not found. No rankings will be applied. *)
| GeneratingHtml
    (* Generating HTML schedule... *)
| SuccessSaved
    (* Success! Your personalized schedule has been saved to ... *)
| WarnArtistLine (lineno : nat) (line : str)
    (* Warning: Could not parse line {i + 1} in {filename}: '{line}' *)
| ErrArtistsNotFound
    (* Error: The input file '{filename}' was not found. (two lines) *)
| ErrArtistsUnexpected (e : exn)
    (* An unexpected error occurred while reading the file: {e} *)
| WarnRankings (e : exn)
    (* Warning: Could not load or parse {RANKINGS_FILE}. Starting fresh. ... *)
| ErrNoMpv
    (* Error: 'mpv' command not found. (two lines) *)
| LoadedRankings (n : nat)
    (* Loaded {len(rankings)} existing rankings from {RANKINGS_FILE}. *)
| AllRanked
    (* Congratulations! All artists have been ranked. *)
| StartingSession (n : nat)
    (* Starting ranking session for {len(artists_to_rank)} artists... *)
| ArtistHeader (number total : nat) (name country : str)
    (* a rule, then Artist {i + 1}/{total}: {name} ({country}) *)
| Playing (youtube_id : str)
    (* Playing: {youtube_id} *)
| Replaying
    (* Replaying video... *)
| SkippedArtist (name : str)
    (* Skipped {artist_name}. *)
| InvalidRange
    (* Invalid input. Please enter a number between 1 and 10. *)
| InvalidNumber
    (* Invalid input. Please enter a valid number or 's'. *)
| SavedRanking (name : str) (ranking : Z)
    (* Saved ranking for {artist_name}: {ranking} *)
| SessionComplete.
    (* Session complete. All artists have now been ranked! *)

(** A file of the working directory, as [open] and iteration see it. *)
Inductive text_file : Type :=
| Missing                       (* [open] raises [FileNotFoundError] *)
| Broken                        (* any other failure of [open] or of reading *)
| Lines (ls : list str).        (* the lines, each with its line terminator *)

(** ** Schedule parser ([parse_schedule_file]) *)

Module Parser.

Record event : Type := Event { artist : str; venue : str }.

(** An insertion-ordered [dict] keyed by [str]. *)
Definition odict (V : Type) : Type := list (str * V).

Definition str_eqb (a b : str) : bool := bool_decide (a = b).

Fixpoint dict_get {V} (k : str) (d : odict V) : option V :=
  match d with
  | [] => None
  | (k', v) :: d' => if str_eqb k k' then Some v else dict_get k d'
  end.

(** [d[k] = v]: an existing key keeps its position, a new key goes last. *)
Fixpoint dict_set {V} (k : str) (v : V) (d : odict V) : odict V :=
  match d with
  | [] => [(k, v)]
  | (k', v') :: d' =>
      if str_eqb k k' then (k, v) :: d' else (k', v') :: dict_set k v d'
  end.

Definition keys {V} (d : odict V) : list str := map fst d.
Definition values {V} (d : odict V) : list V := map snd d.

Definition day_events : Type := odict (list event).
Definition schedule : Type := odict day_events.

(** The event pattern after its group 1, anchored at the start of [s]:
    whitespace, opening parenthesis, group 2, closing parenthesis, end of
    string; the result is group 2.  The end-of-string anchor also matches
    before a final newline. *)
Definition match_tail (s : str) : option str :=
  match s with
  | w :: p :: rest =>
      if is_space w && N.eqb p LPAREN then
        let v := take_while (fun c => negb (N.eqb c RPAREN)) rest in
        let r := drop_while (fun c => negb (N.eqb c RPAREN)) rest in
        match v, r with
        | _ :: _, [c] => if N.eqb c RPAREN then Some v else None
        | _ :: _, [c; n] =>
            if N.eqb c RPAREN && N.eqb n NL then Some v else None
        | _, _ => None
        end
      else None
  | _ => None
  end.

(** [event_regex.match(s)]: groups 1 and 2.  The pattern is: start of string,
    group 1 = any characters but newline (greedy), one whitespace character,
    an opening parenthesis, group 2 = one or more characters other than a
    closing parenthesis, a closing parenthesis, end of string.  The greedy
    group 1 takes the longest prefix after which the rest matches, so longer
    prefixes are tried first. *)
Fixpoint event_regex_match (s : str) : option (str * str) :=
  match s with
  | [] => None
  | c :: s' =>
      match (if N.eqb c NL then None else event_regex_match s') with
      | Some (a, v) => Some (c :: a, v)
      | None => match match_tail s with
                | Some v => Some ([], v)
                | None => None
                end
      end
  end.

(** [len(line) - len(line.lstrip(' '))]. *)
Definition indentation (line : str) : nat :=
  (length line - length (lstrip_spaces line))%nat.

(** [if x:] for a variable that holds [None] or a [str]: the string when the
    test succeeds ([None] and the empty string are false). *)
Definition truthy (o : option str) : option str :=
  match o with
  | Some (c :: s) => Some (c :: s)
  | _ => None
  end.

(** The loop's variables. *)
Record pstate : Type := PState {
  sched : schedule;
  current_day : option str;
  current_time : option str
}.

Definition initial : pstate := PState [] None None.

(** [schedule[day][time] = []]. *)
Definition open_slot (day time : str) (s : schedule) : exn + schedule :=
  match dict_get day s with
  | None => inl (KeyError day)
  | Some de => inr (dict_set day (dict_set time [] de) s)
  end.

(** [schedule[day][time].append(ev)]. *)
Definition append_event (day time : str) (ev : event) (s : schedule)
  : exn + schedule :=
  match dict_get day s with
  | None => inl (KeyError day)
  | Some de =>
      match dict_get time de with
      | None => inl (KeyError time)
      | Some evs => inr (dict_set day (dict_set time (evs ++ [ev]) de) s)
      end
  end.

(** One iteration of the loop body on line number [i] (from 0): the new
    variables and what was printed, or the exception raised. *)
Definition step (i : nat) (line : str) (st : pstate)
  : exn + (pstate * list message) :=
  let stripped_line := strip line in
  match stripped_line with
  | [] => inr (st, [])                                   (* continue *)
  | _ :: _ =>
      let ind := indentation line in
      if (ind =? 0)%nat then
        inr (PState (dict_set stripped_line [] (sched st))
                    (Some stripped_line) (current_time st), [])
      else if (ind =? 2)%nat then
        match truthy (current_day st) with
        | Some day =>
            match open_slot day stripped_line (sched st) with
            | inl e => inl e
            | inr s' =>
                inr (PState s' (current_day st) (Some stripped_line), [])
            end
        | None =>
            inr (PState (sched st) (current_day st) (Some stripped_line), [])
        end
      else if (4 <=? ind)%nat then
        match truthy (current_day st), truthy (current_time st) with
        | Some day, Some time =>
            match event_regex_match stripped_line with
            | Some (a, v) =>
                match append_event day time (Event (strip a) v) (sched st)
                with
                | inl e => inl e
                | inr s' =>
                    inr (PState s' (current_day st) (current_time st), [])
                end
            | None => inr (st, [WarnEventLine (S i) stripped_line])
            end
        | _, _ => inr (st, [])
        end
      else inr (st, [])
  end.

(** The [for i, line in enumerate(f)] loop from line [i] on: everything
    printed, and the final variables or the exception that ended the loop. *)
Fixpoint run (i : nat) (lines : list str) (st : pstate)
  : list message * (exn + pstate) :=
  match lines with
  | [] => ([], inr st)
  | line :: rest =>
      match step i line st with
      | inl e => ([], inl e)
      | inr (st', out) =>
          let '(out', r) := run (S i) rest st' in (out ++ out', r)
      end
  end.

(** [parse_schedule_file(filename)]: the printed messages and the returned
    value ([None] for the two error outcomes). *)
Definition parse_schedule_file (f : text_file)
  : list message * option schedule :=
  match f with
  | Missing => ([ErrNotFound], None)
  | Broken => ([ErrUnexpected OSError], None)
  | Lines ls =>
      match run 0 ls initial with
      | (out, inr st) => (out, Some (sched st))
      | (out, inl e) => (out ++ [ErrUnexpected e], None)
      end
  end.

End Parser.

(** ** Numbers: Python [int] and [float] *)

Module F64.
Local Open Scope Q_scope.

(** A finite [float] is kept as the rational number it denotes.  Every
    operation returns the binary64 number nearest to the exact result, ties
    to even, as IEEE 754 defines it.  The sign of a zero is not kept: nothing
    in these programs divides by a computed value or prints a float. *)
Inductive float : Type :=
| Fin (x : Q)
| Inf (negative : bool)
| NaN.

(** [floor (log2 x)] for [0 < x]. *)
Definition ilog2 (x : Q) : Z :=
  let l := (Z.log2 (Qnum x) - Z.log2 (Zpos (Qden x)))%Z in
  if Qle_bool (2 ^ l) x then l else (l - 1)%Z.

(** The integer nearest to [x], ties to even. *)
Definition rne (x : Q) : Z :=
  let f := Qfloor x in
  match Qcompare (x - inject_Z f) (1 # 2) with
  | Lt => f
  | Gt => (f + 1)%Z
  | Eq => if Z.even f then f else (f + 1)%Z
  end.

(** Binary logarithm of the spacing of binary64 numbers around [x]: 53
    significant bits, and never finer than 2^-1074. *)
Definition ulp_exp (x : Q) : Z := Z.max (ilog2 x - 52) (-1074).

(** [0 < x] rounded to a multiple of its spacing, exponent unbounded above. *)
Definition round_pos (x : Q) : Q :=
  let k := ulp_exp x in
  inject_Z (rne (x / 2 ^ k)) * 2 ^ k.

(** A rounded magnitude of 2^1024 or more is out of range. *)
Definition overflows (r : Q) : bool := (1024 <=? ilog2 r)%Z.

(** The binary64 number nearest to [x]. *)
Definition round (x : Q) : float :=
  match Qcompare x 0 with
  | Eq => Fin 0
  | Gt => let r := round_pos x in
          if overflows r then Inf false else Fin r
  | Lt => let r := round_pos (- x) in
          if overflows r then Inf true else Fin (- r)
  end.

(** A decimal literal [n / d]. *)
Definition lit (n : Z) (d : positive) : float := round (n # d).

Definition fneg (x : float) : float :=
  match x with
  | Fin a => Fin (- a)
  | Inf s => Inf (negb s)
  | NaN => NaN
  end.

Definition fadd (x y : float) : float :=
  match x, y with
  | NaN, _ | _, NaN => NaN
  | Inf a, Inf b => if Bool.eqb a b then Inf a else NaN
  | Inf a, Fin _ => Inf a
  | Fin _, Inf b => Inf b
  | Fin a, Fin b => round (a + b)
  end.

Definition fsub (x y : float) : float := fadd x (fneg y).

Definition fmul (x y : float) : float :=
  match x, y with
  | NaN, _ | _, NaN => NaN
  | Inf a, Inf b => Inf (xorb a b)
  | Inf a, Fin v | Fin v, Inf a =>
      match Qcompare v 0 with
      | Eq => NaN
      | Lt => Inf (negb a)
      | Gt => Inf a
      end
  | Fin a, Fin b => round (a * b)
  end.

(** [x / y]; Python raises on a zero divisor instead of returning an
    infinity or a NaN. *)
Definition fdiv (x y : float) : exn + float :=
  match x, y with
  | NaN, Fin b | Inf _, Fin b | Fin _, Fin b =>
      match Qcompare b 0 with
      | Eq => inl ZeroDivisionError
      | c =>
          match x with
          | Fin a => inr (round (a / b))
          | Inf s => inr (Inf (if c is Lt then negb s else s))
          | NaN => inr NaN
          end
      end
  | NaN, _ | _, NaN => inr NaN
  | Inf _, Inf _ => inr NaN
  | Fin _, Inf _ => inr (Fin 0)
  end.

Definition fleb (x y : float) : bool :=
  match x, y with
  | NaN, _ | _, NaN => false
  | Fin a, Fin b => Qle_bool a b
  | Inf a, Inf b => a || negb b
  | Inf a, Fin _ => a
  | Fin _, Inf b => negb b
  end.

Definition fltb (x y : float) : bool :=
  match x, y with
  | NaN, _ | _, NaN => false
  | Fin a, Fin b => negb (Qle_bool b a)
  | Inf a, Inf b => a && negb b
  | Inf a, Fin _ => a
  | Fin _, Inf b => negb b
  end.

(** [float(z)] for an [int]. *)
Definition of_int (z : Z) : exn + float :=
  match round (inject_Z z) with
  | Inf _ => inl OverflowError
  | f => inr f
  end.

(** [int(x)] for a [float]: truncation towards zero. *)
Definition to_int (x : float) : exn + Z :=
  match x with
  | Fin a => inr (Z.quot (Qnum a) (Zpos (Qden a)))
  | Inf _ => inl OverflowError
  | NaN => inl ValueError
  end.

End F64.

(** Python's arithmetic on [int] and [float] operands. *)
Module Num.
Import F64.

Inductive num : Type :=
| I (z : Z)
| F (f : float).

Definition bind {A B} (m : exn + A) (k : A -> exn + B) : exn + B :=
  match m with
  | inl e => inl e
  | inr a => k a
  end.

Notation "'LET' x ':=' m 'IN' k" := (bind m (fun x => k))
  (at level 10, x name, m at level 100, k at level 200).

(** The [float] an operand is converted to in mixed arithmetic. *)
Definition to_float (x : num) : exn + float :=
  match x with
  | I z => of_int z
  | F f => inr f
  end.

Definition sub (x y : num) : exn + num :=
  match x, y with
  | I a, I b => inr (I (a - b))
  | _, _ => LET a := to_float x IN LET b := to_float y IN inr (F (fsub a b))
  end.

Definition add (x y : num) : exn + num :=
  match x, y with
  | I a, I b => inr (I (a + b))
  | _, _ => LET a := to_float x IN LET b := to_float y IN inr (F (fadd a b))
  end.

Definition mul (x y : num) : exn + num :=
  match x, y with
  | I a, I b => inr (I (a * b))
  | _, _ => LET a := to_float x IN LET b := to_float y IN inr (F (fmul a b))
  end.

(** True division [x / y]; the quotient of two [int] is rounded once. *)
Definition div (x y : num) : exn + num :=
  match x, y with
  | I a, I b =>
      if b =? 0 then inl ZeroDivisionError
      else match round (inject_Z a / inject_Z b)%Q with
           | Inf _ => inl OverflowError
           | f => inr (F f)
           end
  | _, _ => LET a := to_float x IN LET b := to_float y IN
            LET f := fdiv a b IN inr (F f)
  end.

(** [x <= y] and [x < y]; an [int] is compared with a [float] exactly. *)
Definition leb (x y : num) : bool :=
  match x, y with
  | I a, I b => a <=? b
  | I a, F f => fleb (Fin (inject_Z a)) f
  | F f, I b => fleb f (Fin (inject_Z b))
  | F f, F g => fleb f g
  end.

Definition ltb (x y : num) : bool :=
  match x, y with
  | I a, I b => a <? b
  | I a, F f => fltb (Fin (inject_Z a)) f
  | F f, I b => fltb f (Fin (inject_Z b))
  | F f, F g => fltb f g
  end.

(** [int(x)]. *)
Definition int (x : num) : exn + Z :=
  match x with
  | I z => inr z
  | F f => to_int f
  end.

End Num.

(** ** Rank colours ([get_color_for_rank]) *)

Module Color.
Import F64 Num.

(** A value of the rankings document, as [yaml.safe_load] can return it. *)
Inductive pyval : Type :=
| PNone
| PBool (b : bool)
| PInt (z : Z)
| PFloat (f : float)
| PStr (s : str)
| POther.           (* a list, a mapping, a date, ... *)

(** [isinstance(rank, (int, float))]: the number when the test holds.  [bool]
    is a subclass of [int]. *)
Definition as_number (rank : pyval) : option num :=
  match rank with
  | PBool b => Some (I (if b then 1 else 0))
  | PInt z => Some (I z)
  | PFloat f => Some (F f)
  | PNone | PStr _ | POther => None
  end.

Definition hex_char (d : Z) : N :=
  Z.to_N (if d <? 10 then 48 + d else 87 + d).

Fixpoint hex_pos (fuel : nat) (n : Z) (acc : str) : str :=
  match fuel with
  | O => acc
  | S f =>
      if n <? 16 then hex_char n :: acc
      else hex_pos f (n / 16) (hex_char (n mod 16) :: acc)
  end.

(** [format(n, 'x')] for [0 <= n]. *)
Definition hex (n : Z) : str := hex_pos (S (Z.to_nat (Z.log2 n))) n [].

(** [format(n, '02x')]: sign, then the digits padded with zeros to a total
    width of two. *)
Definition hex02 (n : Z) : str :=
  if n <? 0 then 45%N :: hex (- n)
  else if n <? 16 then 48%N :: hex n
  else hex n.

Definition c4_5 : num := F (lit 45 10).
Definition c5_5 : num := F (lit 55 10).
Definition c0_299 : num := F (lit 299 1000).
Definition c0_587 : num := F (lit 587 1000).
Definition c0_114 : num := F (lit 114 1000).
Definition c0_5 : num := F (lit 5 10).

(** The three channels before [int()] is applied. *)
Definition channels (rank : num) : exn + (num * num * num) :=
  if leb rank c5_5 then
    LET d := sub rank (I 1) IN
    LET percent := div d c4_5 IN
    LET p1 := sub (I 1) percent IN
    LET red := mul (I 255) p1 IN
    LET blue := mul (I 255) percent IN
    inr (red, I 0, blue)
  else
    LET d := sub rank c5_5 IN
    LET percent := div d c4_5 IN
    LET p1 := sub (I 1) percent IN
    LET blue := mul (I 255) p1 IN
    LET green := mul (I 255) percent IN
    inr (I 0, green, blue).

(** [(0.299 * red + 0.587 * green + 0.114 * blue) / 255]. *)
Definition luminance (red green blue : Z) : exn + num :=
  LET r := mul c0_299 (I red) IN
  LET g := mul c0_587 (I green) IN
  LET b := mul c0_114 (I blue) IN
  LET rg := add r g IN
  LET s := add rg b IN
  div s (I 255).

Definition WHITE : str := u "#ffffff".
Definition BLACK : str := u "#000000".

Definition background (red green blue : Z) : str :=
  u "#" ++ hex02 red ++ hex02 green ++ hex02 blue.

(** The three channels as [int]. *)
Definition rgb (rank : num) : exn + (Z * Z * Z) :=
  LET c := channels rank IN
  let '(red, green, blue) := c in
  LET red := int red IN
  LET green := int green IN
  LET blue := int blue IN
  inr (red, green, blue).

Definition get_color_for_rank (rank : pyval)
  : exn + (option str * option str) :=
  match as_number rank with
  | None => inr (None, None)
  | Some r =>
      LET c := rgb r IN
      let '(red, green, blue) := c in
      LET lum := luminance red green blue IN
      let text_color := if ltb lum c0_5 then WHITE else BLACK in
      inr (Some (background red green blue), Some text_color)
  end.

End Color.

(** ** The rankings document *)

Module Yaml.
Import Color.

(** What [yaml.safe_load] returns: nothing (an empty document), a mapping
    from artist names to values, or any other object (a sequence, a scalar),
    of which only its truth value, its [len] and its [in] test are used;
    [None] stands for a [TypeError].  Keys of a mapping that are not strings
    never equal an artist name and are left out. *)
Inductive yval : Type :=
| YNull
| YMap (m : gmap str pyval)
| YOther (truth : bool) (size : option nat) (contains : str -> option bool).

(** [v or {}]. *)
Definition or_empty (v : yval) : yval :=
  match v with
  | YNull => YMap ∅
  | YMap m => YMap m
  | YOther true n c => YOther true n c
  | YOther false _ _ => YMap ∅
  end.

(** [len(v)]. *)
Definition len (v : yval) : exn + nat :=
  match v with
  | YMap m => inr (size m)
  | YOther _ (Some n) _ => inr n
  | _ => inl TypeError
  end.

(** [k not in v]. *)
Definition not_in (k : str) (v : yval) : exn + bool :=
  match v with
  | YMap m => inr (bool_decide (m !! k = None))
  | YOther _ _ c => match c k with Some b => inr (negb b) | None => inl TypeError end
  | YNull => inl TypeError
  end.

(** [v[k] = x] for an [int] [x]; only a mapping supports it with a [str]
    key. *)
Definition set_item (v : yval) (k : str) (x : Z) : exn + yval :=
  match v with
  | YMap m => inr (YMap (<[k := PInt x]> m))
  | _ => inl TypeError
  end.

(** [v.get(k)]. *)
Definition get (v : yval) (k : str) : exn + pyval :=
  match v with
  | YMap m => inr (default PNone (m !! k))
  | _ => inl AttributeError
  end.

End Yaml.

(** ** Renderer ([generate_html_table]) *)

Module Render.
Import Parser Num Color Yaml.

Fixpoint mapM {A B} (f : A -> exn + B) (l : list A) : exn + list B :=
  match l with
  | [] => inr []
  | x :: l' => LET y := f x IN LET ys := mapM f l' IN inr (y :: ys)
  end.

(** [sorted]: a stable sort, here by insertion. [lt a b] is [a < b] on the
    sort keys; an element goes before the first one that is not less. *)
Fixpoint insert_by {A} (lt : A -> A -> bool) (x : A) (l : list A) : list A :=
  match l with
  | [] => [x]
  | y :: l' => if lt y x then y :: insert_by lt x l' else x :: y :: l'
  end.

Definition sorted {A} (lt : A -> A -> bool) (l : list A) : list A :=
  foldr (insert_by lt) [] l.

(** The decimal value of a Unicode digit (general category Nd, Unicode 14):
    the blocks of ten digits start at these code points. *)
Definition digit_zeros : list N :=
  [48; 1632; 1776; 1984; 2406; 2534; 2662; 2790; 2918; 3046; 3174; 3302;
   3430; 3558; 3664; 3792; 3872; 4160; 4240; 6112; 6160; 6470; 6608; 6784;
   6800; 6992; 7088; 7232; 7248; 42528; 43216; 43264; 43472; 43504; 43600;
   44016; 65296; 66720; 68912; 69734; 69872; 69942; 70096; 70384; 70736;
   70864; 71248; 71360; 71472; 71904; 72016; 72784; 73040; 73120; 92768;
   92864; 93008; 120782; 120792; 120802; 120812; 120822; 123200; 123632;
   125264; 130032]%N.

Definition digit_value (c : N) : option Z :=
  match List.find (fun z => (z <=? c) && (c <? z + 10))%N digit_zeros with
  | Some z => Some (Z.of_N (c - z))
  | None => None
  end.

(** Digits with single underscores between them, most significant first. *)
Fixpoint digits (s : str) (acc : Z) : option Z :=
  match s with
  | [] => None
  | c :: s' =>
      match digit_value c with
      | None => None
      | Some d =>
          let acc' := 10 * acc + d in
          match s' with
          | [] => Some acc'
          | c' :: s'' => if N.eqb c' 95 then digits s'' acc' else digits s' acc'
          end
      end
  end.

(** The whitespace [int()] skips around a number: that of [str.isspace]
    without U+001C to U+001F, which [int()] does not take for whitespace. *)
Definition is_int_space (c : N) : bool :=
  (is_space c && negb ((28 <=? c) && (c <=? 31)))%N.

(** The most digits [int()] converts ([sys.int_max_str_digits] as CPython
    3.11 sets it); underscores and the sign do not count. *)
Definition max_str_digits : Z := 4300.

(** The digits of [int()]'s argument once whitespace and sign are removed. *)
Definition decimal (t : str) : option Z :=
  if max_str_digits
     <? Z.of_nat (length (List.filter (fun c => negb (N.eqb c 95)) t))
  then None
  else digits t 0.

(** [int(s)] for a [str]: surrounding whitespace, an optional sign, digits;
    every failure is a [ValueError]. *)
Definition int_of_str (s : str) : exn + Z :=
  let body :=
    rev (drop_while is_int_space (rev (drop_while is_int_space s))) in
  let r := match body with
           | 45%N :: t => option_map Z.opp (decimal t)
           | 43%N :: t => decimal t
           | t => decimal t
           end in
  match r with
  | Some z => inr z
  | None => inl ValueError
  end.

(** The [time_sort_key] lambda: hours 0-4 count as 24-28. *)
Definition time_sort_key (t : str) : exn + Z :=
  LET h := int_of_str (split_head COLON t) IN
  inr (if h <? 5 then h + 24 else h).

(** [sorted(day_events.keys(), key=time_sort_key)]: the keys are computed
    first, in order, and the first failure is raised. *)
Definition sorted_times (de : day_events) : exn + list str :=
  LET ks := mapM (fun t => LET k := time_sort_key t IN inr (k, t)) (keys de) IN
  inr (map snd (sorted (fun a b => fst a <? fst b) ks)).

(** The venues of every event, in schedule order. *)
Definition venues_of (s : schedule) : list str :=
  flat_map (fun de => flat_map (map venue) (values de)) (values s).

(** [sorted(list({...}))]: the distinct venues in [str] order. *)
Definition all_venues (s : schedule) : list str :=
  sorted str_ltb (remove_dups (venues_of s)).

(** The [venue_to_events] dictionary of one time slot. *)
Definition venue_to_events (venues : list str) (events_at_time : list event)
  : odict (list str) :=
  foldl (fun d ev =>
           match dict_get (venue ev) d with
           | Some l => dict_set (venue ev) (l ++ [artist ev]) d
           | None => d
           end)
        (foldl (fun d v => dict_set v [] d) [] venues)
        events_at_time.

(** The [style] string of one artist. *)
Definition style_of (background_color text_color : option str) : str :=
  match truthy background_color with
  | Some bg =>
      u "background-color: " ++ bg ++ u ";" ++
      match truthy text_color with
      | Some tc => u " color: " ++ tc ++ u ";"
      | None => []
      end
  | None => []
  end.

Definition span_html (style artist : str) : str :=
  q "<li><span class='artist-cell' style='" ++ style ++ q "'>"
  ++ artist ++ u "</span></li>".

(** The list item of one artist. *)
Definition artist_html (rankings : yval) (artist : str) : exn + str :=
  LET rank := get rankings artist IN
  LET c := get_color_for_rank rank IN
  inr (span_html (style_of (fst c) (snd c)) artist).

(** What one venue of one row appends to [html_parts]. *)
Definition cell_parts (rankings : yval) (vte : odict (list str)) (v : str)
  : exn + list str :=
  match default [] (dict_get v vte) with
  | [] => inr [u "<td></td>"]
  | artists =>
      LET items := mapM (artist_html rankings) artists IN
      inr ([u "<td><ul>"] ++ items ++ [u "</ul></td>"])
  end.

(** The cells of one row, one per venue. *)
Definition row_cells (rankings : yval) (venues : list str)
  (events_at_time : list event) : exn + list (list str) :=
  mapM (cell_parts rankings (venue_to_events venues events_at_time)) venues.

Definition row_parts (rankings : yval) (venues : list str) (de : day_events)
  (time : str) : exn + list str :=
  match dict_get time de with
  | None => inl (KeyError time)
  | Some events_at_time =>
      LET cells := row_cells rankings venues events_at_time IN
      inr ([q "<tr><td class='time-cell'>" ++ time ++ u "</td>"]
           ++ concat cells ++ [u "</tr>"])
  end.

Definition table_head (venues : list str) : str :=
  u "<table><thead><tr><th>Time</th>"
  ++ concat (map (fun v => u "<th>" ++ v ++ u "</th>") venues)
  ++ u "</tr></thead><tbody>".

(** What one day appends to [html_parts]. *)
Definition day_parts (rankings : yval) (venues : list str)
  (d : str * day_events) : exn + list str :=
  let '(day, de) := d in
  LET times := sorted_times de IN
  LET rows := mapM (row_parts rankings venues de) times IN
  inr ([u "<h2>" ++ day ++ u "</h2>"; table_head venues]
       ++ concat rows ++ [u "</tbody></table>"]).

Definition HEAD : str := q "<!DOCTYPE html>
<html lang='en'>
<head>
    <meta charset='UTF-8'>
    <meta name='viewport' content='width=device-width, initial-scale=1.0'>
    <title>Iceland Airwaves Ranked Schedule</title>
    <style>
        body { font-family: -apple-system, BlinkMacSystemFont, 'Segoe UI', Roboto, Helvetica, Arial, sans-serif; line-height: 1.5; background-color: #fdfdfd; color: #333; margin: 0; padding: 20px; }
        h1 { margin-top: 0; }
        h2 { border-bottom: 2px solid #eee; padding-bottom: 10px; margin-top: 40px; }
        table { border-collapse: collapse; width: 100%; font-size: 14px; margin-bottom: 30px; }
        th, td { border: 1px solid #ddd; padding: 8px; text-align: left; vertical-align: top; }
        thead th { background-color: #f2f2f2; position: sticky; top: 0; z-index: 1; }
        tbody tr:nth-child(even) { background-color: #f9f9f9; }
        td.time-cell { font-weight: bold; width: 60px; }
        .artist-cell { font-weight: bold; display: block; padding: 4px; margin-bottom: 2px; border-radius: 3px; }
        ul { margin: 0; padding: 0; list-style-type: none; }
    </style>
</head>
<body>
    <h1>Iceland Airwaves Ranked Schedule</h1>
".

Definition generate_html_table (s : schedule) (rankings : yval) : exn + str :=
  let venues := all_venues s in
  LET days := mapM (day_parts rankings venues) s IN
  inr (concat ([HEAD] ++ concat days ++ [u "</body></html>"])).

End Render.

(** ** The programs: [schedule.main], and [rank.py] *)

Module Store.
Import Parser Num Color Yaml Render.

(** The rankings file as [os.path.exists] and [open] see it. *)
Inductive store_file (doc : Type) : Type :=
| Absent
| Unreadable            (* exists, but [open] or reading raises *)
| Stored (d : doc).

Arguments Absent {doc}.
Arguments Unreadable {doc}.
Arguments Stored {doc} d.

(** How a run of [schedule.main] ends: what it printed, the text written to
    the HTML file if it got that far, and the exception that ended it, if
    any. *)
Record outcome : Type := Outcome {
  printed : list message;
  html : option str;
  raised : option exn
}.

Record artist_entry : Type := Artist {
  name : str;
  country : str;
  youtube_id : str
}.

(** The tail of the artist pattern from its second group on: whitespace, the
    last group in square brackets, end of string. *)
Definition match_id (s : str) : option str :=
  match s with
  | w :: b :: rest =>
      if is_space w && N.eqb b 91 then
        let v := take_while (fun c => negb (N.eqb c 93)) rest in
        let r := drop_while (fun c => negb (N.eqb c 93)) rest in
        match v, r with
        | _ :: _, [c] => if N.eqb c 93 then Some v else None
        | _ :: _, [c; n] => if N.eqb c 93 && N.eqb n NL then Some v else None
        | _, _ => None
        end
      else None
  | _ => None
  end.

(** The artist pattern after its group 1: whitespace, group 2 in
    parentheses, then [match_id]. *)
Definition match_country_id (s : str) : option (str * str) :=
  match s with
  | w :: p :: rest =>
      if is_space w && N.eqb p LPAREN then
        let v := take_while (fun c => negb (N.eqb c RPAREN)) rest in
        let r := drop_while (fun c => negb (N.eqb c RPAREN)) rest in
        match v, r with
        | _ :: _, c :: r' =>
            match match_id r' with
            | Some i => Some (v, i)
            | None => None
            end
        | _, _ => None
        end
      else None
  | _ => None
  end.

(** [line_regex.match(s)]: groups 1, 2 and 3 of [name (country) [id]].  Group
    1 is lazy and not empty: the shortest prefix without a newline after
    which the rest matches, so shorter prefixes are tried first. *)
Fixpoint line_regex_match (s : str) : option (str * str * str) :=
  match s with
  | [] => None
  | c :: s' =>
      if N.eqb c NL then None
      else match match_country_id s' with
           | Some (co, i) => Some ([c], co, i)
           | None =>
               match line_regex_match s' with
               | Some (a, co, i) => Some (c :: a, co, i)
               | None => None
               end
           end
  end.

(** The loop of [load_artists_from_file] from line [i] on: what is printed
    and what is appended to [artists]. *)
Fixpoint load_lines (i : nat) (lines : list str)
  : list message * list artist_entry :=
  match lines with
  | [] => ([], [])
  | line :: rest =>
      let '(out, artists) := load_lines (S i) rest in
      match strip line with
      | [] => (out, artists)
      | l =>
          match line_regex_match l with
          | Some (n, co, id) => (out, Artist (strip n) co id :: artists)
          | None => (WarnArtistLine (S i) l :: out, artists)
          end
      end
  end.

Definition load_artists_from_file (f : text_file)
  : list message * option (list artist_entry) :=
  match f with
  | Missing => ([ErrArtistsNotFound], None)
  | Broken => ([ErrArtistsUnexpected OSError], None)
  | Lines ls => let '(out, artists) := load_lines 0 ls in (out, Some artists)
  end.

(** [s.lower()].  Only the letters A-Z are mapped: no other character has a
    lower case that is the letter s, a digit, a sign, an underscore or
    whitespace, which is all the callers look at. *)
Definition lower (s : str) : str :=
  map (fun c => if (65 <=? c) && (c <=? 90) then c + 32 else c)%N s.

Inductive ranking : Type :=
| Ranked (z : Z)
| Skipped.                (* the string 'skipped' *)

(** What a session does besides printing: it runs the player. *)
Inductive action : Type :=
| Print (m : message)
| Play (youtube_id : str).

(** The [while True] loop that asks for a rank.  [inputs] are the lines
    [input()] will return; when they run out [input()] raises [EOFError]
    ([None]). *)
Fixpoint prompt (artist_name id : str) (inputs : list str)
  : list action * option (ranking * list str) :=
  match inputs with
  | [] => ([], None)
  | raw :: rest =>
      let rank_input := lower (strip raw) in
      match rank_input with
      | [] =>
          let '(ev, r) := prompt artist_name id rest in
          (Print Replaying :: Play id :: ev, r)
      | _ =>
          if str_eqb rank_input (u "s") then
            ([Print (SkippedArtist artist_name)], Some (Skipped, rest))
          else
            match int_of_str rank_input with
            | inr z =>
                if (1 <=? z) && (z <=? 10) then ([], Some (Ranked z, rest))
                else let '(ev, r) := prompt artist_name id rest in
                     (Print InvalidRange :: ev, r)
            | inl _ =>
                let '(ev, r) := prompt artist_name id rest in
                (Print InvalidNumber :: ev, r)
            end
      end
  end.

Section WithYaml.

(** The YAML library: the text of a document, [yaml.safe_load] and
    [yaml.dump] (with [sort_keys], block style, [allow_unicode]). *)
Variable doc : Type.
Variable safe_load : doc -> exn + yval.
Variable dump : yval -> doc.

(** The file system under the rankings file: whether opening it for writing
    and writing [text] to it fails on the attempt number [n] (from 0) of a
    run, the file being in state [f]; [None] when it succeeds, else the
    exception raised and the state the file is left in. *)
Variable write_fails :
  nat -> store_file doc -> doc -> option (exn * store_file doc).

(** [rank.load_rankings()]: what it prints and what it returns. *)
Definition load_rankings (f : store_file doc) : list message * yval :=
  match f with
  | Absent => ([], YMap ∅)
  | Unreadable => ([WarnRankings OSError], YMap ∅)
  | Stored d =>
      match safe_load d with
      | inl e => ([WarnRankings e], YMap ∅)
      | inr YNull => ([], YMap ∅)
      | inr v => ([], v)
      end
  end.

(** [rank.save_rankings(rankings)], called for the time number [n] on the
    file in state [f]: the new state of the file, and the exception raised,
    if any. *)
Definition save_rankings (n : nat) (rankings : yval) (f : store_file doc)
  : store_file doc * option exn :=
  match write_fails n f (dump rankings) with
  | None => (Stored (dump rankings), None)
  | Some (e, f') => (f', Some e)
  end.

(** [schedule.main()]. *)
Definition schedule_main (schedule_file : text_file)
  (rankings_file : store_file doc) : outcome :=
  match parse_schedule_file schedule_file with
  | (out, None) => Outcome out None None
  | (out, Some schedule_data) =>
      let out := out ++ [LoadingRankings] in
      let loaded : exn + (list message * yval) :=
        match rankings_file with
        | Absent => inr ([NoRankingsFile], YMap ∅)
        | Unreadable => inl OSError
        | Stored d =>
            LET v := safe_load d IN
            let rankings := or_empty v in
            LET n := len rankings IN
            inr ([FoundRanked n], rankings)
        end in
      match loaded with
      | inl e => Outcome out None (Some e)
      | inr (out', rankings) =>
          let out := out ++ out' ++ [GeneratingHtml] in
          match generate_html_table schedule_data rankings with
          | inl e => Outcome out None (Some e)
          | inr html_content =>
              Outcome (out ++ [SuccessSaved]) (Some html_content) None
          end
      end
  end.

(** The state a ranking session threads through its loop. *)
Record session : Type := Session {
  events : list action;            (* printed and played so far *)
  rankings : yval;
  file : store_file doc;
  saves : list yval;              (* every argument of [save_rankings] *)
  inputs : list str;              (* what [input()] has yet to return *)
  failure : option exn
}.

(** The body of the [for i, artist in enumerate(artists_to_rank)] loop. *)
Definition rank_one (total i : nat) (a : artist_entry) (st : session)
  : session :=
  let head := [Print (ArtistHeader (S i) total (name a) (country a));
               Print (Playing (youtube_id a))] in
  let '(ev, r) :=
    match youtube_id a with
    | [] => ([], Some (Skipped, inputs st))
    | id => let '(ev, r) := prompt (name a) id (inputs st) in
            (Play id :: ev, r)
    end in
  let evs := events st ++ head ++ ev in
  match r with
  | None =>
      Session evs (rankings st) (file st) (saves st) [] (Some EOFError)
  | Some (Skipped, rest) =>
      Session evs (rankings st) (file st) (saves st) rest None
  | Some (Ranked z, rest) =>
      match set_item (rankings st) (name a) z with
      | inl e => Session evs (rankings st) (file st) (saves st) rest (Some e)
      | inr rk =>
          match save_rankings (length (saves st)) rk (file st) with
          | (f, Some e) => Session evs rk f (saves st ++ [rk]) rest (Some e)
          | (f, None) =>
              Session (evs ++ [Print (SavedRanking (name a) z)]) rk f
                      (saves st ++ [rk]) rest None
          end
      end
  end.

Fixpoint rank_all (total i : nat) (todo : list artist_entry) (st : session)
  : session :=
  match todo with
  | [] => st
  | a :: rest =>
      let st' := rank_one total i a st in
      match failure st' with
      | Some _ => st'
      | None => rank_all total (S i) rest st'
      end
  end.

(** [artists_to_rank]. *)
Fixpoint to_rank (artists : list artist_entry) (rankings : yval)
  : exn + list artist_entry :=
  match artists with
  | [] => inr []
  | a :: rest =>
      LET keep := not_in (name a) rankings IN
      LET l := to_rank rest rankings IN
      inr (if keep then a :: l else l)
  end.

(** How a run of [rank.main] ends. *)
Inductive status : Type :=
| Returned
| Exit (code : Z)
| Raised (e : exn).

(** [rank.main()].  [mpv_ok] says whether [mpv --version] runs; [shuffle] is
    what [random.shuffle] does to the list this time. *)
Definition rank_main (mpv_ok : bool) (artist_file : text_file)
  (rankings_file : store_file doc)
  (shuffle : list artist_entry -> list artist_entry) (stdin : list str)
  : status * session :=
  let st0 := Session [] (YMap ∅) rankings_file [] stdin None in
  let say (ms : list message) (st : session) :=
    Session (events st ++ map Print ms) (rankings st) (file st) (saves st)
            (inputs st) (failure st) in
  if negb mpv_ok then (Exit 1, say [ErrNoMpv] st0)
  else
    match load_artists_from_file artist_file with
    | (out, None) => (Exit 1, say out st0)
    | (out, Some artists) =>
        let '(out', rk) := load_rankings rankings_file in
        let st1 := Session (map Print (out ++ out')) rk rankings_file []
                           stdin None in
        match len rk with
        | inl e => (Raised e, st1)
        | inr n =>
            let st2 := say [LoadedRankings n] st1 in
            match to_rank artists rk with
            | inl e => (Raised e, st2)
            | inr [] => (Returned, say [AllRanked] st2)
            | inr todo =>
                let todo := shuffle todo in
                let st3 := say [StartingSession (length todo)] st2 in
                let st4 := rank_all (length todo) 0 todo st3 in
                match failure st4 with
                | Some e => (Raised e, st4)
                | None => (Returned, say [SessionComplete] st4)
                end
            end
        end
    end.

End WithYaml.

End Store.

Import Parser F64 Num Color Yaml Render Store.

(** * Definitions used in the statements *)

(** Exactly one warning about an event line was printed. *)
Definition warned_once (out : list message) : Prop :=
  exists n l, out = [WarnEventLine n l].

(** [a <= b] in the order whose [<] is [lt]. *)
Definition le_of {A} (lt : A -> A -> bool) (a b : A) : Prop :=
  lt b a = false.

(** The sort key of a label whose hour parses. *)
Definition hour_key (t : str) : Z :=
  match time_sort_key t with
  | inr k => k
  | inl _ => 0
  end.

(** The order [sorted] uses on labels whose hours parse. *)
Definition hour_ltb (a b : str) : bool := hour_key a <? hour_key b.

(** The artists of the events at [v], in order. *)
Definition artists_at (v : str) (evs : list event) : list str :=
  map artist (List.filter (fun ev => str_eqb (venue ev) v) evs).

(** [a < b] on [str]. *)
Definition str_lt (a b : str) : Prop := str_ltb a b = true.

Fixpoint is_prefix (p s : str) : bool :=
  match p, s with
  | [], _ => true
  | _ :: _, [] => false
  | x :: p', y :: s' => N.eqb x y && is_prefix p' s'
  end.

Fixpoint occurs (p s : str) : bool :=
  is_prefix p s || match s with [] => false | _ :: s' => occurs p s' end.

(** The span element carries a [style] attribute. *)
Definition has_style_attribute (html : str) : bool :=
  occurs (q " style='") html.

(** A stand-in for the YAML library in concrete runs: a document is either
    malformed or denotes a value. *)
Inductive toy_doc : Type :=
| Malformed
| Denotes (v : yval).

Definition toy_load (d : toy_doc) : exn + yval :=
  match d with
  | Malformed => inl YAMLError
  | Denotes v => inr v
  end.

Definition toy_dump (v : yval) : toy_doc := Denotes v.

(** A file system on which every write succeeds. *)
Definition toy_write (n : nat) (f : store_file toy_doc) (d : toy_doc)
  : option (exn * store_file toy_doc) := None.

(** Every entry of [m] is an entry of [m0] or a rank from 1 to 10. *)
Definition ranks_added (m0 m : gmap str pyval) : Prop :=
  forall k v, m !! k = Some v ->
    m0 !! k = Some v \/ exists z, v = PInt z /\ 1 <= z <= 10.

(** The cell of one venue: empty, or one list of the items. *)
Definition cell_text (items : list str) : str :=
  match items with
  | [] => u "<td></td>"
  | _ :: _ => u "<td><ul>" ++ concat items ++ u "</ul></td>"
  end.

(** One row: the cell of the time label, then the cells of the venues. *)
Definition row_text (time : str) (cells : list str) : str :=
  q "<tr><td class='time-cell'>" ++ time ++ u "</td>"
  ++ concat cells ++ u "</tr>".

(** The head of a table: the header of the time column, then one header per
    venue. *)
Definition head_text (venues : list str) : str :=
  u "<table><thead><tr><th>Time</th>"
  ++ concat (map (fun v => u "<th>" ++ v ++ u "</th>") venues)
  ++ u "</tr></thead><tbody>".

(** The heading and the table of one day. *)
Definition table_text (day : str) (venues : list str) (rows : list str)
  : str :=
  u "<h2>" ++ day ++ u "</h2>" ++ head_text venues
  ++ concat rows ++ u "</tbody></table>".

(** The whole document. *)
Definition document_text (tables : list str) : str :=
  HEAD ++ concat tables ++ u "</body></html>".

(** [item] is the list item of artist [a]. *)
Definition item_of (rankings : yval) (a item : str) : Prop :=
  exists rank c,
    get rankings a = inr rank /\ get_color_for_rank rank = inr c
    /\ item = span_html (style_of (fst c) (snd c)) a.

(** [cell] is the cell of venue [v] in the row of the events [evs]: it
    lists the artists of the events at [v], in the order of [evs]. *)
Definition cell_of (rankings : yval) (evs : list event) (v cell : str)
  : Prop :=
  exists items,
    Forall2 (item_of rankings) (artists_at v evs) items
    /\ cell = cell_text items.

(** [row] is the row of the time slot [t] of the day [de]: one cell per
    venue, in the order of [venues]. *)
Definition row_of (rankings : yval) (venues : list str) (de : day_events)
    (t row : str) : Prop :=
  exists evs cells,
    dict_get t de = Some evs
    /\ Forall2 (cell_of rankings evs) venues cells
    /\ row = row_text t cells.

(** [table] is the heading and table of the day [d], its rows being those
    of [times], in that order. *)
Definition table_of (rankings : yval) (venues : list str)
    (d : str * day_events) (times : list str) (table : str) : Prop :=
  exists rows,
    Forall2 (row_of rankings venues (snd d)) times rows
    /\ table = table_text (fst d) venues rows.




(** The order the claim gives: by hour, and by label among equal hours. *)
Definition hour_then_label (a b : str) : Prop :=
  hour_key a < hour_key b \/ (hour_key a = hour_key b /\ str_ltb b a = false).



(** The text after group 1 has the shape: whitespace, parenthesis, venue,
    parenthesis, and possibly one final newline. *)
Definition tail_shape (t v : str) : Prop :=
  exists w, is_space w = true /\ v <> [] /\ (RPAREN ∉ v)
    /\ (t = w :: LPAREN :: v ++ [RPAREN] \/ t = w :: LPAREN :: v ++ [RPAREN; NL]).

(** The line is blank, or indented by one or three spaces. *)
Definition ignored (line : str) : Prop :=
  strip line = [] \/ indentation line = 1%nat \/ indentation line = 3%nat.

(** The current day, when there is one, is a day of the schedule. *)
Definition day_known (st : pstate) : Prop :=
  forall d, truthy (current_day st) = Some d ->
    exists de, dict_get d (sched st) = Some de.

(** [m] is the warning about line [j] (from 0) of [ls]: an event line that
    does not match the event pattern. *)
Definition warning_about (ls : list str) (j : nat) (m : message) : Prop :=
  exists line,
    ls !! j = Some line /\ m = WarnEventLine (S j) (strip line)
    /\ (4 <= indentation line)%nat /\ event_regex_match (strip line) = None.

(** The text after group 2 has the shape: whitespace, bracket, video ID,
    bracket, and possibly one final newline. *)
Definition id_shape (t id : str) : Prop :=
  exists w, is_space w = true /\ id <> [] /\ (93%N ∉ id)
    /\ (t = w :: 91%N :: id ++ [93%N] \/ t = w :: 91%N :: id ++ [93%N; NL]).

(** The text after group 1 has the shape: whitespace, parenthesis, country,
    parenthesis, and then [id_shape]. *)
Definition country_shape (t co id : str) : Prop :=
  exists w r, is_space w = true /\ co <> [] /\ (RPAREN ∉ co)
    /\ t = w :: LPAREN :: co ++ RPAREN :: r /\ id_shape r id.

(** The lines of [ls] that are not blank. *)
Definition nonblank (ls : list str) : list str :=
  List.filter (fun l => match strip l with [] => false | _ => true end) ls.

(** What one line of input answers: a skip, a rank from 1 to 10, or
    nothing. *)
Definition answer (raw : str) : option ranking :=
  let t := lower (strip raw) in
  if str_eqb t (u "s") then Some Skipped
  else match int_of_str t with
       | inr z => if (1 <=? z) && (z <=? 10) then Some (Ranked z) else None
       | inl _ => None
       end.

(** The input is empty once whitespace is removed. *)
Definition blank (raw : str) : bool :=
  match strip raw with [] => true | _ => false end.

(** The number of times the player is run. *)
Definition plays (ev : list action) : nat :=
  length (List.filter (fun e => match e with Play _ => true | _ => false end) ev).

(** The invariant of the session loop: [m] is what was loaded, [artists]
    the artists of the list. *)
Definition session_ok {doc : Type} (m : gmap str pyval)
    (artists : list artist_entry) (st : session doc) : Prop :=
  (exists mc, rankings doc st = YMap mc
              /\ forall k v, m !! k = Some v -> mc !! k = Some v)
  /\ (forall id, Play id ∈ events doc st ->
        exists a, a ∈ artists /\ youtube_id a = id /\ m !! name a = None).




Section ColourSpec.
Local Open Scope Q_scope.

(** The value an operation rounds its exact result [x] to. *)
Definition rq (x : Q) : Q :=
  match round x with
  | Fin a => a
  | _ => 0
  end.

Definition trunc (a : Q) : Z := Z.quot (Qnum a) (Zpos (Qden a)).

(** [255 * (1 - t)] and [255 * t] as [int]. *)
Definition fade (t : Q) : Z := trunc (rq (255 * rq (1 - t))).
Definition grow (t : Q) : Z := trunc (rq (255 * t)).

(** [t = (rank - 1) / 4.5] and [t = (rank - 5.5) / 4.5]. *)
Definition percent_low (x : Q) : Q := rq (rq (x - 1) / (9 # 2)).
Definition percent_high (x : Q) : Q := rq (rq (x - (11 # 2)) / (9 # 2)).

(** Red, green and blue of a rank of value [x]. *)
Definition spec_channels (x : Q) : Z * Z * Z :=
  if Qle_bool x (11 # 2)
  then (fade (percent_low x), 0%Z, grow (percent_low x))
  else (0%Z, grow (percent_high x), fade (percent_high x)).

(** The exact value of a finite number. *)
Definition rank_value (r : num) : option Q :=
  match r with
  | I z => Some (inject_Z z)
  | F (Fin x) => Some x
  | F _ => None
  end.

Definition is_lower_hex (c : N) : bool :=
  ((48 <=? c) && (c <=? 57) || (97 <=? c) && (c <=? 102))%N.


(** ['#'] followed by six lower-case hexadecimal digits. *)
Definition is_hex_color (s : str) : bool :=
  match s with
  | h :: digits =>
      N.eqb h 35 && Nat.eqb (length digits) 6 && forallb is_lower_hex digits
  | [] => false
  end.




(** The hour of every time label of the schedule is an integer. *)
Definition hours_parse (s : schedule) : Prop :=
  forall de t, de ∈ values s -> t ∈ keys de ->
    exists h, int_of_str (split_head COLON t) = inr h.

(** Every value of the rankings is no number, or a number from 1 to 10. *)
Definition ranks_in_scale (m : gmap str pyval) : Prop :=
  forall a rank, m !! a = Some rank ->
    as_number rank = None
    \/ exists r x, as_number rank = Some r /\ rank_value r = Some x
                   /\ 1 <= x /\ x <= 10.

(** [int(b)] raises or is negative. *)
Definition negative_or_fails (b : float) : Prop :=
  match to_int b with
  | inl _ => True
  | inr n => (n < 0)%Z
  end.

(** [f] is minus infinity or at most -1/8. *)
Definition well_below_zero (f : float) : Prop :=
  f = Inf true \/ exists t, f = Fin (- t) /\ 1 # 8 <= t.

(** [f] is plus infinity or at least 9/8. *)
Definition well_above_one (f : float) : Prop :=
  f = Inf false \/ exists t, f = Fin t /\ 9 # 8 <= t.

(** [f] is finite, of magnitude at most [B]. *)
Definition within (B : Q) (f : float) : Prop :=
  exists a, f = Fin a /\ - B <= a /\ a <= B.

End ColourSpec.

(** * Parser, renderer and store *)

Lemma str_eqb_refl (a : str) : str_eqb a a = true.
Proof. unfold str_eqb. apply bool_decide_eq_true_2. reflexivity. Qed.

Lemma str_eqb_true (a b : str) : str_eqb a b = true -> a = b.
Proof. unfold str_eqb. apply bool_decide_eq_true_1. Qed.

Lemma str_eqb_neq (a b : str) : a <> b -> str_eqb a b = false.
Proof. unfold str_eqb. apply bool_decide_eq_false_2. Qed.

Lemma dict_get_set_eq {V} (k : str) (v : V) (d : odict V) :
  dict_get k (dict_set k v d) = Some v.
Proof.
  induction d as [|[k' v'] d IH]; simpl.
  - rewrite str_eqb_refl. reflexivity.
  - destruct (str_eqb k k') eqn:E; simpl.
    + rewrite str_eqb_refl. reflexivity.
    + rewrite E. exact IH.
Qed.

Lemma dict_get_set_ne {V} (k k' : str) (v : V) (d : odict V) :
  k <> k' -> dict_get k' (dict_set k v d) = dict_get k' d.
Proof.
  intros Hne. induction d as [|[k2 v2] d IH]; simpl.
  - rewrite str_eqb_neq; [reflexivity|congruence].
  - destruct (str_eqb k k2) eqn:E; simpl.
    + apply str_eqb_true in E. subst k2.
      rewrite !str_eqb_neq; [reflexivity|congruence..].
    + rewrite IH. reflexivity.
Qed.

(** A day header binds its label to an empty mapping, makes it the current
    day, and leaves the current time as it was. *)
Lemma step_day_header (i : nat) (line : str) (st : pstate) :
  strip line <> [] -> indentation line = 0%nat ->
  exists st', step i line st = inr (st', [])
    /\ current_day st' = Some (strip line)
    /\ current_time st' = current_time st
    /\ dict_get (strip line) (sched st') = Some [].
Proof.
  intros Hne Hind. unfold step. rewrite Hind.
  destruct (strip line) as [|c s] eqn:E; [done|]. simpl.
  eexists. split; [reflexivity|]. simpl. repeat split.
  apply dict_get_set_eq.
Qed.

(** C1.  A day header does not reset the current time slot: after a day
    with a time slot, an event line placed directly under the next day
    header is looked up in that day under the previous day's time label,
    which raises [KeyError]; the handler for unexpected errors prints the
    error and the parser returns [None] instead of a schedule. *)
Theorem C1_day_header_keeps_time_slot :
  parse_schedule_file
    (Lines [u "Friday"; u "  20:00"; u "Saturday"; u "    Band A (Hall)"])
  = ([ErrUnexpected (KeyError (u "20:00"))], None).
Proof. reflexivity. Qed.

(** C2, counterexample.  An event line that comes before any day or time
    slot is skipped without any warning. *)
Lemma C2_counterexample :
  ~ warned_once (fst (parse_schedule_file (Lines [u "    Band A (Hall)"]))).
Proof. intros (n & l & H). discriminate H. Qed.

(** C2, as amended.  A line indented by four or more spaces that does not
    match the event pattern while a day and a time label are current prints
    one warning, leaves the variables as they are, and the loop goes on with
    the remaining lines; a line indented by four or more spaces that comes
    while no day or no time label is current prints nothing, changes nothing,
    and the loop goes on. *)
Theorem C2_event_line_skipped (i : nat) (line : str) (rest : list str)
    (st : pstate) :
  strip line <> [] -> (4 <= indentation line)%nat ->
  (forall d t,
      truthy (current_day st) = Some d -> truthy (current_time st) = Some t ->
      event_regex_match (strip line) = None ->
      run i (line :: rest) st
      = (WarnEventLine (S i) (strip line) :: fst (run (S i) rest st),
         snd (run (S i) rest st)))
  /\ (truthy (current_day st) = None \/ truthy (current_time st) = None ->
      run i (line :: rest) st = run (S i) rest st).
Proof.
  intros Hne Hind.
  assert (Hstep : step i line st =
     match truthy (current_day st), truthy (current_time st) with
     | Some day, Some time =>
         match event_regex_match (strip line) with
         | Some (a, v) =>
             match append_event day time (Event (strip a) v) (sched st) with
             | inl e => inl e
             | inr s' => inr (PState s' (current_day st) (current_time st), [])
             end
         | None => inr (st, [WarnEventLine (S i) (strip line)])
         end
     | _, _ => inr (st, [])
     end).
  { unfold step. destruct (strip line) eqn:E; [done|].
    destruct (indentation line) as [|[|[|[|k]]]] eqn:E2; try lia; reflexivity. }
  split.
  - intros d t Hd Ht Hm. simpl. rewrite Hstep, Hd, Ht, Hm.
    destruct (run (S i) rest st). reflexivity.
  - intros H. simpl. rewrite Hstep.
    destruct H as [H|H]; rewrite H.
    + destruct (run (S i) rest st). reflexivity.
    + destruct (truthy (current_day st)); destruct (run (S i) rest st); reflexivity.
Qed.

(** C2, witness: a malformed event line is warned about once and the event
    line after it is still parsed. *)
Lemma C2_event_line_skipped_witness :
  run 2 [u "    Band A [Hall]"; u "    Band B (Hall)"]
      (PState [(u "Fri", [(u "20:00", [])])] (Some (u "Fri")) (Some (u "20:00")))
  = ([WarnEventLine 3 (u "Band A [Hall]")],
     inr (PState [(u "Fri", [(u "20:00", [Event (u "Band B") (u "Hall")])])]
                 (Some (u "Fri")) (Some (u "20:00")))).
Proof.
  pose proof (C2_event_line_skipped 2 (u "    Band A [Hall]") [u "    Band B (Hall)"]
      (PState [(u "Fri", [(u "20:00", [])])] (Some (u "Fri")) (Some (u "20:00")))) as H.
  destruct H as [H _]; [ discriminate | vm_compute; lia | ].
  rewrite (H (u "Fri") (u "20:00")); reflexivity.
Defined.

(** *** Facts about [sorted] *)

Section Sorting.
Context {A : Type} (lt : A -> A -> bool).

Hypothesis lt_asym : forall a b, lt a b = true -> lt b a = false.
Hypothesis le_trans :
  forall a b c, le_of lt a b -> le_of lt b c -> le_of lt a c.

Lemma insert_by_perm (x : A) (l : list A) : insert_by lt x l ≡ₚ x :: l.
Proof.
  induction l as [|y l IH]; simpl; [reflexivity|].
  destruct (lt y x); [|reflexivity].
  rewrite IH. apply Permutation_swap.
Qed.

Lemma sorted_perm (l : list A) : sorted lt l ≡ₚ l.
Proof.
  induction l as [|x l IH]; simpl; [reflexivity|].
  unfold sorted in *. simpl. rewrite insert_by_perm, IH. reflexivity.
Qed.

Lemma insert_by_sorted (x : A) (l : list A) :
  StronglySorted (le_of lt) l -> StronglySorted (le_of lt) (insert_by lt x l).
Proof.
  induction 1 as [|y l Hs IH Hall]; simpl.
  - repeat constructor.
  - destruct (lt y x) eqn:E.
    + constructor; [exact IH|].
      rewrite insert_by_perm. constructor; [|exact Hall].
      unfold le_of. apply lt_asym. exact E.
    + constructor; [constructor; assumption|].
      constructor; [exact E|].
      eapply Forall_impl; [exact Hall|].
      intros z Hz. eapply le_trans; [exact E|exact Hz].
Qed.

Lemma sorted_sorted (l : list A) : StronglySorted (le_of lt) (sorted lt l).
Proof.
  induction l as [|x l IH]; [constructor|].
  unfold sorted in *. simpl. apply insert_by_sorted. exact IH.
Qed.

(** Stability: the elements that satisfy a test [P] which the order cannot
    tell apart keep their order. *)
Lemma insert_by_filter (P : A -> bool) (x : A) (l : list A) :
  (forall y, P x = true -> P y = true -> lt y x = false) ->
  List.filter P (insert_by lt x l) = List.filter P (x :: l).
Proof.
  intros HP. induction l as [|y l IH]; [reflexivity|].
  simpl. destruct (lt y x) eqn:E; [|reflexivity].
  simpl. simpl in IH. rewrite IH.
  destruct (P x) eqn:Px; [|reflexivity].
  destruct (P y) eqn:Py; [|reflexivity].
  rewrite (HP y eq_refl Py) in E. discriminate.
Qed.

Lemma sorted_filter (P : A -> bool) (l : list A) :
  (forall x y, P x = true -> P y = true -> lt y x = false) ->
  List.filter P (sorted lt l) = List.filter P l.
Proof.
  intros HP. induction l as [|x l IH]; [reflexivity|].
  unfold sorted in *. simpl foldr.
  rewrite insert_by_filter by (intros; apply HP; assumption).
  simpl. rewrite IH. reflexivity.
Qed.

End Sorting.

(** *** The order of [str] *)

Lemma str_ltb_irrefl (a : str) : str_ltb a a = false.
Proof.
  induction a as [|x a IH]; [reflexivity|]. simpl.
  rewrite N.ltb_irrefl, N.eqb_refl. exact IH.
Qed.

Lemma str_ltb_trans (a b c : str) :
  str_ltb a b = true -> str_ltb b c = true -> str_ltb a c = true.
Proof.
  revert b c. induction a as [|x a IH]; intros [|y b] [|z c]; simpl; try done.
  intros H1 H2.
  apply orb_true_iff in H1. apply orb_true_iff in H2. apply orb_true_iff.
  destruct H1 as [H1|H1], H2 as [H2|H2].
  - left. apply N.ltb_lt in H1, H2. apply N.ltb_lt. lia.
  - apply andb_true_iff in H2 as [H2 _]. apply N.eqb_eq in H2. subst. auto.
  - apply andb_true_iff in H1 as [H1 _]. apply N.eqb_eq in H1. subst. auto.
  - apply andb_true_iff in H1 as [H1 H1']. apply andb_true_iff in H2 as [H2 H2'].
    apply N.eqb_eq in H1, H2. subst. right. rewrite N.eqb_refl. simpl. eauto.
Qed.

Lemma str_ltb_total (a b : str) :
  str_ltb a b = false -> str_ltb b a = false -> a = b.
Proof.
  revert b. induction a as [|x a IH]; intros [|y b]; simpl; try done.
  intros H1 H2.
  apply orb_false_iff in H1 as [H1 H1']. apply orb_false_iff in H2 as [H2 H2'].
  apply N.ltb_ge in H1, H2. assert (x = y) by lia. subst.
  rewrite N.eqb_refl in *. simpl in *. f_equal. auto.
Qed.

Lemma str_ltb_asym (a b : str) : str_ltb a b = true -> str_ltb b a = false.
Proof.
  intros H. destruct (str_ltb b a) eqn:E; [|reflexivity].
  pose proof (str_ltb_trans _ _ _ H E) as H'.
  rewrite str_ltb_irrefl in H'. discriminate.
Qed.

Lemma str_le_trans (a b c : str) :
  le_of str_ltb a b -> le_of str_ltb b c -> le_of str_ltb a c.
Proof.
  unfold le_of. intros H1 H2.
  destruct (str_ltb c a) eqn:E; [|reflexivity].
  destruct (str_ltb a b) eqn:E2.
  - rewrite (str_ltb_trans _ _ _ E E2) in H2. discriminate.
  - pose proof (str_ltb_total _ _ E2 H1). subst. congruence.
Qed.

(** *** Facts about [mapM] *)

Lemma mapM_inr {A B} (f : A -> exn + B) (g : A -> B) (l : list A) :
  Forall (fun x => f x = inr (g x)) l -> mapM f l = inr (map g l).
Proof.
  induction 1 as [|x l Hx _ IH]; [reflexivity|].
  simpl. rewrite Hx. simpl. rewrite IH. reflexivity.
Qed.

Lemma mapM_lookup {A B} (f : A -> exn + B) (l : list A) (r : list B) :
  mapM f l = inr r ->
  length r = length l
  /\ forall i x, l !! i = Some x -> exists y, r !! i = Some y /\ f x = inr y.
Proof.
  revert r. induction l as [|x l IH]; simpl; intros r H.
  - injection H as <-. split; [reflexivity|]. intros i x Hx. rewrite lookup_nil in Hx. discriminate.
  - destruct (f x) as [e|y] eqn:Ey; [discriminate|]. simpl in H.
    destruct (mapM f l) as [e|ys] eqn:Eys; [discriminate|]. simpl in H.
    injection H as <-. destruct (IH ys eq_refl) as [Hlen Hlk].
    split; [simpl; congruence|].
    intros [|i] x' Hx'; simpl in *.
    + injection Hx' as <-. eauto.
    + apply Hlk. exact Hx'.
Qed.

(** *** Time slots are ordered by hour (C6) *)

Lemma undecorate (x : str) (L : list (Z * str)) :
  Forall (fun p => fst p = hour_key (snd p)) L ->
  map snd (insert_by (fun a b => fst a <? fst b) (hour_key x, x) L)
  = insert_by hour_ltb x (map snd L).
Proof.
  induction 1 as [|[k t] L Hp _ IH]; [reflexivity|].
  simpl in *. subst k. unfold hour_ltb at 1.
  destruct (hour_key t <? hour_key x); simpl; [rewrite IH|]; reflexivity.
Qed.

Lemma insert_by_Forall {A} (lt : A -> A -> bool) (P : A -> Prop) x l :
  P x -> Forall P l -> Forall P (insert_by lt x l).
Proof.
  intros Hx. induction 1 as [|y l Hy Hl IH]; simpl; [repeat constructor; assumption|].
  destruct (lt y x); repeat constructor; assumption.
Qed.

Lemma sorted_decorated (l : list str) :
  Forall (fun p => fst p = hour_key (snd p))
         (sorted (fun a b => fst a <? fst b) (map (fun t => (hour_key t, t)) l))
  /\ map snd (sorted (fun a b => fst a <? fst b)
                     (map (fun t => (hour_key t, t)) l))
     = sorted hour_ltb l.
Proof.
  induction l as [|x l [IH1 IH2]]; [split; [constructor|reflexivity]|].
  unfold sorted in *. simpl. split.
  - apply insert_by_Forall; [reflexivity|exact IH1].
  - rewrite undecorate by exact IH1. rewrite IH2. reflexivity.
Qed.

Lemma sorted_times_eq (de : day_events) :
  Forall (fun t => exists k, time_sort_key t = inr k) (keys de) ->
  sorted_times de = inr (sorted hour_ltb (keys de)).
Proof.
  intros H. unfold sorted_times.
  rewrite (mapM_inr _ (fun t => (hour_key t, t))).
  - simpl. f_equal. apply sorted_decorated.
  - eapply Forall_impl; [exact H|]. intros t [k Hk]. simpl.
    unfold hour_key. rewrite Hk. reflexivity.
Qed.

Lemma hour_ltb_asym a b : hour_ltb a b = true -> hour_ltb b a = false.
Proof. unfold hour_ltb. intros H. apply Z.ltb_lt in H. apply Z.ltb_ge. lia. Qed.

Lemma hour_le_trans a b c :
  le_of hour_ltb a b -> le_of hour_ltb b c -> le_of hour_ltb a c.
Proof.
  unfold le_of, hour_ltb. intros H1 H2.
  apply Z.ltb_ge in H1, H2. apply Z.ltb_ge. lia.
Qed.

Lemma StronglySorted_weaken {A} (R S : A -> A -> Prop) (l : list A) :
  (forall a b, R a b -> S a b) -> StronglySorted R l -> StronglySorted S l.
Proof.
  intros HRS. induction 1 as [|x l _ IH Hall]; constructor; [exact IH|].
  eapply Forall_impl; [exact Hall|]. intros; apply HRS; assumption.
Qed.

(** *** One column per venue in every row (C7) *)

Lemma empty_slots_get (vs : list str) (d : odict (list str)) (v : str) :
  dict_get v (foldl (fun d v => dict_set v [] d) d vs)
  = if bool_decide (v ∈ vs) then Some [] else dict_get v d.
Proof.
  revert d. induction vs as [|w vs IH]; intros d.
  - case_bool_decide as H; [|reflexivity]. apply elem_of_nil in H. destruct H.
  - cbn [foldl]. rewrite IH.
    destruct (decide (v = w)) as [->|Hne].
    + rewrite dict_get_set_eq.
      rewrite (bool_decide_eq_true_2 (w ∈ w :: vs)) by left.
      case_bool_decide; reflexivity.
    + rewrite dict_get_set_ne by congruence.
      destruct (decide (v ∈ vs)) as [Hin|Hin].
      * rewrite !bool_decide_eq_true_2; [reflexivity|right; exact Hin|exact Hin].
      * rewrite !bool_decide_eq_false_2; [reflexivity| |exact Hin].
        intros Hc. apply elem_of_cons in Hc as [Hc|Hc]; [congruence|contradiction].
Qed.

Lemma fill_slots_get (evs : list event) (d : odict (list str)) (v : str) :
  dict_get v
    (foldl (fun d ev =>
              match dict_get (venue ev) d with
              | Some l => dict_set (venue ev) (l ++ [artist ev]) d
              | None => d
              end) d evs)
  = option_map (fun l => l ++ artists_at v evs) (dict_get v d).
Proof.
  revert d. induction evs as [|ev evs IH]; intros d.
  - unfold artists_at. simpl.
    destruct (dict_get v d); simpl; [rewrite app_nil_r|]; reflexivity.
  - cbn [foldl]. rewrite IH. unfold artists_at. cbn [List.filter].
    destruct (dict_get (venue ev) d) as [l|] eqn:El;
      destruct (str_eqb (venue ev) v) eqn:E.
    + apply str_eqb_true in E. subst v.
      rewrite dict_get_set_eq, ?El. simpl. rewrite <- app_assoc. reflexivity.
    + rewrite dict_get_set_ne; [reflexivity|].
      intros Heq. rewrite Heq, str_eqb_refl in E. discriminate.
    + apply str_eqb_true in E. subst v. rewrite ?El. reflexivity.
    + reflexivity.
Qed.

Lemma venue_to_events_get (vs : list str) (evs : list event) (v : str) :
  v ∈ vs -> dict_get v (venue_to_events vs evs) = Some (artists_at v evs).
Proof.
  intros Hin. unfold venue_to_events.
  rewrite fill_slots_get, empty_slots_get.
  rewrite bool_decide_eq_true_2 by exact Hin. reflexivity.
Qed.


Lemma strictly_sorted (l : list str) :
  NoDup l -> StronglySorted (le_of str_ltb) l -> StronglySorted str_lt l.
Proof.
  intros Hnd. induction 1 as [|x l _ IH Hall]; [constructor|].
  apply NoDup_cons in Hnd as [Hx Hnd].
  constructor; [apply IH; exact Hnd|].
  apply Forall_forall. intros y Hy.
  rewrite Forall_forall in Hall. specialize (Hall y Hy). unfold le_of in Hall.
  unfold str_lt. destruct (str_ltb x y) eqn:E; [reflexivity|].
  pose proof (str_ltb_total _ _ E Hall). subst. contradiction.
Qed.

Lemma all_venues_sorted (s : schedule) :
  StronglySorted str_lt (all_venues s)
  /\ forall v, v ∈ all_venues s <-> v ∈ venues_of s.
Proof.
  unfold all_venues. split.
  - apply strictly_sorted.
    + rewrite sorted_perm. apply NoDup_remove_dups.
    + apply sorted_sorted; [exact str_ltb_asym|exact str_le_trans].
  - intros v. rewrite sorted_perm. apply elem_of_remove_dups.
Qed.

(** *** Unranked artists (C10, C3) *)

Lemma get_color_none (rank : pyval) :
  (rank = PNone -> get_color_for_rank rank = inr (None, None))
  /\ (as_number rank = None -> get_color_for_rank rank = inr (None, None)).
Proof.
  split; [intros ->; reflexivity|].
  intros H. unfold get_color_for_rank. rewrite H. reflexivity.
Qed.

Lemma get_color_numeric (rank : pyval) (r : num) (c : option str * option str) :
  as_number rank = Some r -> get_color_for_rank rank = inr c ->
  exists red green blue tc,
    rgb r = inr (red, green, blue)
    /\ (tc = WHITE \/ tc = BLACK)
    /\ c = (Some (background red green blue), Some tc).
Proof.
  intros Hr H. unfold get_color_for_rank in H. rewrite Hr in H.
  destruct (rgb r) as [e|[[red green] blue]]; [discriminate|]. simpl in H.
  destruct (luminance red green blue) as [e|lum]; [discriminate|]. simpl in H.
  injection H as <-. exists red, green, blue. eexists. split; [reflexivity|].
  split; [|reflexivity]. destruct (ltb lum c0_5); auto.
Qed.

(** C3, counterexample.  An artist absent from the rankings is rendered
    with a [style] attribute (an empty one). *)
Lemma C3_counterexample :
  exists h, artist_html (YMap ∅) (u "Band A") = inr h
            /\ has_style_attribute h = true.
Proof. eexists. split; reflexivity. Qed.

(** C3, as amended.  Every artist's span carries a [style] attribute.  For
    an artist absent from the rankings, or whose value is not a number, the
    attribute is empty: no background or text colour is declared.  For an
    artist whose value is a number, whenever the item is rendered its style
    is exactly the background colour and the text colour the mapper
    returned. *)
Theorem C3_style_of_artist (m : gmap str pyval) (a : str) :
  let rank := default PNone (m !! a) in
  (m !! a = None \/ as_number rank = None ->
     artist_html (YMap m) a = inr (span_html [] a))
  /\ (forall r h, as_number rank = Some r -> artist_html (YMap m) a = inr h ->
        exists bg tc,
          get_color_for_rank rank = inr (Some bg, Some tc)
          /\ h = span_html (u "background-color: " ++ bg ++ u ";"
                            ++ u " color: " ++ tc ++ u ";") a).
Proof.
  intros rank. split.
  - intros H. unfold artist_html. simpl. fold rank.
    rewrite (proj2 (get_color_none rank)); [reflexivity|].
    destruct H as [H|H]; [|exact H]. unfold rank. rewrite H. reflexivity.
  - intros r h Hr H. unfold artist_html in H. simpl in H. fold rank in H.
    destruct (get_color_for_rank rank) as [e|c] eqn:Ec; [discriminate|].
    simpl in H. injection H as <-.
    destruct (get_color_numeric _ _ _ Hr Ec) as (red & green & blue & tc & _ & Htc & ->).
    eexists _, tc. split; [reflexivity|].
    simpl. destruct Htc as [-> | ->]; reflexivity.
Qed.

(** C3, witness: an unranked artist beside a ranked one. *)
Lemma C3_style_of_artist_witness :
  artist_html (YMap {[ u "Band A" := PInt 8 ]}) (u "Band B")
  = inr (span_html [] (u "Band B")).
Proof.
  apply (proj1 (C3_style_of_artist {[ u "Band A" := PInt 8 ]} (u "Band B"))).
  left. reflexivity.
Defined.

Lemma schedule_main_load_failure {doc} (safe_load : doc -> exn + yval)
    (f : text_file) (d : doc) (e : exn) (out : list message) (s : schedule) :
  parse_schedule_file f = (out, Some s) -> safe_load d = inl e ->
  schedule_main doc safe_load f (Stored d)
  = Outcome (out ++ [LoadingRankings]) None (Some e).
Proof.
  intros Hp Hl. unfold schedule_main. rewrite Hp. simpl. rewrite Hl. reflexivity.
Qed.

(** C4.  [rank.load_rankings] recovers from a document that does not parse:
    it prints a warning and returns the empty mapping.  [schedule.main] reads
    the same file without a handler: the exception ends the run and no HTML
    is written. *)
Theorem C4_renderer_aborts_on_malformed_store :
  let run := schedule_main toy_doc toy_load
               (Lines [u "Friday"; u "  20:00"; u "    Band A (Hall)"])
               (Stored Malformed) in
  raised run = Some YAMLError /\ html run = None
  /\ load_rankings toy_doc toy_load (Stored Malformed)
     = ([WarnRankings YAMLError], YMap ∅).
Proof. repeat split. Qed.

(** *** What a session saves *)

Lemma prompt_ranked (n id : str) (inputs : list str) ev z rest :
  prompt n id inputs = (ev, Some (Ranked z, rest)) -> 1 <= z <= 10.
Proof.
  revert ev. induction inputs as [|raw inputs IH]; intros ev H; [discriminate|].
  cbn [prompt] in H.
  destruct (prompt n id inputs) as [ev' r] eqn:Ep.
  destruct (lower (strip raw)) as [|c s].
  - inversion H; subst. eauto.
  - destruct (str_eqb (c :: s) (u "s")); [discriminate|].
    destruct (int_of_str (c :: s)) as [e|z'].
    + inversion H; subst. eauto.
    + destruct ((1 <=? z') && (z' <=? 10)) eqn:E.
      * inversion H; subst. apply andb_true_iff in E as [E1 E2]. lia.
      * inversion H; subst. eauto.
Qed.

Section Session.
Context {doc : Type} (dump : yval -> doc).
Context (write_fails :
           nat -> store_file doc -> doc -> option (exn * store_file doc)).

Lemma rank_one_saves (total i : nat) (a : artist_entry) (st : session doc)
    (m0 m : gmap str pyval) :
  rankings doc st = YMap m -> ranks_added m0 m ->
  let st' := rank_one doc dump write_fails total i a st in
  exists m', rankings doc st' = YMap m' /\ ranks_added m0 m'
    /\ (saves doc st' = saves doc st
        /\ file doc st' = file doc st /\ m' = m
        \/ saves doc st' = saves doc st ++ [YMap m']
           /\ exists z, 1 <= z <= 10 /\ m' = <[name a := PInt z]> m).
Proof.
  intros Hm Hadd. unfold rank_one.
  set (pr := match youtube_id a with
             | [] => ([], Some (Skipped, inputs doc st))
             | id => let '(ev, r) := prompt (name a) id (inputs doc st) in
                     (Play id :: ev, r)
             end).
  assert (Hpr : forall ev z rest, pr = (ev, Some (Ranked z, rest)) -> 1 <= z <= 10).
  { subst pr. intros ev z rest. destruct (youtube_id a) as [|c id]; [discriminate|].
    destruct (prompt (name a) (c :: id) (inputs doc st)) as [ev' r] eqn:E.
    intros H. cbv zeta in H. rewrite E in H. inversion H; subst.
    eapply prompt_ranked. exact E. }
  destruct pr as [ev [[[z|] rest]|]].
  - rewrite Hm. cbn [set_item].
    assert (Hnew : ranks_added m0 (<[name a := PInt z]> m)).
    { intros k v Hk. destruct (decide (name a = k)) as [<-|Hne].
      - rewrite lookup_insert_eq in Hk. injection Hk as <-. right. exists z.
        split; [reflexivity|]. eapply Hpr. reflexivity.
      - rewrite lookup_insert_ne in Hk by exact Hne. apply Hadd. exact Hk. }
    destruct (save_rankings doc dump write_fails _ _ _) as [f [e|]];
      cbn [rankings saves file]; exists (<[name a := PInt z]> m);
      (split; [reflexivity|]); (split; [exact Hnew|]); right;
      (split; [reflexivity|]); exists z;
      (split; [eapply Hpr; reflexivity|reflexivity]).
  - simpl. exists m. split; [exact Hm|]. split; [exact Hadd|]. left. auto.
  - simpl. exists m. split; [exact Hm|]. split; [exact Hadd|]. left. auto.
Qed.

Lemma rank_all_saves (total : nat) (todo : list artist_entry) (i : nat)
    (st : session doc) (m0 m : gmap str pyval) :
  rankings doc st = YMap m -> ranks_added m0 m ->
  let st' := rank_all doc dump write_fails total i todo st in
  exists new, saves doc st' = saves doc st ++ new
    /\ Forall (fun v => exists m', v = YMap m' /\ ranks_added m0 m') new.
Proof.
  revert i st m. induction todo as [|a todo IH]; intros i st m Hm Hadd; simpl.
  - exists []. rewrite app_nil_r. split; [reflexivity|constructor].
  - destruct (rank_one_saves total i a st m0 m Hm Hadd) as (m' & Hm' & Hadd' & Hs).
    assert (Hone : exists new,
               saves doc (rank_one doc dump write_fails total i a st)
               = saves doc st ++ new
               /\ Forall (fun v => exists m', v = YMap m' /\ ranks_added m0 m') new).
    { destruct Hs as [(Hs & _)|(Hs & _)].
      - exists []. rewrite app_nil_r. split; [exact Hs|constructor].
      - exists [YMap m']. split; [exact Hs|]. repeat constructor. eauto. }
    destruct (failure doc (rank_one doc dump write_fails total i a st));
      [exact Hone|].
    destruct Hone as (new1 & Hn1 & Hf1).
    destruct (IH (S i) _ m' Hm' Hadd') as (new2 & Hn2 & Hf2).
    exists (new1 ++ new2). split.
    + rewrite Hn2, Hn1, app_assoc. reflexivity.
    + apply Forall_app. split; assumption.
Qed.

(** Whatever is typed and whether writing succeeds or not, every mapping a
    session hands to [save_rankings] holds only entries that were in the
    mapping the session started with and ranks from 1 to 10, so the marker
    of a skip is never written; and an artist who is skipped (or has no
    video) causes no save at all: the mapping, the file and the list of
    saves stay as they were. *)
Theorem session_saves_only_ranks :
  (forall total i todo (st : session doc) m0,
      rankings doc st = YMap m0 ->
      exists new,
        saves doc (rank_all doc dump write_fails total i todo st)
        = saves doc st ++ new
        /\ Forall (fun v => exists m, v = YMap m /\ ranks_added m0 m) new)
  /\ (forall total i a (st : session doc) ev rest,
        (youtube_id a = [] \/
         prompt (name a) (youtube_id a) (inputs doc st)
         = (ev, Some (Skipped, rest))) ->
        let st' := rank_one doc dump write_fails total i a st in
        saves doc st' = saves doc st /\ file doc st' = file doc st
        /\ rankings doc st' = rankings doc st).
Proof.
  split.
  - intros total i todo st m0 Hm0.
    apply (rank_all_saves total todo i st m0 m0 Hm0).
    intros k v Hk. left. exact Hk.
  - intros total i a st ev rest H. unfold rank_one.
    destruct H as [H|H].
    + rewrite H. simpl. auto.
    + destruct (youtube_id a) as [|c id] eqn:E; [simpl; auto|].
      rewrite H. simpl. auto.
Qed.

End Session.

Lemma session_saves_only_ranks_witness :
  let st := Session toy_doc [] (YMap {[ u "A" := PInt 3 ]}) Absent []
              [u "s"; u "7"] None in
  exists new,
    saves toy_doc
      (rank_all toy_doc toy_dump toy_write 2 0
         [Artist (u "B") (u "IS") (u "abc"); Artist (u "C") (u "IS") (u "def")]
         st)
    = saves toy_doc st ++ new
    /\ Forall (fun v => exists m,
                 v = YMap m /\ ranks_added {[ u "A" := PInt 3 ]} m) new.
Proof.
  apply (proj1 (session_saves_only_ranks toy_dump toy_write)). reflexivity.
Defined.

(** *** The document, piece by piece *)

Lemma inr_eq {A B} (x y : B) : @inr A B x = inr y -> x = y.
Proof. intros [= ->]. reflexivity. Qed.

Lemma mapM_Forall2_in {A B} (f : A -> exn + B) (l0 l : list A) (r : list B) :
  (forall x, x ∈ l -> x ∈ l0) ->
  mapM f l = inr r -> Forall2 (fun x y => x ∈ l0 /\ f x = inr y) l r.
Proof.
  revert r. induction l as [|x l IH]; intros r Hin H.
  - injection H as <-. constructor.
  - cbn [mapM] in H. destruct (f x) as [e|y] eqn:Ey; [discriminate|].
    cbn [bind] in H. destruct (mapM f l) as [e|ys]; [discriminate|].
    cbn [bind] in H. injection H as <-. constructor.
    + split; [apply Hin; left|exact Ey].
    + apply IH; [|reflexivity]. intros x' Hx'. apply Hin. right. exact Hx'.
Qed.

Lemma mapM_Forall2 {A B} (f : A -> exn + B) (l : list A) (r : list B) :
  mapM f l = inr r -> Forall2 (fun x y => f x = inr y) l r.
Proof.
  intros H. eapply Forall2_impl; [apply (mapM_Forall2_in f l l r); auto|].
  intros x y [_ Hy]. exact Hy.
Qed.

Lemma Forall2_map_r {A B C} (P : A -> C -> Prop) (g : B -> C)
    (l : list A) (r : list B) :
  Forall2 (fun x y => P x (g y)) l r -> Forall2 P l (map g r).
Proof. induction 1; constructor; assumption. Qed.

Lemma concat_concat (L : list (list str)) :
  concat (concat L) = concat (map (fun p => concat p) L).
Proof.
  induction L as [|x L IH]; [reflexivity|].
  cbn [concat map]. rewrite concat_app, IH. reflexivity.
Qed.

Lemma artist_html_item (rankings : yval) (a item : str) :
  artist_html rankings a = inr item -> item_of rankings a item.
Proof.
  unfold artist_html, item_of. intros H.
  destruct (get rankings a) as [e|rank]; [discriminate|]. cbn [bind] in H.
  destruct (get_color_for_rank rank) as [e|c] eqn:Ec; [discriminate|].
  cbn [bind] in H. injection H as <-. exists rank, c. auto.
Qed.

Lemma cell_parts_text (rankings : yval) (venues : list str)
    (evs : list event) (v : str) (parts : list str) :
  v ∈ venues ->
  cell_parts rankings (venue_to_events venues evs) v = inr parts ->
  cell_of rankings evs v (concat parts).
Proof.
  intros Hv H. unfold cell_parts in H.
  rewrite venue_to_events_get in H by exact Hv.
  change (default [] (Some (artists_at v evs))) with (artists_at v evs) in H.
  unfold cell_of.
  destruct (artists_at v evs) as [|a0 as0].
  - apply inr_eq in H. subst. exists []. split; [constructor|].
    cbn [concat cell_text]. apply app_nil_r.
  - destruct (mapM (artist_html rankings) (a0 :: as0)) as [e|items] eqn:Ei;
      [discriminate|].
    cbn [bind] in H. apply inr_eq in H. subst.
    apply mapM_Forall2 in Ei.
    assert (Hit : Forall2 (item_of rankings) (a0 :: as0) items).
    { eapply Forall2_impl; [exact Ei|]. intros a i. apply artist_html_item. }
    exists items. split; [exact Hit|].
    inversion Hit as [|? i0 ? is0]; subst.
    cbn [cell_text]. rewrite !concat_app. cbn [concat].
    rewrite !app_nil_r. reflexivity.
Qed.

Lemma row_parts_text (rankings : yval) (venues : list str) (de : day_events)
    (t : str) (parts : list str) :
  row_parts rankings venues de t = inr parts ->
  row_of rankings venues de t (concat parts).
Proof.
  unfold row_parts, row_cells, row_of. intros H.
  destruct (dict_get t de) as [evs|]; [|discriminate].
  destruct (mapM _ venues) as [e|cells] eqn:Ec; [discriminate|].
  cbn [bind] in H. apply inr_eq in H. subst.
  apply (mapM_Forall2_in _ venues) in Ec; [|auto].
  exists evs, (map (fun p => concat p) cells). split; [reflexivity|]. split.
  - apply Forall2_map_r. eapply Forall2_impl; [exact Ec|].
    intros v c [Hv Hc]. eapply cell_parts_text; eassumption.
  - unfold row_text. rewrite !concat_app, concat_concat. cbn [concat].
    rewrite !app_nil_r, <- !app_assoc. reflexivity.
Qed.

Lemma sorted_times_inv (de : day_events) (times : list str) :
  sorted_times de = inr times ->
  Forall (fun t => exists k, time_sort_key t = inr k) (keys de)
  /\ times = sorted hour_ltb (keys de).
Proof.
  intros H.
  assert (Hall : Forall (fun t => exists k, time_sort_key t = inr k) (keys de)).
  { unfold sorted_times in H.
    destruct (mapM _ (keys de)) as [e|ks] eqn:Ek; [discriminate|].
    apply mapM_Forall2 in Ek. clear H.
    induction Ek as [|t k l ks Ht _ IH]; constructor; [|exact IH].
    destruct (time_sort_key t) as [e|k0]; [discriminate|]. eauto. }
  split; [exact Hall|]. rewrite (sorted_times_eq de Hall) in H.
  apply inr_eq in H. subst. reflexivity.
Qed.

Lemma day_parts_text (rankings : yval) (venues : list str)
    (d : str * day_events) (parts : list str) :
  day_parts rankings venues d = inr parts ->
  Forall (fun t => exists k, time_sort_key t = inr k) (keys (snd d))
  /\ table_of rankings venues d (sorted hour_ltb (keys (snd d)))
              (concat parts).
Proof.
  destruct d as [day de]. unfold day_parts, table_of. cbn [fst snd]. intros H.
  destruct (sorted_times de) as [e|times] eqn:Et; [discriminate|].
  cbn [bind] in H. apply sorted_times_inv in Et as [Hall ->].
  split; [exact Hall|].
  destruct (mapM _ (sorted hour_ltb (keys de))) as [e|rows] eqn:Er;
    [discriminate|].
  cbn [bind] in H. apply inr_eq in H. subst. apply mapM_Forall2 in Er.
  exists (map (fun p => concat p) rows). split.
  - apply Forall2_map_r. eapply Forall2_impl; [exact Er|].
    intros t r. apply row_parts_text.
  - unfold table_text, head_text, table_head.
    cbn [app]. cbn [concat]. rewrite !concat_app, concat_concat. cbn [concat].
    rewrite !app_nil_r, <- !app_assoc. reflexivity.
Qed.

Lemma render_structure (s : schedule) (rankings : yval) (html : str) :
  generate_html_table s rankings = inr html ->
  exists tables,
    html = document_text tables
    /\ Forall2 (fun d table =>
                  Forall (fun t => exists k, time_sort_key t = inr k)
                         (keys (snd d))
                  /\ table_of rankings (all_venues s) d
                              (sorted hour_ltb (keys (snd d))) table)
               s tables.
Proof.
  unfold generate_html_table. intros H.
  destruct (mapM _ s) as [e|days] eqn:Ed; [discriminate|].
  cbn [bind] in H. apply inr_eq in H. subst. apply mapM_Forall2 in Ed.
  exists (map (fun p => concat p) days). split.
  - unfold document_text. cbn [app]. cbn [concat].
    rewrite !concat_app, concat_concat. cbn [concat].
    rewrite !app_nil_r. reflexivity.
  - apply Forall2_map_r. eapply Forall2_impl; [exact Ed|].
    intros d parts. apply day_parts_text.
Qed.

(** *** The order of the rows (C6) *)

(** C6, counterexample.  Among labels of the same hour the rows do not
    follow the order of the labels as strings: the file that lists 20:30
    before 20:00 is rendered with the row of 20:30 first. *)
Lemma C6_counterexample :
  parse_schedule_file (Lines [u "Fri"; u "  20:30"; u "  20:00"])
  = ([], Some [(u "Fri", [(u "20:30", []); (u "20:00", [])])])
  /\ generate_html_table [(u "Fri", [(u "20:30", []); (u "20:00", [])])]
                         (YMap ∅)
     = inr (document_text
              [table_text (u "Fri") []
                 [row_text (u "20:30") []; row_text (u "20:00") []]])
  /\ ~ hour_then_label (u "20:30") (u "20:00").
Proof.
  split; [reflexivity|]. split; [vm_compute; reflexivity|].
  intros [H|[_ H]]; [vm_compute in H|]; discriminate H.
Qed.

(** C6, as amended.  In the document that is returned, the table of every
    day has one row per time slot of the day, each starting with the cell of
    its label; the rows come in non-decreasing order of the sort key, the
    labels of equal key in the order the slots have in the schedule (the
    order of their first appearance in the file); the hour of every label is
    an integer, and the key is that hour, plus 24 when it is below 5.  The
    slots 23:00, 00:30, 20:00 of one day are rendered in the order 20:00,
    23:00, 00:30.  Sorting the slots of a day succeeds whenever the hour of
    each of its labels is an integer. *)
Theorem C6_time_slot_order :
  (forall (s : schedule) (rankings : yval) (html : str),
      generate_html_table s rankings = inr html ->
      exists tables,
        html = document_text tables
        /\ Forall2
             (fun d table =>
                exists times rows,
                  table = table_text (fst d) (all_venues s) rows
                  /\ Forall2 (fun t row => exists cells, row = row_text t cells)
                             times rows
                  /\ times ≡ₚ keys (snd d)
                  /\ StronglySorted (fun a b => hour_key a <= hour_key b) times
                  /\ (forall k,
                        List.filter (fun t => hour_key t =? k) times
                        = List.filter (fun t => hour_key t =? k)
                                      (keys (snd d)))
                  /\ Forall (fun t =>
                               exists h,
                                 int_of_str (split_head COLON t) = inr h
                                 /\ hour_key t = if h <? 5 then h + 24 else h)
                            times)
             s tables)
  /\ generate_html_table
       [(u "Fri", [(u "23:00", []); (u "00:30", []); (u "20:00", [])])]
       (YMap ∅)
     = inr (document_text
              [table_text (u "Fri") []
                 [row_text (u "20:00") []; row_text (u "23:00") [];
                  row_text (u "00:30") []]])
  /\ (forall de : day_events,
        Forall (fun t => exists h, int_of_str (split_head COLON t) = inr h)
               (keys de) ->
        exists times, sorted_times de = inr times).
Proof.
  split; [|split; [vm_compute; reflexivity|]].
  2: { intros de Hde. exists (sorted hour_ltb (keys de)).
       apply sorted_times_eq. eapply Forall_impl; [exact Hde|].
       intros t [h Hh]. unfold time_sort_key. rewrite Hh. cbn [bind]. eauto. }
  intros s rankings html H.
  destruct (render_structure s rankings html H) as (tables & -> & Hall).
  exists tables. split; [reflexivity|].
  eapply Forall2_impl; [exact Hall|].
  intros [day de] table [Hparse (rows & Hrows & ->)]. cbn [fst snd] in *.
  exists (sorted hour_ltb (keys de)), rows.
  split; [reflexivity|]. split.
  { eapply Forall2_impl; [exact Hrows|].
    intros t row (evs & cells & _ & _ & ->). eauto. }
  split; [apply sorted_perm|]. split.
  { eapply StronglySorted_weaken; [|apply sorted_sorted].
    - unfold le_of, hour_ltb. intros a b Hab. apply Z.ltb_ge in Hab. exact Hab.
    - exact hour_ltb_asym.
    - exact hour_le_trans. }
  split.
  { intros k. apply sorted_filter. intros x y Hx Hy.
    apply Z.eqb_eq in Hx, Hy. unfold hour_ltb. apply Z.ltb_ge. lia. }
  rewrite sorted_perm. eapply Forall_impl; [exact Hparse|].
  intros t [k Hk]. unfold hour_key. rewrite Hk.
  unfold time_sort_key in Hk.
  destruct (int_of_str (split_head COLON t)) as [e|h]; [discriminate|].
  cbn [bind] in Hk. injection Hk as <-. eauto.
Qed.

(** C6, witness: a day whose slots are listed out of order, two of them in
    the same hour. *)
Lemma C6_time_slot_order_witness :
  exists tables,
    document_text
      [table_text (u "Fri") []
         [row_text (u "20:30") []; row_text (u "20:00") [];
          row_text (u "01:00") []]]
    = document_text tables
    /\ Forall2
         (fun (d : str * day_events) table =>
            exists times rows,
              table = table_text (fst d)
                        (all_venues
                           [(u "Fri", [(u "01:00", []); (u "20:30", []);
                                       (u "20:00", [])])]) rows
              /\ Forall2 (fun t row => exists cells, row = row_text t cells)
                         times rows
              /\ times ≡ₚ keys (snd d)
              /\ StronglySorted (fun a b => hour_key a <= hour_key b) times
              /\ (forall k,
                    List.filter (fun t => hour_key t =? k) times
                    = List.filter (fun t => hour_key t =? k) (keys (snd d)))
              /\ Forall (fun t =>
                           exists h,
                             int_of_str (split_head COLON t) = inr h
                             /\ hour_key t = if h <? 5 then h + 24 else h)
                        times)
         [(u "Fri", [(u "01:00", []); (u "20:30", []); (u "20:00", [])])]
         tables.
Proof.
  apply (proj1 C6_time_slot_order
           [(u "Fri", [(u "01:00", []); (u "20:30", []); (u "20:00", [])])]
           (YMap ∅)).
  vm_compute. reflexivity.
Defined.

(** *** One column per venue in every row (C7) *)

















(** *** More on the parser *)

Lemma take_drop_while (p : N -> bool) (s : str) :
  take_while p s ++ drop_while p s = s.
Proof.
  induction s as [|c s IH]; [reflexivity|]. simpl.
  destruct (p c); simpl; [rewrite IH|]; reflexivity.
Qed.

Lemma take_while_all (p : N -> bool) (s : str) :
  Forall (fun c => p c = true) (take_while p s).
Proof.
  induction s as [|c s IH]; [constructor|]. simpl.
  destruct (p c) eqn:E; constructor; assumption.
Qed.

Lemma take_while_id (p : N -> bool) (v rest : str) (c : N) :
  Forall (fun c => p c = true) v -> p c = false ->
  take_while p (v ++ c :: rest) = v /\ drop_while p (v ++ c :: rest) = c :: rest.
Proof.
  intros Hv Hc. induction Hv as [|x v Hx _ IH]; simpl.
  - rewrite Hc. split; reflexivity.
  - rewrite Hx. destruct IH as [-> ->]. split; reflexivity.
Qed.

Lemma not_rparen (v : str) :
  RPAREN ∉ v <-> Forall (fun c => negb (N.eqb c RPAREN) = true) v.
Proof.
  rewrite Forall_forall. split.
  - intros H c Hc. apply negb_true_iff, N.eqb_neq. intros ->. contradiction.
  - intros H Hin. specialize (H _ Hin). rewrite N.eqb_refl in H. discriminate.
Qed.

Lemma match_tail_shape (t v : str) : match_tail t = Some v <-> tail_shape t v.
Proof.
  unfold tail_shape. split.
  - intros H. destruct t as [|w [|p rest]]; try discriminate. simpl in H.
    destruct (is_space w) eqn:Hw; [|discriminate].
    destruct (N.eqb p LPAREN) eqn:Hp; [|discriminate]. simpl in H.
    apply N.eqb_eq in Hp. subst p.
    pose proof (take_drop_while (fun c => negb (N.eqb c RPAREN)) rest) as Hsplit.
    pose proof (take_while_all (fun c => negb (N.eqb c RPAREN)) rest) as Hall.
    destruct (take_while _ rest) as [|x v'] eqn:Ev; [discriminate|].
    destruct (drop_while _ rest) as [|c [|n [|]]] eqn:Er; try discriminate.
    + destruct (N.eqb c RPAREN) eqn:Hc; [|discriminate]. injection H as <-.
      apply N.eqb_eq in Hc. subst c. exists w.
      split; [exact Hw|]. split; [discriminate|].
      split; [apply not_rparen; exact Hall|]. left. rewrite <- Hsplit. reflexivity.
    + destruct (N.eqb c RPAREN) eqn:Hc; [|discriminate].
      destruct (N.eqb n NL) eqn:Hn; [|discriminate]. injection H as <-.
      apply N.eqb_eq in Hc, Hn. subst c n. exists w.
      split; [exact Hw|]. split; [discriminate|].
      split; [apply not_rparen; exact Hall|]. right. rewrite <- Hsplit. reflexivity.
  - intros (w & Hw & Hne & Hnp & Ht). apply not_rparen in Hnp.
    assert (negb (N.eqb RPAREN RPAREN) = false) as Hr by reflexivity.
    destruct Ht as [-> | ->]; simpl; rewrite Hw; simpl.
    + destruct (take_while_id _ v [] RPAREN Hnp Hr) as [-> ->].
      destruct v; [contradiction|reflexivity].
    + destruct (take_while_id _ v [NL] RPAREN Hnp Hr) as [-> ->].
      destruct v; [contradiction|reflexivity].
Qed.

Lemma event_regex_sound (s a v : str) :
  event_regex_match s = Some (a, v) ->
  exists t, s = a ++ t /\ (NL ∉ a) /\ match_tail t = Some v.
Proof.
  revert a. induction s as [|c s IH]; intros a H; [discriminate|].
  cbn [event_regex_match] in H.
  destruct (N.eqb c NL) eqn:Hc.
  - destruct (match_tail (c :: s)) as [v'|] eqn:Et; [|discriminate].
    injection H as <- <-. exists (c :: s). split; [reflexivity|].
    split; [apply not_elem_of_nil|exact Et].
  - destruct (event_regex_match s) as [[a' v']|] eqn:Em.
    + injection H as <- <-. destruct (IH a' eq_refl) as (t & -> & Hnl & Ht).
      exists t. split; [reflexivity|]. split; [|exact Ht].
      apply not_elem_of_cons. split; [|exact Hnl].
      intros <-. rewrite N.eqb_refl in Hc. discriminate.
    + destruct (match_tail (c :: s)) as [v'|] eqn:Et; [|discriminate].
      injection H as <- <-. exists (c :: s). split; [reflexivity|].
      split; [apply not_elem_of_nil|exact Et].
Qed.

Lemma event_regex_greedy (a t v : str) :
  NL ∉ a -> match_tail t = Some v ->
  exists a' v', event_regex_match (a ++ t) = Some (a', v')
                /\ (length a <= length a')%nat.
Proof.
  intros Hnl Ht. induction a as [|c a IH].
  - simpl. destruct t as [|c t]; [discriminate|].
    cbn [event_regex_match].
    destruct (if N.eqb c NL then None else event_regex_match t) as [[a' v']|].
    + eexists _, _. split; [reflexivity|]. simpl. lia.
    + rewrite Ht. eexists _, _. split; [reflexivity|]. simpl. lia.
  - apply not_elem_of_cons in Hnl as [Hc Hnl].
    destruct (IH Hnl) as (a' & v' & Hm & Hlen).
    simpl. rewrite (proj2 (N.eqb_neq c NL)) by congruence.
    rewrite Hm. eexists _, _. split; [reflexivity|]. simpl. lia.
Qed.

(** The event pattern matches exactly the lines of the shape
    [artist, whitespace, (venue)], and group 1 is the longest possible. *)
Theorem event_pattern (s : str) :
  (forall a v, event_regex_match s = Some (a, v) ->
     exists t, s = a ++ t /\ (NL ∉ a) /\ tail_shape t v)
  /\ (forall a t v, s = a ++ t -> NL ∉ a -> tail_shape t v ->
        exists a' v', event_regex_match s = Some (a', v')
                      /\ (length a <= length a')%nat).
Proof.
  split.
  - intros a v H. destruct (event_regex_sound s a v H) as (t & Hs & Hnl & Ht).
    exists t. split; [exact Hs|]. split; [exact Hnl|].
    apply match_tail_shape. exact Ht.
  - intros a t v -> Hnl Ht. apply event_regex_greedy with v; [exact Hnl|].
    apply match_tail_shape. exact Ht.
Qed.

Lemma event_pattern_witness :
  exists a' v', event_regex_match (u "A (B (C)") = Some (a', v')
                /\ (length (u "A") <= length a')%nat.
Proof.
  apply (proj2 (event_pattern (u "A (B (C)")) (u "A") (u " (B (C)") (u "B (C")).
  - reflexivity.
  - intros H. repeat (apply elem_of_cons in H as [H|H]; [discriminate H|]).
    apply elem_of_nil in H. exact H.
  - exists 32%N. split; [reflexivity|]. split; [discriminate|]. split; [|left; reflexivity].
    apply not_rparen. repeat constructor.
Defined.

(** *** Lines the parser ignores *)

Lemma step_ignored (i : nat) (line : str) (st : pstate) :
  ignored line -> step i line st = inr (st, []).
Proof.
  unfold ignored, step. intros H. destruct (strip line) as [|c s]; [reflexivity|].
  destruct H as [H|[H|H]]; [discriminate H|rewrite H; reflexivity..].
Qed.

(** The variables after a line do not depend on the line's number. *)
Lemma step_index (i j : nat) (line : str) (st : pstate) :
  match step i line st with
  | inl e => step j line st = inl e
  | inr (st', _) => exists out, step j line st = inr (st', out)
  end.
Proof.
  unfold step. destruct (strip line) as [|c s]; [eauto|].
  destruct (indentation line =? 0)%nat; [eauto|].
  destruct (indentation line =? 2)%nat.
  { destruct (truthy (current_day st)); [|eauto].
    destruct (open_slot _ _ _); eauto. }
  destruct (4 <=? indentation line)%nat; [|eauto].
  destruct (truthy (current_day st)); [|eauto].
  destruct (truthy (current_time st)); [|eauto].
  destruct (event_regex_match (c :: s)) as [[a v]|]; [|eauto].
  destruct (append_event _ _ _ _); eauto.
Qed.

Lemma run_index (i j : nat) (lines : list str) (st : pstate) :
  snd (run i lines st) = snd (run j lines st).
Proof.
  revert i j st. induction lines as [|line rest IH]; intros i j st; [reflexivity|].
  simpl. pose proof (step_index i j line st) as H.
  destruct (step i line st) as [e|[st' out]].
  - rewrite H. reflexivity.
  - destruct H as (out' & ->). specialize (IH (S i) (S j) st').
    destruct (run (S i) rest st'), (run (S j) rest st'). exact IH.
Qed.

Lemma run_app (i : nat) (l1 l2 : list str) (st : pstate) :
  snd (run i (l1 ++ l2) st)
  = match snd (run i l1 st) with
    | inl e => inl e
    | inr st1 => snd (run (i + length l1) l2 st1)
    end.
Proof.
  revert i st. induction l1 as [|line l1 IH]; intros i st.
  - simpl. rewrite Nat.add_0_r. reflexivity.
  - simpl. destruct (step i line st) as [e|[st' out]]; [reflexivity|].
    specialize (IH (S i) st').
    destruct (run (S i) (l1 ++ l2) st'), (run (S i) l1 st'). simpl in *.
    rewrite IH. replace (i + S (length l1))%nat with (S (i + length l1)) by lia.
    reflexivity.
Qed.

Lemma parse_result (ls : list str) :
  snd (parse_schedule_file (Lines ls))
  = match snd (run 0 ls initial) with
    | inl _ => None
    | inr st => Some (sched st)
    end.
Proof.
  unfold parse_schedule_file. destruct (run 0 ls initial) as [out [e|st]]; reflexivity.
Qed.

(** Blank lines, and lines indented by one or three spaces, can be put in
    or taken out anywhere without changing what the parser returns. *)
Theorem ignored_line_changes_nothing (l1 l2 : list str) (line : str) :
  ignored line ->
  snd (parse_schedule_file (Lines (l1 ++ line :: l2)))
  = snd (parse_schedule_file (Lines (l1 ++ l2))).
Proof.
  intros H. rewrite !parse_result, !run_app.
  destruct (snd (run 0 l1 initial)) as [e|st1]; [reflexivity|].
  cbn [run]. rewrite (step_ignored _ line st1 H).
  pose proof (run_index (S (0 + length l1)) (0 + length l1) l2 st1) as Hi.
  destruct (run (S (0 + length l1)) l2 st1). cbn [snd app] in *. rewrite Hi.
  reflexivity.
Qed.

Lemma ignored_line_changes_nothing_witness :
  snd (parse_schedule_file
         (Lines ([u "Friday"] ++ u "   odd" :: [u "  20:00"])))
  = snd (parse_schedule_file (Lines ([u "Friday"] ++ [u "  20:00"]))).
Proof.
  apply ignored_line_changes_nothing. right. right. reflexivity.
Defined.

(** An input of ignored lines only is an empty schedule, not an error. *)
Theorem only_ignored_lines (ls : list str) :
  Forall ignored ls -> parse_schedule_file (Lines ls) = ([], Some []).
Proof.
  intros H. unfold parse_schedule_file.
  assert (forall i st, run i ls st = ([], inr st)) as ->; [|reflexivity].
  induction H as [|line ls Hl _ IH]; intros i st; [reflexivity|].
  simpl. rewrite (step_ignored i line st Hl), IH. reflexivity.
Qed.

Lemma only_ignored_lines_witness :
  parse_schedule_file (Lines [[NL]; u "   "; u " x"]) = ([], Some []).
Proof.
  apply only_ignored_lines.
  constructor; [left; reflexivity|].
  constructor; [left; reflexivity|].
  constructor; [right; left; reflexivity|constructor].
Defined.

(** *** Days and slots *)

Lemma keys_dict_set_in {V} (k : str) (v : V) (d : odict V) :
  k ∈ keys d -> keys (dict_set k v d) = keys d.
Proof.
  unfold keys. induction d as [|[k' v'] d IH]; cbn [dict_set map fst]; intros H.
  - apply elem_of_nil in H as [].
  - destruct (str_eqb k k') eqn:E.
    + apply str_eqb_true in E. subst k'. reflexivity.
    + cbn [map fst]. f_equal. apply IH.
      apply elem_of_cons in H as [->|H]; [|exact H].
      rewrite str_eqb_refl in E. discriminate.
Qed.

Lemma keys_dict_set_new {V} (k : str) (v : V) (d : odict V) :
  k ∉ keys d -> keys (dict_set k v d) = keys d ++ [k].
Proof.
  unfold keys. induction d as [|[k' v'] d IH]; cbn [dict_set map fst]; intros H.
  - reflexivity.
  - apply not_elem_of_cons in H as [Hne H].
    destruct (str_eqb k k') eqn:E.
    + apply str_eqb_true in E. contradiction.
    + cbn [map fst app]. f_equal. apply IH, H.
Qed.

Lemma keys_dict_set {V} (k : str) (v : V) (d : odict V) :
  keys (dict_set k v d)
  = if bool_decide (k ∈ keys d) then keys d else keys d ++ [k].
Proof.
  destruct (decide (k ∈ keys d)) as [H|H].
  - rewrite bool_decide_eq_true_2 by exact H. apply keys_dict_set_in, H.
  - rewrite bool_decide_eq_false_2 by exact H. apply keys_dict_set_new, H.
Qed.

Lemma dict_get_key {V} (k : str) (x : V) (d : odict V) :
  dict_get k d = Some x -> k ∈ keys d.
Proof.
  unfold keys. induction d as [|[k' v'] d IH]; [discriminate|].
  cbn [dict_get map fst]. destruct (str_eqb k k') eqn:E.
  - apply str_eqb_true in E. subst. intros _. left.
  - intros H. right. apply IH, H.
Qed.

(** A day header makes its label the current day with no slots, keeps the
    current time, leaves every other day alone, and keeps the order of the
    days: a new label goes last, a repeated one stays where it was. *)
Theorem day_header_opens_day (i : nat) (line : str) (st : pstate) :
  strip line <> [] -> indentation line = 0%nat ->
  exists st', step i line st = inr (st', [])
    /\ current_day st' = Some (strip line)
    /\ current_time st' = current_time st
    /\ dict_get (strip line) (sched st') = Some []
    /\ (forall d, d <> strip line ->
          dict_get d (sched st') = dict_get d (sched st))
    /\ keys (sched st')
       = if bool_decide (strip line ∈ keys (sched st))
         then keys (sched st) else keys (sched st) ++ [strip line].
Proof.
  intros Hne Hind. unfold step. rewrite Hind.
  destruct (strip line) as [|c s] eqn:E; [contradiction|]. simpl.
  eexists. split; [reflexivity|]. simpl.
  split; [reflexivity|]. split; [reflexivity|].
  split; [apply dict_get_set_eq|].
  split; [|apply keys_dict_set].
  intros d Hd. apply dict_get_set_ne. congruence.
Qed.

Lemma day_header_opens_day_witness :
  exists st',
    step 2 (u "Friday")
         (PState [(u "Friday", [(u "20:00", [])]); (u "Sat", [])]
                 (Some (u "Sat")) (Some (u "20:00")))
    = inr (st', [])
    /\ current_day st' = Some (u "Friday")
    /\ current_time st' = Some (u "20:00")
    /\ dict_get (u "Friday") (sched st') = Some []
    /\ keys (sched st') = [u "Friday"; u "Sat"].
Proof.
  destruct (day_header_opens_day 2 (u "Friday")
              (PState [(u "Friday", [(u "20:00", [])]); (u "Sat", [])]
                      (Some (u "Sat")) (Some (u "20:00"))))
    as (st' & H1 & H2 & H3 & H4 & _ & H6); [discriminate|reflexivity|].
  exists st'. repeat split; assumption.
Defined.

(** An event line that matches, under a day and a slot that exist, appends
    the event to that slot's list and touches nothing else. *)
Theorem event_appended (i : nat) (line : str) (st : pstate)
    (d t a v : str) (de : day_events) (evs : list event) :
  (4 <= indentation line)%nat ->
  truthy (current_day st) = Some d -> truthy (current_time st) = Some t ->
  dict_get d (sched st) = Some de -> dict_get t de = Some evs ->
  event_regex_match (strip line) = Some (a, v) ->
  exists s',
    step i line st = inr (PState s' (current_day st) (current_time st), [])
    /\ keys s' = keys (sched st)
    /\ (forall d', d' <> d -> dict_get d' s' = dict_get d' (sched st))
    /\ exists de',
         dict_get d s' = Some de'
         /\ keys de' = keys de
         /\ dict_get t de' = Some (evs ++ [Event (strip a) v])
         /\ forall t', t' <> t -> dict_get t' de' = dict_get t' de.
Proof.
  intros Hind Hd Ht Hde Hevs Hm. unfold step.
  destruct (strip line) as [|c s] eqn:E; [discriminate|].
  destruct (indentation line) as [|[|[|[|k]]]] eqn:E2; try lia.
  cbn [Nat.eqb Nat.leb]. rewrite Hd, Ht, Hm.
  unfold append_event. rewrite Hde, Hevs.
  eexists. split; [reflexivity|].
  split. { apply keys_dict_set_in. eapply dict_get_key; eauto. }
  split. { intros d' Hd'. apply dict_get_set_ne. congruence. }
  eexists. split; [apply dict_get_set_eq|].
  split. { apply keys_dict_set_in. eapply dict_get_key; eauto. }
  split; [apply dict_get_set_eq|].
  intros t' Ht'. apply dict_get_set_ne. congruence.
Qed.

Lemma event_appended_witness :
  exists s',
    step 2 (u "    Band B (Hall)")
         (PState [(u "Fri", [(u "20:00", [Event (u "A") (u "Club")])])]
                 (Some (u "Fri")) (Some (u "20:00")))
    = inr (PState s' (Some (u "Fri")) (Some (u "20:00")), [])
    /\ exists de',
         dict_get (u "Fri") s' = Some de'
         /\ dict_get (u "20:00") de'
            = Some ([Event (u "A") (u "Club")] ++ [Event (strip (u "Band B")) (u "Hall")]).
Proof.
  destruct (event_appended 2 (u "    Band B (Hall)")
              (PState [(u "Fri", [(u "20:00", [Event (u "A") (u "Club")])])]
                      (Some (u "Fri")) (Some (u "20:00")))
              (u "Fri") (u "20:00") (u "Band B") (u "Hall")
              [(u "20:00", [Event (u "A") (u "Club")])]
              [Event (u "A") (u "Club")])
    as (s' & H1 & _ & _ & de' & H2 & _ & H3 & _);
    [vm_compute; lia|reflexivity..|].
  exists s'. split; [exact H1|]. exists de'. split; assumption.
Defined.

(** *** The only way the loop fails *)

Lemma step_fails_on_stale_time (i : nat) (line : str) (st : pstate) :
  day_known st ->
  match step i line st with
  | inl e => exists t, e = KeyError t /\ truthy (current_time st) = Some t
  | inr (st', _) => day_known st'
  end.
Proof.
  intros Hk. unfold step. destruct (strip line) as [|c s]; [exact Hk|].
  destruct (indentation line =? 0)%nat.
  { intros d Hd. simpl in Hd. injection Hd as <-. simpl.
    rewrite dict_get_set_eq. eauto. }
  destruct (indentation line =? 2)%nat.
  { destruct (truthy (current_day st)) as [day|] eqn:Ed; [|exact Hk].
    destruct (Hk day Ed) as (de & Hde). unfold open_slot. rewrite Hde.
    intros d Hd. simpl in *. rewrite Ed in Hd. injection Hd as <-.
    rewrite dict_get_set_eq. eauto. }
  destruct (4 <=? indentation line)%nat; [|exact Hk].
  destruct (truthy (current_day st)) as [day|] eqn:Ed; [|exact Hk].
  destruct (truthy (current_time st)) as [time|] eqn:Et; [|exact Hk].
  destruct (event_regex_match (c :: s)) as [[a v]|]; [|exact Hk].
  destruct (Hk day Ed) as (de & Hde). unfold append_event. rewrite Hde.
  destruct (dict_get time de) as [evs|]; [|eauto].
  intros d Hd. simpl in *. rewrite Ed in Hd. injection Hd as <-.
  rewrite dict_get_set_eq. eauto.
Qed.

Lemma run_fails_on_stale_time (i : nat) (lines : list str) (st : pstate) :
  day_known st ->
  forall e, snd (run i lines st) = inl e -> exists t, e = KeyError t.
Proof.
  revert i st. induction lines as [|line rest IH]; intros i st Hk e H; [discriminate|].
  simpl in H. pose proof (step_fails_on_stale_time i line st Hk) as Hs.
  destruct (step i line st) as [e'|[st' out]].
  - simpl in H. injection H as <-. destruct Hs as (t & -> & _). eauto.
  - specialize (IH (S i) st' Hs e). destruct (run (S i) rest st'). simpl in *. auto.
Qed.

(** Whatever the lines of a readable file are, the parser returns a schedule
    unless an event line meets a time label that is not a slot of the current
    day: the only exception the loop can raise is the [KeyError] of that
    label. *)
Theorem parse_fails_only_on_stale_time (ls : list str) (out : list message) :
  parse_schedule_file (Lines ls) = (out, None) ->
  exists out' t, out = out' ++ [ErrUnexpected (KeyError t)].
Proof.
  unfold parse_schedule_file. intros H.
  assert (Hk : day_known initial) by (intros d Hd; discriminate Hd).
  pose proof (run_fails_on_stale_time 0 ls initial Hk) as Hf.
  destruct (run 0 ls initial) as [o [e|st]]; [|discriminate].
  injection H as <-. destruct (Hf e eq_refl) as (t & ->). eauto.
Qed.

Lemma parse_fails_only_on_stale_time_witness :
  exists out' t,
    [ErrUnexpected (KeyError (u "20:00"))]
    = out' ++ [ErrUnexpected (KeyError t)].
Proof.
  apply (parse_fails_only_on_stale_time
           [u "  20:00"; u "Sat"; u "    Band A (Hall)"]).
  reflexivity.
Defined.

(** A time header under a current day opens the slot of its label in that
    day, empty: a new label goes last, a repeated one stays where it was and
    loses its events.  The other slots and the other days stay as they are. *)
Theorem time_header_opens_slot (i : nat) (line : str) (st : pstate) (d : str)
    (de : day_events) :
  strip line <> [] -> indentation line = 2%nat ->
  truthy (current_day st) = Some d -> dict_get d (sched st) = Some de ->
  exists s',
    step i line st = inr (PState s' (current_day st) (Some (strip line)), [])
    /\ keys s' = keys (sched st)
    /\ (forall d', d' <> d -> dict_get d' s' = dict_get d' (sched st))
    /\ exists de',
         dict_get d s' = Some de'
         /\ dict_get (strip line) de' = Some []
         /\ (forall t, t <> strip line -> dict_get t de' = dict_get t de)
         /\ keys de' = if bool_decide (strip line ∈ keys de)
                       then keys de else keys de ++ [strip line].
Proof.
  intros Hne Hind Hd Hde. unfold step. rewrite Hind.
  destruct (strip line) as [|c s] eqn:E; [contradiction|].
  cbn [Nat.eqb]. rewrite Hd. unfold open_slot. rewrite Hde.
  eexists. split; [reflexivity|].
  split. { apply keys_dict_set_in. eapply dict_get_key; eauto. }
  split. { intros d' Hd'. apply dict_get_set_ne. congruence. }
  eexists. split; [apply dict_get_set_eq|].
  split; [apply dict_get_set_eq|].
  split; [|apply keys_dict_set].
  intros t Ht. apply dict_get_set_ne. congruence.
Qed.

Lemma time_header_opens_slot_witness :
  exists s',
    step 3 (u "  20:00")
         (PState [(u "Fri", [(u "20:00", [Event (u "A") (u "Club")]);
                             (u "21:00", [])])]
                 (Some (u "Fri")) (Some (u "21:00")))
    = inr (PState s' (Some (u "Fri")) (Some (strip (u "  20:00"))), [])
    /\ exists de',
         dict_get (u "Fri") s' = Some de'
         /\ dict_get (strip (u "  20:00")) de' = Some []
         /\ keys de' = [u "20:00"; u "21:00"].
Proof.
  destruct (time_header_opens_slot 3 (u "  20:00")
              (PState [(u "Fri", [(u "20:00", [Event (u "A") (u "Club")]);
                                  (u "21:00", [])])]
                      (Some (u "Fri")) (Some (u "21:00")))
              (u "Fri")
              [(u "20:00", [Event (u "A") (u "Club")]); (u "21:00", [])])
    as (s' & H1 & _ & _ & de' & H2 & H3 & _ & H4);
    [discriminate|reflexivity..|].
  exists s'. split; [exact H1|]. exists de'. repeat split; assumption.
Defined.

(** *** What the parser prints *)

Lemma step_output (i : nat) (line : str) (st st' : pstate) (out : list message) :
  step i line st = inr (st', out) ->
  out = []
  \/ out = [WarnEventLine (S i) (strip line)]
     /\ (4 <= indentation line)%nat /\ event_regex_match (strip line) = None.
Proof.
  unfold step. destruct (strip line) as [|c s]; [intros [= _ <-]; auto|].
  destruct (indentation line =? 0)%nat; [intros [= _ <-]; auto|].
  destruct (indentation line =? 2)%nat.
  { destruct (truthy (current_day st)); [|intros [= _ <-]; auto].
    destruct (open_slot _ _ _); [discriminate|intros [= _ <-]; auto]. }
  destruct (4 <=? indentation line)%nat eqn:E4; [|intros [= _ <-]; auto].
  apply Nat.leb_le in E4.
  destruct (truthy (current_day st)); [|intros [= _ <-]; auto].
  destruct (truthy (current_time st)); [|intros [= _ <-]; auto].
  destruct (event_regex_match (c :: s)) as [[a v]|] eqn:Em.
  - destruct (append_event _ _ _ _); [discriminate|intros [= _ <-]; auto].
  - intros [= _ <-]. right. auto.
Qed.

Lemma run_output (i : nat) (ls : list str) (st : pstate) :
  exists js,
    StronglySorted lt js
    /\ Forall (fun j => (i <= j)%nat) js
    /\ Forall2 (fun j m =>
                  exists line,
                    ls !! (j - i)%nat = Some line
                    /\ m = WarnEventLine (S j) (strip line)
                    /\ (4 <= indentation line)%nat
                    /\ event_regex_match (strip line) = None)
               js (fst (run i ls st)).
Proof.
  revert i st. induction ls as [|line rest IH]; intros i st.
  { exists []. repeat constructor. }
  cbn [run]. destruct (step i line st) as [e|[st' out]] eqn:Es.
  { exists []. repeat constructor. }
  destruct (IH (S i) st') as (js & Hs & Hge & Hall).
  destruct (run (S i) rest st') as [out' r]. cbn [fst] in *.
  assert (Hrest : Forall2 (fun j m =>
                    exists l, (line :: rest) !! (j - i)%nat = Some l
                      /\ m = WarnEventLine (S j) (strip l)
                      /\ (4 <= indentation l)%nat
                      /\ event_regex_match (strip l) = None) js out').
  { clear Hs. induction Hall as [|j m js ms (l & Hl & Hm) _ IH2];
      constructor.
    - apply Forall_cons in Hge as [Hj _]. exists l. split; [|exact Hm].
      replace (j - i)%nat with (S (j - S i)) by lia. exact Hl.
    - apply IH2. apply Forall_cons in Hge as [_ Hge]. exact Hge. }
  destruct (step_output _ _ _ _ _ Es) as [->|(-> & H4 & Hm)].
  - exists js. split; [exact Hs|]. split; [|exact Hrest].
    eapply Forall_impl; [exact Hge|]. intros j Hj. simpl in Hj. lia.
  - exists (i :: js). split; [|split].
    + constructor; [exact Hs|].
      eapply Forall_impl; [exact Hge|]. intros j Hj. simpl in Hj. lia.
    + constructor; [lia|].
      eapply Forall_impl; [exact Hge|]. intros j Hj. simpl in Hj. lia.
    + constructor; [|exact Hrest]. exists line.
      rewrite Nat.sub_diag. auto.
Qed.

(** When the parser returns a schedule, all it has printed are the warnings
    about the event lines that do not match the event pattern, in the order
    of the lines, each with the number of its line counted from 1 and the
    line's text without its surrounding whitespace. *)
Theorem parse_prints_warnings (ls : list str) (out : list message)
    (s : schedule) :
  parse_schedule_file (Lines ls) = (out, Some s) ->
  exists js, StronglySorted lt js /\ Forall2 (warning_about ls) js out.
Proof.
  unfold parse_schedule_file. intros H.
  destruct (run_output 0 ls initial) as (js & Hs & _ & Hall).
  destruct (run 0 ls initial) as [o [e|st]]; [discriminate|].
  injection H as <- _. exists js. split; [exact Hs|].
  eapply Forall2_impl; [exact Hall|].
  intros j m (l & Hl & Hm). rewrite Nat.sub_0_r in Hl. exists l. auto.
Qed.

Lemma parse_prints_warnings_witness :
  exists js,
    StronglySorted lt js
    /\ Forall2 (warning_about [u "Fri"; u "  20:00"; u "    Band A [Hall]"])
               js [WarnEventLine 3 (u "Band A [Hall]")].
Proof.
  apply (parse_prints_warnings _ _ [(u "Fri", [(u "20:00", [])])]).
  reflexivity.
Defined.

(** *** Failures of the renderer *)

Lemma mapM_fail {A B} (f : A -> exn + B) (l : list A) (x : A) (e : exn) :
  x ∈ l -> f x = inl e -> exists e', mapM f l = inl e'.
Proof.
  intros Hin Hx. induction l as [|y l IH]; [apply elem_of_nil in Hin as []|].
  cbn [mapM]. destruct (f y) as [e1|b] eqn:Ey; [eexists; reflexivity|].
  apply elem_of_cons in Hin as [->|Hin]; [congruence|].
  destruct (IH Hin) as (e' & ->). eexists. reflexivity.
Qed.

Lemma mapM_fail_with {A B} (f : A -> exn + B) (l : list A) (x : A) (e : exn) :
  (forall y e', f y = inl e' -> e' = e) ->
  x ∈ l -> f x = inl e -> mapM f l = inl e.
Proof.
  intros Hall Hin Hx. destruct (mapM_fail f l x e Hin Hx) as (e' & H).
  rewrite H. f_equal. clear Hin Hx.
  revert H. induction l as [|y l IH]; [discriminate|].
  cbn [mapM]. destruct (f y) as [e1|b] eqn:Ey.
  - intros [= <-]. eapply Hall, Ey.
  - cbn [bind]. destruct (mapM f l) as [e2|bs]; [|discriminate].
    intros [= <-]. apply IH. reflexivity.
Qed.

Lemma int_of_str_error (s : str) (e : exn) :
  int_of_str s = inl e -> e = ValueError.
Proof.
  unfold int_of_str. cbv zeta.
  match goal with
  | |- match ?r with Some _ => _ | None => _ end = _ -> _ => destruct r
  end; [discriminate|intros [= <-]; reflexivity].
Qed.

Lemma time_sort_key_error (t : str) (e : exn) :
  time_sort_key t = inl e -> e = ValueError.
Proof.
  unfold time_sort_key.
  destruct (int_of_str (split_head COLON t)) as [e'|h] eqn:E; [|discriminate].
  intros [= <-]. eapply int_of_str_error, E.
Qed.

(** A time label whose text before the first colon is not an integer makes
    the renderer raise: its day fails with [ValueError] before any of its rows
    is made, whatever the rankings are and whether the slot has events or
    not, and no document is produced. *)
Theorem bad_hour_raises (s : schedule) (rankings : yval) (day t : str)
    (de : day_events) :
  (day, de) ∈ s -> t ∈ keys de ->
  int_of_str (split_head COLON t) = inl ValueError ->
  day_parts rankings (all_venues s) (day, de) = inl ValueError
  /\ exists e, generate_html_table s rankings = inl e.
Proof.
  intros Hday Ht Hbad.
  assert (Hd : day_parts rankings (all_venues s) (day, de) = inl ValueError).
  { unfold day_parts, sorted_times.
    rewrite (mapM_fail_with _ (keys de) t ValueError); [reflexivity| |exact Ht|].
    - intros y e. destruct (time_sort_key y) as [e1|k] eqn:Ek; [|discriminate].
      intros [= <-]. eapply time_sort_key_error, Ek.
    - unfold time_sort_key. rewrite Hbad. reflexivity. }
  split; [exact Hd|]. unfold generate_html_table.
  destruct (mapM_fail _ s _ _ Hday Hd) as (e & ->). eexists. reflexivity.
Qed.

Lemma bad_hour_raises_witness :
  parse_schedule_file (Lines [u "Friday"; u "  TBA"])
  = ([], Some [(u "Friday", [(u "TBA", [])])])
  /\ day_parts YNull (all_venues [(u "Friday", [(u "TBA", [])])])
               (u "Friday", [(u "TBA", [])]) = inl ValueError
  /\ exists e,
       generate_html_table [(u "Friday", [(u "TBA", [])])] YNull = inl e.
Proof.
  split; [reflexivity|].
  apply (bad_hour_raises _ YNull (u "Friday") (u "TBA"));
    [left|left|reflexivity].
Defined.

(** *** The cells of a row *)

(** The cell of a venue with events in the slot is one list: an item per
    event at that venue, in the order of the events in the slot. *)
Theorem cell_lists_artists (m : gmap str pyval) (venues : list str)
    (evs : list event) (cells : list (list str)) (i : nat) (v : str) :
  row_cells (YMap m) venues evs = inr cells ->
  venues !! i = Some v -> artists_at v evs <> [] ->
  exists items,
    cells !! i = Some ([u "<td><ul>"] ++ items ++ [u "</ul></td>"])
    /\ length items = length (artists_at v evs)
    /\ forall k a, artists_at v evs !! k = Some a ->
         exists c, get_color_for_rank (default PNone (m !! a)) = inr c
                   /\ items !! k
                      = Some (span_html (style_of (fst c) (snd c)) a).
Proof.
  intros H Hv Hne. unfold row_cells in H.
  apply mapM_lookup in H as [_ Hlk].
  destruct (Hlk i v Hv) as (cell & Hcell & Hc). unfold cell_parts in Hc.
  rewrite venue_to_events_get in Hc by (eapply list_elem_of_lookup_2; exact Hv).
  cbn [default from_option id] in Hc.
  destruct (artists_at v evs) as [|a0 as0] eqn:Ea; [contradiction|].
  cbv beta iota in Hc.
  destruct (mapM (artist_html (YMap m)) (a0 :: as0)) as [e|items] eqn:Ei;
    [discriminate|].
  cbn [bind] in Hc. injection Hc as <-. exists items.
  split; [exact Hcell|]. apply mapM_lookup in Ei as [Hlen Hit].
  split; [exact Hlen|]. intros k a Hk.
  destruct (Hit k a Hk) as (y & Hy & Hart). unfold artist_html in Hart.
  cbn [get bind] in Hart.
  destruct (get_color_for_rank (default PNone (m !! a))) as [e|c];
    [discriminate|].
  cbn [bind] in Hart. injection Hart as <-. exists c. auto.
Qed.

Lemma cell_lists_artists_witness :
  exists items,
    [[u "<td><ul>";
      span_html [] (u "A"); span_html [] (u "B"); u "</ul></td>"]] !! 0%nat
    = Some ([u "<td><ul>"] ++ items ++ [u "</ul></td>"])
    /\ length items
       = length (artists_at (u "Hall")
                   [Event (u "A") (u "Hall"); Event (u "B") (u "Hall")]).
Proof.
  destruct (cell_lists_artists ∅ [u "Hall"]
              [Event (u "A") (u "Hall"); Event (u "B") (u "Hall")]
              [[u "<td><ul>";
                span_html [] (u "A"); span_html [] (u "B"); u "</ul></td>"]]
              0 (u "Hall"))
    as (items & H1 & H2 & _); [reflexivity|reflexivity|discriminate|].
  exists items. split; assumption.
Defined.

Lemma artists_at_cons (v : str) (ev : event) (evs : list event) :
  artists_at v (ev :: evs)
  = (if str_eqb (venue ev) v then [artist ev] else []) ++ artists_at v evs.
Proof.
  unfold artists_at. cbn [List.filter].
  destruct (str_eqb (venue ev) v); reflexivity.
Qed.

Lemma concat_map_app {A B} (f g : A -> list B) (l : list A) :
  concat (map (fun x => f x ++ g x) l)
  ≡ₚ concat (map f l) ++ concat (map g l).
Proof.
  induction l as [|x l IH]; [reflexivity|].
  cbn [map concat]. rewrite IH, <- !app_assoc.
  apply Permutation_app_head.
  rewrite !app_assoc. apply Permutation_app_tail, Permutation_app_comm.
Qed.

Lemma one_column (ev : event) (vs : list str) :
  NoDup vs -> venue ev ∈ vs ->
  concat (map (fun v => if str_eqb (venue ev) v then [artist ev] else []) vs)
  = [artist ev].
Proof.
  induction 1 as [|v vs Hv Hnd IH]; intros Hin;
    [apply elem_of_nil in Hin as []|].
  cbn [map concat]. destruct (str_eqb (venue ev) v) eqn:E.
  - apply str_eqb_true in E. subst v. cbn [app]. f_equal.
    clear IH Hin Hnd. induction vs as [|w vs IH]; [reflexivity|].
    apply not_elem_of_cons in Hv as [Hne Hv].
    cbn [map concat]. rewrite str_eqb_neq by exact Hne. apply IH, Hv.
  - apply elem_of_cons in Hin as [Heq|Hin].
    + rewrite Heq, str_eqb_refl in E. discriminate.
    + apply IH, Hin.
Qed.

Lemma columns_partition (vs : list str) (evs : list event) :
  NoDup vs -> (forall ev, ev ∈ evs -> venue ev ∈ vs) ->
  concat (map (fun v => artists_at v evs) vs) ≡ₚ map artist evs.
Proof.
  intros Hnd. induction evs as [|ev evs IH]; intros Hin.
  - clear Hnd Hin. induction vs as [|v vs IH]; [reflexivity|exact IH].
  - rewrite (map_ext _ _ (fun v => artists_at_cons v ev evs)).
    rewrite concat_map_app, one_column; [|exact Hnd|apply Hin; left].
    cbn [map app]. apply Permutation_skip, IH.
    intros ev' Hev'. apply Hin. right. exact Hev'.
Qed.

(** Every event of a time slot of the schedule is put in the cell of its
    venue and in no other: over the columns of the table, the lists of
    [venue_to_events] hold the artists of the slot, each event once.  (The
    test [event['venue'] in venue_to_events] never fails.) *)
Theorem every_event_in_one_cell (s : schedule) (de : day_events)
    (evs : list event) :
  de ∈ values s -> evs ∈ values de ->
  concat (map (fun v =>
                 default [] (dict_get v (venue_to_events (all_venues s) evs)))
              (all_venues s))
  ≡ₚ map artist evs.
Proof.
  intros Hde Hevs.
  rewrite <- (columns_partition (all_venues s) evs).
  - erewrite map_ext_in; [reflexivity|].
    intros v Hv. rewrite venue_to_events_get; [reflexivity|].
    apply list_elem_of_In. exact Hv.
  - unfold all_venues. rewrite sorted_perm. apply NoDup_remove_dups.
  - intros ev Hev. apply all_venues_sorted. unfold venues_of.
    apply list_elem_of_In, in_flat_map. exists de.
    split; [apply list_elem_of_In; exact Hde|].
    apply in_flat_map. exists evs.
    split; [apply list_elem_of_In; exact Hevs|].
    apply in_map, list_elem_of_In, Hev.
Qed.

Lemma every_event_in_one_cell_witness :
  concat (map (fun v =>
                 default []
                   (dict_get v
                      (venue_to_events
                         (all_venues
                            [(u "Fri", [(u "20:00",
                                [Event (u "A") (u "Hall");
                                 Event (u "B") (u "Club")])])])
                         [Event (u "A") (u "Hall"); Event (u "B") (u "Club")])))
              (all_venues
                 [(u "Fri", [(u "20:00",
                     [Event (u "A") (u "Hall"); Event (u "B") (u "Club")])])]))
  ≡ₚ map artist [Event (u "A") (u "Hall"); Event (u "B") (u "Club")].
Proof.
  apply (every_event_in_one_cell _ [(u "20:00",
           [Event (u "A") (u "Hall"); Event (u "B") (u "Club")])]);
    left.
Defined.

(** *** The artist list *)

Lemma not_char (x : N) (v : str) :
  x ∉ v <-> Forall (fun c => negb (N.eqb c x) = true) v.
Proof.
  rewrite Forall_forall. split.
  - intros H c Hc. apply negb_true_iff, N.eqb_neq. intros ->. contradiction.
  - intros H Hin. specialize (H _ Hin). rewrite N.eqb_refl in H. discriminate.
Qed.

Lemma match_id_shape (t id : str) : match_id t = Some id <-> id_shape t id.
Proof.
  unfold id_shape. split.
  - intros H. destruct t as [|w [|p rest]]; try discriminate. simpl in H.
    destruct (is_space w) eqn:Hw; [|discriminate].
    destruct (N.eqb p 91) eqn:Hp; [|discriminate]. simpl in H.
    apply N.eqb_eq in Hp. subst p.
    pose proof (take_drop_while (fun c => negb (N.eqb c 93)) rest) as Hsplit.
    pose proof (take_while_all (fun c => negb (N.eqb c 93)) rest) as Hall.
    destruct (take_while _ rest) as [|x v'] eqn:Ev; [discriminate|].
    destruct (drop_while _ rest) as [|c [|n [|]]] eqn:Er; try discriminate.
    + destruct (N.eqb c 93) eqn:Hc; [|discriminate]. injection H as <-.
      apply N.eqb_eq in Hc. subst c. exists w.
      split; [exact Hw|]. split; [discriminate|].
      split; [apply not_char; exact Hall|]. left. rewrite <- Hsplit. reflexivity.
    + destruct (N.eqb c 93) eqn:Hc; [|discriminate].
      destruct (N.eqb n NL) eqn:Hn; [|discriminate]. injection H as <-.
      apply N.eqb_eq in Hc, Hn. subst c n. exists w.
      split; [exact Hw|]. split; [discriminate|].
      split; [apply not_char; exact Hall|]. right. rewrite <- Hsplit. reflexivity.
  - intros (w & Hw & Hne & Hnp & Ht). apply not_char in Hnp.
    assert (negb (N.eqb 93 93) = false) as Hr by reflexivity.
    destruct Ht as [-> | ->]; simpl; rewrite Hw; simpl.
    + destruct (take_while_id _ id [] 93%N Hnp Hr) as [-> ->].
      destruct id; [contradiction|reflexivity].
    + destruct (take_while_id _ id [NL] 93%N Hnp Hr) as [-> ->].
      destruct id; [contradiction|reflexivity].
Qed.

Lemma match_country_id_shape (t co id : str) :
  match_country_id t = Some (co, id) <-> country_shape t co id.
Proof.
  unfold country_shape. split.
  - intros H. destruct t as [|w [|p rest]]; try discriminate. simpl in H.
    destruct (is_space w) eqn:Hw; [|discriminate].
    destruct (N.eqb p LPAREN) eqn:Hp; [|discriminate]. simpl in H.
    apply N.eqb_eq in Hp. subst p.
    pose proof (take_drop_while (fun c => negb (N.eqb c RPAREN)) rest) as Hsplit.
    pose proof (take_while_all (fun c => negb (N.eqb c RPAREN)) rest) as Hall.
    destruct (take_while _ rest) as [|x v'] eqn:Ev; [discriminate|].
    destruct (drop_while _ rest) as [|c r'] eqn:Er; [discriminate|].
    destruct (match_id r') as [i|] eqn:Ei; [|discriminate].
    injection H as <- <-.
    assert (c = RPAREN) as ->.
    { clear -Er. induction rest as [|y rest IH]; [discriminate|]. simpl in Er.
      destruct (N.eqb y RPAREN) eqn:Ey; simpl in Er; [|auto].
      injection Er as <- _. apply N.eqb_eq, Ey. }
    exists w, r'. split; [exact Hw|]. split; [discriminate|].
    split; [apply not_char; exact Hall|].
    split; [rewrite <- Hsplit; reflexivity|apply match_id_shape; exact Ei].
  - intros (w & r & Hw & Hne & Hnp & -> & Hid). apply not_char in Hnp.
    assert (negb (N.eqb RPAREN RPAREN) = false) as Hr by reflexivity.
    simpl. rewrite Hw. simpl.
    destruct (take_while_id _ co r RPAREN Hnp Hr) as [-> ->].
    apply match_id_shape in Hid. rewrite Hid.
    destruct co; [contradiction|reflexivity].
Qed.

Lemma line_regex_sound (s n co id : str) :
  line_regex_match s = Some (n, co, id) ->
  n <> [] /\ (NL ∉ n)
  /\ exists t, s = n ++ t /\ match_country_id t = Some (co, id).
Proof.
  revert n. induction s as [|c s IH]; intros n H; [discriminate|].
  cbn [line_regex_match] in H.
  destruct (N.eqb c NL) eqn:Hc; [discriminate|].
  assert (c <> NL) as Hc' by (intros ->; rewrite N.eqb_refl in Hc; discriminate).
  destruct (match_country_id s) as [[co' i']|] eqn:Em.
  - injection H as <- <- <-. split; [discriminate|].
    split; [|exists s; split; [reflexivity|exact Em]].
    intros Hin. apply list_elem_of_singleton in Hin. congruence.
  - destruct (line_regex_match s) as [[[a co'] i']|]; [|discriminate].
    injection H as <- <- <-.
    destruct (IH a eq_refl) as (_ & Hnl & t & -> & Ht).
    split; [discriminate|]. split; [|exists t; split; [reflexivity|exact Ht]].
    apply not_elem_of_cons. split; [congruence|exact Hnl].
Qed.

Lemma line_regex_lazy (n t co id : str) :
  n <> [] -> NL ∉ n -> match_country_id t = Some (co, id) ->
  exists n' co' id', line_regex_match (n ++ t) = Some (n', co', id')
                     /\ (length n' <= length n)%nat.
Proof.
  intros Hne Hnl Ht. induction n as [|c n IH]; [contradiction|].
  apply not_elem_of_cons in Hnl as [Hc Hnl].
  cbn [app line_regex_match].
  rewrite (proj2 (N.eqb_neq c NL)) by congruence.
  destruct (match_country_id (n ++ t)) as [[co' i']|] eqn:Em.
  - eexists _, _, _. split; [reflexivity|]. simpl. lia.
  - destruct n as [|c' n'].
    + simpl in Em. congruence.
    + destruct (IH ltac:(discriminate) Hnl) as (n1 & co1 & id1 & -> & Hlen).
      eexists _, _, _. split; [reflexivity|]. simpl in *. lia.
Qed.

(** The artist pattern matches exactly the lines of the shape
    [name, whitespace, (country), whitespace, [video ID]] with a name that is
    not empty, and group 1 is the shortest possible. *)
Theorem artist_pattern (s : str) :
  (forall n co id, line_regex_match s = Some (n, co, id) ->
     n <> [] /\ (NL ∉ n) /\ exists t, s = n ++ t /\ country_shape t co id)
  /\ (forall n t co id,
        s = n ++ t -> n <> [] -> NL ∉ n -> country_shape t co id ->
        exists n' co' id', line_regex_match s = Some (n', co', id')
                           /\ (length n' <= length n)%nat).
Proof.
  split.
  - intros n co id H.
    destruct (line_regex_sound s n co id H) as (Hne & Hnl & t & Hs & Ht).
    split; [exact Hne|]. split; [exact Hnl|]. exists t.
    split; [exact Hs|]. apply match_country_id_shape. exact Ht.
  - intros n t co id -> Hne Hnl Ht. apply line_regex_lazy with co id;
      [exact Hne|exact Hnl|]. apply match_country_id_shape. exact Ht.
Qed.

Lemma artist_pattern_witness :
  exists n' co' id',
    line_regex_match (u "A (x) [y] (IS) [abc]") = Some (n', co', id')
    /\ (length n' <= length (u "A (x) [y]"))%nat.
Proof.
  apply (proj2 (artist_pattern (u "A (x) [y] (IS) [abc]"))
               (u "A (x) [y]") (u " (IS) [abc]") (u "IS") (u "abc")).
  - reflexivity.
  - discriminate.
  - apply not_char. repeat constructor.
  - exists 32%N, (u " [abc]"). split; [reflexivity|]. split; [discriminate|].
    split; [apply not_char; repeat constructor|]. split; [reflexivity|].
    exists 32%N. split; [reflexivity|]. split; [discriminate|].
    split; [apply not_char; repeat constructor|]. left. reflexivity.
Defined.

Lemma drop_while_head (p : N -> bool) (s : str) (c : N) (r : str) :
  drop_while p s = c :: r -> p c = false.
Proof.
  induction s as [|x s IH]; [discriminate|]. simpl.
  destruct (p x) eqn:E; [exact IH|]. intros [= <- _]. exact E.
Qed.

Lemma drop_while_snoc (p : N -> bool) (s : str) (c : N) :
  p c = false -> drop_while p (s ++ [c]) = drop_while p s ++ [c].
Proof.
  intros Hc. induction s as [|x s IH]; simpl; [rewrite Hc; reflexivity|].
  destruct (p x); [exact IH|reflexivity].
Qed.

Lemma rstrip_cons (c : N) (s : str) :
  is_space c = false -> rstrip (c :: s) = c :: rstrip s.
Proof.
  intros Hc. unfold rstrip. cbn [rev].
  rewrite drop_while_snoc by exact Hc. rewrite rev_app_distr. reflexivity.
Qed.

Lemma strip_head (s : str) (c : N) (r : str) :
  strip s = c :: r -> is_space c = false.
Proof.
  unfold strip, lstrip. destruct (drop_while is_space s) as [|x t] eqn:E.
  - discriminate.
  - pose proof (drop_while_head _ _ _ _ E) as Hx.
    rewrite rstrip_cons by exact Hx. intros [= <- _]. exact Hx.
Qed.

Lemma strip_nonempty (c : N) (s : str) :
  is_space c = false -> strip (c :: s) <> [].
Proof.
  intros Hc. unfold strip, lstrip. cbn [drop_while]. rewrite Hc.
  rewrite rstrip_cons by exact Hc. discriminate.
Qed.

Lemma load_lines_spec (i : nat) (ls : list str) :
  let '(out, artists) := load_lines i ls in
  (length artists + length out = length (nonblank ls))%nat
  /\ Forall (fun a => name a <> [] /\ country a <> [] /\ youtube_id a <> [])
            artists.
Proof.
  revert i. induction ls as [|line rest IH]; intros i; cbn [load_lines].
  { split; [reflexivity|constructor]. }
  specialize (IH (S i)). destruct (load_lines (S i) rest) as [out artists].
  destruct IH as [Hlen Hall]. unfold nonblank in *. cbn [List.filter].
  destruct (strip line) as [|c s] eqn:Es; [split; assumption|].
  destruct (line_regex_match (c :: s)) as [[[n co] id]|] eqn:Em.
  - split; [simpl in *; lia|]. constructor; [|exact Hall]. cbn [name country youtube_id].
    destruct (line_regex_sound _ _ _ _ Em) as (Hne & _ & t & Hs & Ht).
    apply match_country_id_shape in Ht as (w & r & _ & Hco & _ & _ & Hid).
    destruct Hid as (w' & _ & Hid & _).
    split; [|split; assumption].
    destruct n as [|c' n']; [contradiction|]. injection Hs as <- _.
    apply strip_nonempty. eapply strip_head. exact Es.
  - split; [simpl in *; lia|exact Hall].
Qed.

(** Reading an artist list that can be read never fails: every line that is
    not blank gives one artist or one warning, and every artist loaded has a
    name, a country and a video ID that are not empty.  (So the test
    [if not youtube_id] of the session never succeeds on a loaded artist.) *)
Theorem artists_loaded (ls : list str) :
  exists out artists,
    load_artists_from_file (Lines ls) = (out, Some artists)
    /\ (length artists + length out = length (nonblank ls))%nat
    /\ Forall (fun a => name a <> [] /\ country a <> [] /\ youtube_id a <> [])
              artists.
Proof.
  unfold load_artists_from_file. pose proof (load_lines_spec 0 ls) as H.
  destruct (load_lines 0 ls) as [out artists]. exists out, artists.
  split; [reflexivity|exact H].
Qed.

(** *** The prompt *)

Lemma lower_nil (s : str) : lower s = [] <-> s = [].
Proof. destruct s; split; intros H; try reflexivity; discriminate H. Qed.

(** The prompt returns the first line of input that is an answer, with the
    lines after it left to be read; if no line is an answer the input runs
    out.  Of the lines before the answer, each blank one runs the player once
    more and each other one only prints a message. *)
Theorem prompt_first_answer (n id : str) (inputs : list str) :
  match prompt n id inputs with
  | (ev, Some (r, rest)) =>
      exists used raw,
        inputs = used ++ raw :: rest
        /\ Forall (fun x => answer x = None) used /\ answer raw = Some r
        /\ plays ev = length (List.filter blank used)
  | (ev, None) =>
      Forall (fun x => answer x = None) inputs
      /\ plays ev = length (List.filter blank inputs)
  end.
Proof.
  induction inputs as [|raw inputs IH]; [split; [constructor|reflexivity]|].
  cbn [prompt]. destruct (prompt n id inputs) as [ev r].
  assert (Hcons : forall m,
    answer raw = None ->
    plays (m ++ ev) = ((if blank raw then 1 else 0) + plays ev)%nat ->
    match (m ++ ev, r) with
    | (ev', Some (r', rest)) =>
        exists used raw',
          raw :: inputs = used ++ raw' :: rest
          /\ Forall (fun x => answer x = None) used /\ answer raw' = Some r'
          /\ plays ev' = length (List.filter blank used)
    | (ev', None) =>
        Forall (fun x => answer x = None) (raw :: inputs)
        /\ plays ev' = length (List.filter blank (raw :: inputs))
    end).
  { intros m Hraw Hpl. destruct r as [[r' rest]|].
    - destruct IH as (used & raw' & -> & Hused & Hans & Hp).
      exists (raw :: used), raw'. split; [reflexivity|].
      split; [constructor; assumption|]. split; [exact Hans|].
      rewrite Hpl, Hp. cbn [List.filter]. destruct (blank raw); reflexivity.
    - destruct IH as [Hall Hp]. split; [constructor; assumption|].
      rewrite Hpl, Hp. cbn [List.filter]. destruct (blank raw); reflexivity. }
  destruct (lower (strip raw)) as [|c s] eqn:El.
  - assert (Hb : blank raw = true).
    { unfold blank. rewrite (proj1 (lower_nil _) El). reflexivity. }
    apply (Hcons [Print Replaying; Play id]).
    + unfold answer. cbv zeta. rewrite El. reflexivity.
    + rewrite Hb. reflexivity.
  - assert (Hb : blank raw = false).
    { unfold blank. destruct (strip raw); [discriminate El|reflexivity]. }
    destruct (str_eqb (c :: s) (u "s")) eqn:Es.
    + exists [], raw. split; [reflexivity|]. split; [constructor|].
      unfold answer. cbv zeta. rewrite El, Es. split; reflexivity.
    + destruct (int_of_str (c :: s)) as [e|z] eqn:Ei.
      * apply (Hcons [Print InvalidNumber]).
        -- unfold answer. cbv zeta. rewrite El, Es, Ei. reflexivity.
        -- rewrite Hb. reflexivity.
      * destruct ((1 <=? z) && (z <=? 10)) eqn:Er.
        -- exists [], raw. split; [reflexivity|]. split; [constructor|].
           unfold answer. cbv zeta. rewrite El, Es, Ei, Er. split; reflexivity.
        -- apply (Hcons [Print InvalidRange]).
           ++ unfold answer. cbv zeta. rewrite El, Es, Ei, Er. reflexivity.
           ++ rewrite Hb. reflexivity.
Qed.

(** *** A ranking session *)

Section Sessions.
Context {doc : Type} (safe_load : doc -> exn + yval) (dump : yval -> doc).
Context (write_fails :
           nat -> store_file doc -> doc -> option (exn * store_file doc)).

Lemma to_rank_map (artists : list artist_entry) (m : gmap str pyval) :
  to_rank artists (YMap m)
  = inr (List.filter (fun a => bool_decide (m !! name a = None)) artists).
Proof.
  induction artists as [|a rest IH]; [reflexivity|].
  cbn [to_rank not_in bind List.filter]. rewrite IH. reflexivity.
Qed.

Lemma prompt_plays (n id : str) (inputs : list str) (e : action) :
  e ∈ fst (prompt n id inputs) -> forall id', e = Play id' -> id' = id.
Proof.
  induction inputs as [|raw inputs IH]; cbn [prompt fst].
  { intros H. apply elem_of_nil in H as []. }
  destruct (prompt n id inputs) as [ev r]. cbn [fst] in IH.
  destruct (lower (strip raw)) as [|c s].
  - cbn [fst]. intros H id' ->.
    apply elem_of_cons in H as [H|H]; [discriminate|].
    apply elem_of_cons in H as [H|H]; [congruence|]. apply (IH H). reflexivity.
  - destruct (str_eqb (c :: s) (u "s")).
    { cbn [fst]. intros H id' ->. apply list_elem_of_singleton in H. discriminate. }
    destruct (int_of_str (c :: s)) as [er|z].
    + cbn [fst]. intros H id' ->.
      apply elem_of_cons in H as [H|H]; [discriminate|]. apply (IH H). reflexivity.
    + destruct ((1 <=? z) && (z <=? 10)); cbn [fst].
      * intros H. apply elem_of_nil in H as [].
      * intros H id' ->.
        apply elem_of_cons in H as [H|H]; [discriminate|]. apply (IH H). reflexivity.
Qed.

Lemma rank_one_ok (m : gmap str pyval)
    (artists : list artist_entry) (total i : nat) (a : artist_entry)
    (st : session doc) :
  a ∈ artists -> m !! name a = None ->
  session_ok m artists st ->
  session_ok m artists (rank_one doc dump write_fails total i a st).
Proof.
  intros Ha Hna [(mc & Hmc & Hsub) Hplay]. unfold rank_one.
  set (pr := match youtube_id a with
             | [] => ([], Some (Skipped, inputs doc st))
             | id => let '(ev, r) := prompt (name a) id (inputs doc st) in
                     (Play id :: ev, r)
             end).
  assert (Hpr : forall e, e ∈ fst pr -> forall id, e = Play id -> id = youtube_id a).
  { subst pr. destruct (youtube_id a) as [|c id] eqn:Eid.
    - intros e H. apply elem_of_nil in H as [].
    - cbv beta iota zeta.
      pose proof (prompt_plays (name a) (c :: id) (inputs doc st)) as Hp.
      destruct (prompt (name a) (c :: id) (inputs doc st)) as [ev r].
      cbn [fst] in *. intros e H id' ->.
      apply elem_of_cons in H as [H|H]; [congruence|]. apply (Hp _ H). reflexivity. }
  assert (Hev : forall id tl,
            (forall e, e ∈ tl -> forall id', e <> Play id') ->
            Play id ∈ (events doc st
                        ++ [Print (ArtistHeader (S i) total (name a) (country a));
                            Print (Playing (youtube_id a))] ++ fst pr) ++ tl ->
            exists a0, a0 ∈ artists /\ youtube_id a0 = id /\ m !! name a0 = None).
  { intros id tl Htl H. apply elem_of_app in H as [H|H];
      [|exfalso; eapply Htl; [exact H|reflexivity]].
    apply elem_of_app in H as [H|H]; [apply Hplay, H|].
    apply elem_of_cons in H as [H|H]; [discriminate|].
    apply elem_of_cons in H as [H|H]; [discriminate|].
    exists a. split; [exact Ha|]. split; [|exact Hna].
    symmetry. apply (Hpr _ H). reflexivity. }
  destruct pr as [ev [[[z|] rest]|]]; cbn [fst] in Hev.
  - rewrite Hmc. cbn [set_item].
    destruct (save_rankings doc dump write_fails _ _ _) as [f [e|]];
      (split; cbn [rankings events];
       [exists (<[name a := PInt z]> mc); split; [reflexivity|];
        intros k v Hk; rewrite lookup_insert_ne; [apply Hsub, Hk|];
        intros <-; congruence|]).
    + intros id H. apply (Hev id []); [|rewrite app_nil_r; exact H].
      intros e' He. apply elem_of_nil in He as [].
    + intros id H. apply (Hev id [Print (SavedRanking (name a) z)]); [|exact H].
      intros e He id' ->. apply list_elem_of_singleton in He. discriminate.
  - split; cbn [rankings events]; [eauto|].
    intros id H. apply (Hev id []); [|rewrite app_nil_r; exact H].
    intros e He. apply elem_of_nil in He as [].
  - split; cbn [rankings events]; [eauto|].
    intros id H. apply (Hev id []); [|rewrite app_nil_r; exact H].
    intros e He. apply elem_of_nil in He as [].
Qed.

Lemma rank_all_ok (m : gmap str pyval)
    (artists : list artist_entry) (total : nat) (todo : list artist_entry)
    (i : nat) (st : session doc) :
  (forall a, a ∈ todo -> a ∈ artists /\ m !! name a = None) ->
  session_ok m artists st ->
  session_ok m artists (rank_all doc dump write_fails total i todo st).
Proof.
  revert i st. induction todo as [|a todo IH]; intros i st Htodo Hst; [exact Hst|].
  cbn [rank_all].
  assert (Hone : session_ok m artists (rank_one doc dump write_fails total i a st)).
  { destruct (Htodo a) as [Ha Hna]; [left|]. apply rank_one_ok; assumption. }
  destruct (failure doc (rank_one doc dump write_fails total i a st)); [exact Hone|].
  apply IH; [|exact Hone]. intros a' Ha'. apply Htodo. right. exact Ha'.
Qed.

(** A session never changes a ranking that was in the store when it
    started, and never plays an artist who had one: whatever is typed, the
    final mapping holds every loaded entry as it was, and every run of the
    player is for a listed artist without a loaded ranking. *)
Theorem session_keeps_loaded_rankings (af : text_file) (rf : store_file doc)
    (shuffle : list artist_entry -> list artist_entry) (stdin : list str)
    (out out' : list message) (artists : list artist_entry)
    (m : gmap str pyval) :
  load_artists_from_file af = (out, Some artists) ->
  load_rankings doc safe_load rf = (out', YMap m) ->
  (forall l a, a ∈ shuffle l -> a ∈ l) ->
  let st := snd (rank_main doc safe_load dump write_fails true af rf shuffle stdin) in
  (exists m', rankings doc st = YMap m'
              /\ forall k v, m !! k = Some v -> m' !! k = Some v)
  /\ (forall id, Play id ∈ events doc st ->
        exists a, a ∈ artists /\ youtube_id a = id /\ m !! name a = None).
Proof.
  intros Ha Hr Hsh. unfold rank_main. cbn [negb]. rewrite Ha, Hr.
  cbn [len]. rewrite to_rank_map.
  set (todo := List.filter (fun a => bool_decide (m !! name a = None)) artists).
  assert (Htodo : forall a, a ∈ shuffle todo -> a ∈ artists /\ m !! name a = None).
  { intros a H. apply Hsh in H. subst todo.
    apply list_elem_of_In, filter_In in H as [H1 H2].
    split; [apply list_elem_of_In, H1|]. apply bool_decide_eq_true_1 in H2. exact H2. }
  assert (Hprint : forall (ms : list message) id, Play id ∉ map Print ms).
  { intros ms id H. apply list_elem_of_In, in_map_iff in H as (x & Hx & _).
    discriminate. }
  assert (Hsay : forall ms1 ms2,
            session_ok m artists
              (Session doc (map Print ms1 ++ map Print ms2) (YMap m) rf []
                       stdin None)).
  { intros ms1 ms2. split; cbn [rankings events]; [eauto|].
    intros id H. apply elem_of_app in H as [H|H]; exfalso; eapply Hprint, H. }
  assert (Hsay3 : forall ms1 ms2 ms3,
            session_ok m artists
              (Session doc ((map Print ms1 ++ map Print ms2) ++ map Print ms3)
                       (YMap m) rf [] stdin None)).
  { intros ms1 ms2 ms3. split; cbn [rankings events]; [eauto|].
    intros id H. apply elem_of_app in H as [H|H]; [|exfalso; eapply Hprint, H].
    apply elem_of_app in H as [H|H]; exfalso; eapply Hprint, H. }
  destruct todo as [|a0 todo'] eqn:Et.
  { cbn [snd events rankings file saves inputs failure]. apply Hsay3. }
  rewrite <- Et in *. clear Et.
  cbn [events rankings file saves inputs failure].
  match goal with
  | |- context [rank_all doc dump write_fails ?t ?i ?l ?s] =>
      pose proof (rank_all_ok m artists t l i s Htodo (Hsay3 _ _ _)) as Hall;
      set (st4 := rank_all doc dump write_fails t i l s) in *
  end.
  destruct (failure doc st4); cbn [snd]; [exact Hall|].
  destruct Hall as [Hm Hp]. split; cbn [rankings events]; [exact Hm|].
  intros id H. apply elem_of_app in H as [H|H]; [apply Hp, H|].
  exfalso. eapply (Hprint [SessionComplete]), H.
Qed.
End Sessions.

Lemma session_keeps_loaded_rankings_witness :
  let st := snd (rank_main toy_doc toy_load toy_dump toy_write true
                   (Lines [u "A (IS) [abc]"; u "B (IS) [def]"])
                   (Stored (Denotes (YMap {[ u "A" := PInt 3 ]})))
                   (fun l => l) [u "7"]) in
  (exists m', rankings toy_doc st = YMap m'
              /\ forall k v, ({[ u "A" := PInt 3 ]} : gmap str pyval) !! k = Some v ->
                             m' !! k = Some v)
  /\ (forall id, Play id ∈ events toy_doc st ->
        exists a, a ∈ [Artist (u "A") (u "IS") (u "abc");
                       Artist (u "B") (u "IS") (u "def")]
                  /\ youtube_id a = id
                  /\ ({[ u "A" := PInt 3 ]} : gmap str pyval) !! name a = None).
Proof.
  apply (session_keeps_loaded_rankings toy_load toy_dump toy_write _ _ _ _ [] []);
    [reflexivity|reflexivity|auto].
Defined.

Section Stores.
Context {doc : Type} (safe_load : doc -> exn + yval) (dump : yval -> doc).
Context (write_fails :
           nat -> store_file doc -> doc -> option (exn * store_file doc)).




(** The run ends with [sys.exit] exactly when the player is missing or the
    artist list cannot be read; the code is 1, and by then nothing has been
    played, read from the input or written to the store. *)
Theorem exit_status (mpv_ok : bool) (af : text_file) (rf : store_file doc)
    (shuffle : list artist_entry -> list artist_entry) (stdin : list str)
    (c : Z) :
  let r := rank_main doc safe_load dump write_fails mpv_ok af rf shuffle stdin in
  (fst r = Exit c <-> c = 1 /\ (mpv_ok = false \/ af = Missing \/ af = Broken))
  /\ (fst r = Exit c ->
      plays (events doc (snd r)) = 0%nat /\ inputs doc (snd r) = stdin
      /\ saves doc (snd r) = [] /\ file doc (snd r) = rf).
Proof.
  unfold rank_main. destruct mpv_ok; cbn [negb].
  2:{ split; [|intros _; repeat split]. split.
      - intros [= <-]. auto.
      - intros [-> _]. reflexivity. }
  destruct af as [| |ls]; cbn [load_artists_from_file].
  1,2: split; [|intros _; repeat split]; split;
         [intros [= <-]; auto|intros [-> _]; reflexivity].
  destruct (load_lines 0 ls) as [out artists].
  assert (Hno : forall P : Prop,
            c = 1 /\ (true = false \/ Lines ls = Missing \/ Lines ls = Broken)
            -> P).
  { intros P [_ [H|[H|H]]]; discriminate H. }
  destruct (load_rankings doc safe_load rf) as [out' rk].
  destruct (len rk) as [e|n].
  { split; [split; [discriminate|apply Hno]|discriminate]. }
  destruct (to_rank artists rk) as [e|[|a0 todo]].
  1,2: split; [split; [discriminate|apply Hno]|discriminate].
  cbn [events rankings file saves inputs failure].
  match goal with
  | |- context [rank_all doc dump write_fails ?t ?i ?l ?s] =>
      set (st4 := rank_all doc dump write_fails t i l s) in *
  end.
  destruct (failure doc st4);
    (split; [split; [discriminate|apply Hno]|discriminate]).
Qed.

(** What [schedule.main] leaves behind: it returns quietly, with no file
    written, exactly when the schedule could not be parsed; the HTML file is
    written exactly when the last message is the success message, and then
    no exception was raised. *)
Theorem schedule_main_outcome (f : text_file) (store : store_file doc) :
  let o := schedule_main doc safe_load f store in
  (html o = None /\ raised o = None <-> snd (parse_schedule_file f) = None)
  /\ (is_Some (html o) <-> last (printed o) = Some SuccessSaved)
  /\ (is_Some (html o) -> raised o = None).
Proof.
  unfold schedule_main.
  assert (Hparse : forall out, parse_schedule_file f = (out, None) ->
                     last out <> Some SuccessSaved).
  { unfold parse_schedule_file. destruct f as [| |ls]; try (intros out [= <-]; discriminate).
    destruct (run 0 ls initial) as [o [e|st]]; [|discriminate].
    intros out [= <-]. rewrite last_snoc. discriminate. }
  destruct (parse_schedule_file f) as [out [s|]] eqn:Ep; cbn [snd].
  2:{ cbn [html raised printed]. split; [split; auto|].
      split; [|intros [x Hx]; discriminate Hx]. split.
      - intros [x Hx]. discriminate Hx.
      - intros H. exfalso. eapply Hparse; [reflexivity|exact H]. }
  assert (Hfail : forall out1 e,
            let o := Outcome out1 None (Some e) in
            last out1 <> Some SuccessSaved ->
            (html o = None /\ raised o = None <-> Some s = None)
            /\ (is_Some (html o) <-> last (printed o) = Some SuccessSaved)
            /\ (is_Some (html o) -> raised o = None)).
  { intros out1 e o Hl. cbn [html raised printed o]. split; [split|split].
    - intros [_ H]. discriminate H.
    - discriminate.
    - split; [intros [x Hx]; discriminate Hx|intros H; contradiction].
    - intros [x Hx]. discriminate Hx. }
  destruct (match store with
            | Absent => inr ([NoRankingsFile], YMap ∅)
            | Unreadable => inl OSError
            | Stored d =>
                LET v := safe_load d IN
                LET n := len (or_empty v) IN
                inr ([FoundRanked n], or_empty v)
            end) as [e|[out' rk]].
  { apply Hfail. rewrite last_snoc. discriminate. }
  destruct (generate_html_table s rk) as [e|h].
  { apply Hfail. rewrite !app_assoc, last_snoc. discriminate. }
  cbn [html raised printed]. split; [split|split].
  - intros [H _]. discriminate H.
  - discriminate.
  - split; [intros _; apply last_snoc|intros _; eexists; reflexivity].
  - reflexivity.
Qed.

(** A store document that is empty, or holds an empty mapping or another
    value that counts as false, is rendered as a missing store is: with no
    rankings. *)
Theorem empty_store_as_absent (f : text_file) (d : doc) (v : yval) :
  safe_load d = inr v ->
  v = YNull \/ v = YMap ∅ \/ (exists n c, v = YOther false n c) ->
  html (schedule_main doc safe_load f (Stored d))
  = html (schedule_main doc safe_load f Absent)
  /\ raised (schedule_main doc safe_load f (Stored d))
     = raised (schedule_main doc safe_load f Absent).
Proof.
  intros Hl Hv. unfold schedule_main.
  destruct (parse_schedule_file f) as [out [s|]]; [|split; reflexivity].
  rewrite Hl. cbn [bind].
  assert (or_empty v = YMap ∅) as ->.
  { destruct Hv as [->|[->|(n & c & ->)]]; reflexivity. }
  cbn [len bind].
  destruct (generate_html_table s (YMap ∅)); split; reflexivity.
Qed.

End Stores.


Lemma empty_store_as_absent_witness :
  html (schedule_main toy_doc toy_load (Lines [u "Friday"])
          (Stored (Denotes YNull)))
  = html (schedule_main toy_doc toy_load (Lines [u "Friday"]) Absent)
  /\ raised (schedule_main toy_doc toy_load (Lines [u "Friday"])
               (Stored (Denotes YNull)))
     = raised (schedule_main toy_doc toy_load (Lines [u "Friday"]) Absent).
Proof.
  apply (empty_store_as_absent toy_load (Lines [u "Friday"])
           (Denotes YNull) YNull); [reflexivity|left; reflexivity].
Defined.

Section Finished.
Context {doc : Type} (safe_load : doc -> exn + yval) (dump : yval -> doc).
Context (write_fails :
           nat -> store_file doc -> doc -> option (exn * store_file doc)).


End Finished.


(** * Floating-point arithmetic and the colour mapping *)

Section ColourFacts.
Local Open Scope Q_scope.

(** *** Powers of two *)

Lemma pow2_pos (k : Z) : 0 < 2 ^ k.
Proof. apply Qpower_0_lt. reflexivity. Qed.

Lemma pow2_le (a b : Z) : (a <= b)%Z -> 2 ^ a <= 2 ^ b.
Proof. intros H. apply Qpower_le_compat_l; [exact H|discriminate]. Qed.

Lemma pow2_lt_inv (a b : Z) : 2 ^ a < 2 ^ b -> (a < b)%Z.
Proof. intros H. eapply Qpower_lt_compat_l_inv; [exact H|reflexivity]. Qed.

Lemma pow2_add (a b : Z) : 2 ^ (a + b) == 2 ^ a * 2 ^ b.
Proof. apply Qpower_plus. discriminate. Qed.

Lemma pow2_succ (a : Z) : 2 ^ (a + 1) == 2 * 2 ^ a.
Proof. rewrite pow2_add. change (2 ^ 1) with 2. ring. Qed.

Lemma pow2_Z (n : Z) : (0 <= n)%Z -> 2 ^ n == inject_Z (2 ^ n).
Proof. intros H. rewrite Zpower_Qpower by exact H. reflexivity. Qed.

(** *** [ilog2] is the floor of the binary logarithm *)

Lemma ilog2_spec (x : Q) : 0 < x -> 2 ^ ilog2 x <= x /\ x < 2 ^ (ilog2 x + 1).
Proof.
  intros Hx. unfold ilog2.
  set (a := Z.log2 (Qnum x)). set (b := Z.log2 (Zpos (Qden x))).
  assert (Hn : (0 < Qnum x)%Z).
  { destruct x as [n d]. unfold Qlt in Hx. simpl in *. lia. }
  pose proof (Z.log2_spec _ Hn) as [Ha1 Ha2]. fold a in Ha1, Ha2.
  pose proof (Z.log2_spec (Zpos (Qden x)) eq_refl) as [Hb1 Hb2]. fold b in Hb1, Hb2.
  pose proof (Z.log2_nonneg (Qnum x)) as Ha0. fold a in Ha0.
  pose proof (Z.log2_nonneg (Zpos (Qden x))) as Hb0. fold b in Hb0.
  rewrite Zle_Qle in Ha1, Hb1. rewrite Zlt_Qlt in Ha2, Hb2.
  rewrite <- pow2_Z in Ha1, Hb1 by assumption.
  rewrite <- pow2_Z in Ha2, Hb2 by lia.
  replace (Z.succ a) with (a + 1)%Z in Ha2 by lia.
  replace (Z.succ b) with (b + 1)%Z in Hb2 by lia.
  rewrite pow2_succ in Ha2, Hb2.
  assert (Hx2 : x * inject_Z (Zpos (Qden x)) == inject_Z (Qnum x)).
  { destruct x as [n d]. simpl. rewrite (Qmake_Qdiv n d). field. discriminate. }
  assert (Hab : 2 ^ a == 2 ^ (a - b) * 2 ^ b).
  { rewrite <- pow2_add. replace (a - b + b)%Z with a by lia. reflexivity. }
  pose proof (pow2_pos (a - b)) as Hp. pose proof (pow2_pos b) as Hpb.
  set (P := 2 ^ (a - b)) in *. set (B := 2 ^ b) in *. set (A := 2 ^ a) in *.
  set (D := inject_Z (Zpos (Qden x))) in *. set (N := inject_Z (Qnum x)) in *.
  assert (Hup : x < 2 * P).
  { apply Qnot_le_lt. intros Hc.
    assert (2 * P * D <= x * D) by (apply Qmult_le_compat_r; lra).
    assert (2 * P * B <= 2 * P * D) by (apply Qmult_le_l; lra).
    nra. }
  assert (Hlo : P <= 2 * x).
  { apply Qnot_lt_le. intros Hc.
    assert (2 * x * D <= P * D) by (apply Qmult_le_compat_r; lra).
    assert (P * D <= P * (2 * B)) by (apply Qmult_le_l; lra).
    nra. }
  destruct (Qle_bool P x) eqn:E.
  - apply Qle_bool_iff in E. split; [exact E|]. rewrite pow2_succ. exact Hup.
  - assert (x < P) as Hlt.
    { apply Qnot_le_lt. intros Hc. apply Qle_bool_iff in Hc. congruence. }
    replace (a - b - 1 + 1)%Z with (a - b)%Z by lia. split; [|exact Hlt].
    assert (2 * 2 ^ (a - b - 1) == P) as Hh.
    { rewrite <- pow2_succ. replace (a - b - 1 + 1)%Z with (a - b)%Z by lia. reflexivity. }
    lra.
Qed.

Lemma ilog2_unique (x : Q) (l : Z) :
  0 < x -> 2 ^ l <= x -> x < 2 ^ (l + 1) -> ilog2 x = l.
Proof.
  intros Hx H1 H2. destruct (ilog2_spec x Hx) as [H3 H4].
  assert (ilog2 x < l + 1)%Z by (apply pow2_lt_inv; lra).
  assert (l < ilog2 x + 1)%Z by (apply pow2_lt_inv; lra).
  lia.
Qed.

Lemma ilog2_mono (x y : Q) : 0 < x -> x <= y -> (ilog2 x <= ilog2 y)%Z.
Proof.
  intros Hx Hxy. destruct (ilog2_spec x Hx) as [H1 _].
  destruct (ilog2_spec y) as [_ H2]; [lra|].
  assert (ilog2 x < ilog2 y + 1)%Z by (apply pow2_lt_inv; lra). lia.
Qed.

(** *** Rounding to the nearest integer *)

Lemma rne_cases (x : Q) :
  let f := Qfloor x in
  inject_Z f <= x /\ x < inject_Z f + 1
  /\ (rne x = f /\ x - inject_Z f <= 1 # 2
      \/ rne x = (f + 1)%Z /\ (1 # 2) <= x - inject_Z f).
Proof.
  intros f. pose proof (Qfloor_le x) as H1. pose proof (Qlt_floor x) as H2.
  fold f in H1, H2. rewrite inject_Z_plus in H2. change (inject_Z 1) with 1 in H2.
  split; [exact H1|]. split; [exact H2|].
  unfold rne. fold f.
  destruct (Qcompare_spec (x - inject_Z f) (1 # 2)) as [E|E|E].
  - destruct (Z.even f); [left|right]; split; try reflexivity; lra.
  - left. split; [reflexivity|lra].
  - right. split; [reflexivity|lra].
Qed.

Lemma Zlt_inject (a b : Z) : inject_Z a < inject_Z b + 1 -> (a <= b)%Z.
Proof.
  intros H. change 1 with (inject_Z 1) in H. rewrite <- inject_Z_plus in H.
  rewrite <- Zlt_Qlt in H. lia.
Qed.

Lemma rne_mono (x y : Q) : x <= y -> (rne x <= rne y)%Z.
Proof.
  intros Hxy.
  pose proof (Qfloor_resp_le x y Hxy) as Hf.
  destruct (rne_cases x) as (Hx1 & Hx2 & Hx).
  destruct (rne_cases y) as (Hy1 & Hy2 & Hy).
  destruct (Z.eq_dec (Qfloor x) (Qfloor y)) as [E|E].
  - unfold rne. rewrite <- E.
    destruct (Qcompare_spec (x - inject_Z (Qfloor x)) (1 # 2)) as [E1|E1|E1];
      destruct (Qcompare_spec (y - inject_Z (Qfloor x)) (1 # 2)) as [E2|E2|E2];
      try destruct (Z.even (Qfloor x)); try lia; exfalso; lra.
  - assert (Qfloor x + 1 <= Qfloor y)%Z by lia.
    destruct Hx as [[-> _]|[-> _]]; destruct Hy as [[-> _]|[-> _]]; lia.
Qed.

Lemma rne_Z (z : Z) : rne (inject_Z z) = z.
Proof.
  unfold rne. rewrite Qfloor_Z.
  destruct (Qcompare_spec (inject_Z z - inject_Z z) (1 # 2)) as [E|E|E].
  - exfalso. assert (inject_Z z - inject_Z z == 0) by ring. lra.
  - reflexivity.
  - exfalso. assert (inject_Z z - inject_Z z == 0) by ring. lra.
Qed.

Lemma rne_le_Z (x : Q) (z : Z) : x <= inject_Z z -> (rne x <= z)%Z.
Proof. intros H. rewrite <- (rne_Z z). apply rne_mono. exact H. Qed.

Lemma rne_ge_Z (x : Q) (z : Z) : inject_Z z <= x -> (z <= rne x)%Z.
Proof. intros H. rewrite <- (rne_Z z). apply rne_mono. exact H. Qed.

(** *** [round] is monotone *)

Lemma div_pow2_le (x y : Q) (k : Z) : x <= y -> x / 2 ^ k <= y / 2 ^ k.
Proof.
  intros H. apply Qmult_le_compat_r; [exact H|].
  apply Qlt_le_weak, Qinv_lt_0_compat, pow2_pos.
Qed.

Lemma round_pos_nonneg (x : Q) : 0 <= x -> 0 <= round_pos x.
Proof.
  intros Hx. unfold round_pos.
  apply Qmult_le_0_compat; [|apply Qlt_le_weak, pow2_pos].
  change 0 with (inject_Z 0). rewrite <- Zle_Qle. apply rne_ge_Z.
  apply Qle_shift_div_l; [apply pow2_pos|]. change (inject_Z 0) with 0. lra.
Qed.

Lemma round_pos_mono (x y : Q) :
  0 < x -> x <= y -> round_pos x <= round_pos y.
Proof.
  intros Hx Hxy. assert (Hy : 0 < y) by lra.
  pose proof (ilog2_mono x y Hx Hxy) as Hl.
  destruct (ilog2_spec x Hx) as [_ Hx2].
  destruct (ilog2_spec y Hy) as [Hy1 _].
  unfold round_pos, ulp_exp.
  set (lx := ilog2 x) in *. set (ly := ilog2 y) in *.
  destruct (Z.eq_dec (Z.max (lx - 52) (-1074)) (Z.max (ly - 52) (-1074))) as [E|E].
  - rewrite E. apply Qmult_le_compat_r; [|apply Qlt_le_weak, pow2_pos].
    rewrite <- Zle_Qle. apply rne_mono, div_pow2_le, Hxy.
  - set (kx := Z.max (lx - 52) (-1074)) in *.
    assert (Hky : Z.max (ly - 52) (-1074) = (ly - 52)%Z) by lia.
    rewrite Hky.
    assert (Hlt : (lx + 1 <= ly)%Z) by lia.
    assert (Hk : (0 <= ly - kx)%Z) by lia.
    apply Qle_trans with (2 ^ ly).
    + apply Qle_trans with (inject_Z (2 ^ (ly - kx)) * 2 ^ kx).
      * apply Qmult_le_compat_r; [|apply Qlt_le_weak, pow2_pos].
        rewrite <- Zle_Qle. apply rne_le_Z.
        rewrite <- pow2_Z by exact Hk.
        apply Qle_shift_div_r; [apply pow2_pos|].
        rewrite <- pow2_add. replace (ly - kx + kx)%Z with ly by lia.
        apply Qlt_le_weak. eapply Qlt_le_trans; [exact Hx2|]. apply pow2_le, Hlt.
      * rewrite <- pow2_Z by exact Hk. rewrite <- pow2_add.
        replace (ly - kx + kx)%Z with ly by lia. apply Qle_refl.
    + apply Qle_trans with (inject_Z (2 ^ 52) * 2 ^ (ly - 52)).
      * rewrite <- pow2_Z by lia. rewrite <- pow2_add.
        replace (52 + (ly - 52))%Z with ly by lia. apply Qle_refl.
      * apply Qmult_le_compat_r; [|apply Qlt_le_weak, pow2_pos].
        rewrite <- Zle_Qle. apply rne_ge_Z.
        rewrite <- pow2_Z by lia.
        apply Qle_shift_div_l; [apply pow2_pos|].
        rewrite <- pow2_add. replace (52 + (ly - 52))%Z with ly by lia.
        exact Hy1.
Qed.

Lemma round_pos_compat (x y : Q) : 0 < x -> x == y -> round_pos x = round_pos y.
Proof.
  intros Hx Hxy. unfold round_pos, ulp_exp.
  assert (ilog2 x = ilog2 y) as ->.
  { assert (Hy : 0 < y) by lra.
    assert (H1 : x <= y) by lra. assert (H2 : y <= x) by lra.
    pose proof (ilog2_mono x y Hx H1). pose proof (ilog2_mono y x Hy H2). lia. }
  set (k := Z.max (ilog2 y - 52) (-1074)).
  assert (rne (x / 2 ^ k) = rne (y / 2 ^ k)) as ->; [|reflexivity].
  assert (H1 : x / 2 ^ k <= y / 2 ^ k) by (apply div_pow2_le; lra).
  assert (H2 : y / 2 ^ k <= x / 2 ^ k) by (apply div_pow2_le; lra).
  pose proof (rne_mono _ _ H1). pose proof (rne_mono _ _ H2). lia.
Qed.

(** [round] depends on the value of its argument only. *)
Lemma round_compat (x y : Q) : x == y -> round x = round y.
Proof.
  intros Hxy. unfold round.
  assert (Qcompare x 0 = Qcompare y 0) as ->.
  { destruct (Qcompare_spec x 0), (Qcompare_spec y 0); try reflexivity; exfalso; lra. }
  destruct (Qcompare_spec y 0) as [E|E|E]; [reflexivity| |].
  - rewrite (round_pos_compat (- x) (- y)) by lra. reflexivity.
  - rewrite (round_pos_compat x y) by lra. reflexivity.
Qed.

Lemma round_zero : round 0 = Fin 0.
Proof. reflexivity. Qed.

Lemma round_of_pos (x : Q) :
  0 < x ->
  round x = if overflows (round_pos x) then Inf false else Fin (round_pos x).
Proof.
  intros Hx. unfold round. apply Qgt_alt in Hx. rewrite Hx. reflexivity.
Qed.

Lemma ilog2_of_zero (a : Q) : a <= 0 -> 0 <= a -> (ilog2 a <= 0)%Z.
Proof.
  intros H1 H2. assert (Qnum a = 0%Z) as Hn.
  { destruct a as [n d]. unfold Qle in *. simpl in *. lia. }
  unfold ilog2. rewrite Hn. change (Z.log2 0) with 0%Z.
  pose proof (Z.log2_nonneg (Zpos (Qden a))).
  destruct (Qle_bool _ a); lia.
Qed.

Lemma overflows_mono (a b : Q) :
  0 <= a -> a <= b -> overflows b = false -> overflows a = false.
Proof.
  unfold overflows. intros Ha Hab Hb. apply Z.leb_gt in Hb. apply Z.leb_gt.
  destruct (Qlt_le_dec 0 a) as [Hpos|Hz].
  - pose proof (ilog2_mono a b Hpos Hab). lia.
  - pose proof (ilog2_of_zero a Hz Ha). lia.
Qed.

(** Below a finite result everything non-negative rounds to a finite,
    smaller, non-negative result. *)
Lemma round_le (x y b : Q) :
  0 <= x -> x <= y -> round y = Fin b ->
  exists a, round x = Fin a /\ 0 <= a /\ a <= b.
Proof.
  intros Hx Hxy Hy.
  assert (Hb : 0 < y -> overflows (round_pos y) = false /\ b = round_pos y).
  { intros Hpos. rewrite (round_of_pos y Hpos) in Hy.
    destruct (overflows (round_pos y)); [discriminate|].
    injection Hy as <-. split; reflexivity. }
  destruct (Qlt_le_dec 0 x) as [Hpos|Hz].
  - destruct Hb as [Hov ->]; [lra|].
    pose proof (round_pos_mono x y Hpos Hxy) as Hm.
    pose proof (round_pos_nonneg x Hx) as Hn.
    rewrite (round_of_pos x Hpos).
    rewrite (overflows_mono _ _ Hn Hm Hov).
    eexists. split; [reflexivity|]. split; assumption.
  - rewrite (round_compat x 0) by lra. rewrite round_zero.
    exists 0. split; [reflexivity|]. split; [lra|].
    destruct (Qlt_le_dec 0 y) as [Hy0|Hy0].
    + destruct (Hb Hy0) as [_ ->]. apply round_pos_nonneg. lra.
    + rewrite (round_compat y 0) in Hy by lra. rewrite round_zero in Hy.
      injection Hy as <-. lra.
Qed.

Lemma round_mono_fin (x y a b : Q) :
  0 <= x -> x <= y -> round x = Fin a -> round y = Fin b -> a <= b.
Proof.
  intros Hx Hxy Ha Hb. destruct (round_le x y b Hx Hxy Hb) as (a' & Ha' & _ & Hle).
  rewrite Ha in Ha'. injection Ha' as <-. exact Hle.
Qed.

(** *** Integers below 2^53 convert exactly *)

Lemma rne_of_Z (x : Q) (z : Z) : x == inject_Z z -> rne x = z.
Proof.
  intros H.
  assert (H1 : x <= inject_Z z) by lra. assert (H2 : inject_Z z <= x) by lra.
  pose proof (rne_le_Z x z H1). pose proof (rne_ge_Z x z H2). lia.
Qed.

Lemma round_int_exact (z : Z) :
  (0 <= z < 2 ^ 53)%Z -> exists a, round (inject_Z z) = Fin a /\ a == inject_Z z.
Proof.
  intros [Hz0 Hz]. destruct (Z.eq_dec z 0%Z) as [->|Hne].
  { exists 0. split; reflexivity. }
  assert (Hpos : 0 < inject_Z z).
  { change 0 with (inject_Z 0). rewrite <- Zlt_Qlt. lia. }
  destruct (ilog2_spec _ Hpos) as [Hl1 Hl2].
  set (l := ilog2 (inject_Z z)) in *.
  assert (Hl : (0 <= l <= 52)%Z).
  { split.
    - assert (0 < l + 1)%Z; [|lia]. apply pow2_lt_inv.
      eapply Qle_lt_trans; [|exact Hl2]. change (2 ^ 0) with (inject_Z 1).
      rewrite <- Zle_Qle. lia.
    - assert (l < 53)%Z; [|lia]. apply pow2_lt_inv.
      eapply Qle_lt_trans; [exact Hl1|]. rewrite (pow2_Z 53) by lia.
      rewrite <- Zlt_Qlt. exact Hz. }
  assert (Hrp : round_pos (inject_Z z) == inject_Z z).
  { unfold round_pos, ulp_exp. fold l.
    replace (Z.max (l - 52) (-1074)) with (l - 52)%Z by lia.
    assert (Hs : 2 ^ (52 - l) * 2 ^ (l - 52) == 1).
    { rewrite <- pow2_add. replace (52 - l + (l - 52))%Z with 0%Z by lia. reflexivity. }
    pose proof (pow2_pos (l - 52)) as Hp.
    rewrite (rne_of_Z _ (z * 2 ^ (52 - l))).
    - rewrite inject_Z_mult, <- pow2_Z by lia.
      rewrite <- Qmult_assoc, Hs. ring.
    - rewrite inject_Z_mult, <- pow2_Z by lia.
      apply Qmult_inj_r with (2 ^ (l - 52)); [lra|].
      rewrite <- Qmult_assoc, Hs. field. lra. }
  exists (round_pos (inject_Z z)). split; [|exact Hrp].
  rewrite (round_of_pos _ Hpos).
  assert (overflows (round_pos (inject_Z z)) = false) as ->; [|reflexivity].
  unfold overflows. apply Z.leb_gt.
  rewrite (ilog2_unique _ l); [lia|lra| |].
  - rewrite Hrp. exact Hl1.
  - rewrite Hrp. exact Hl2.
Qed.

(** *** The interpolation of [get_color_for_rank] in exact terms *)

Lemma round_fin_rq (x a : Q) : round x = Fin a -> rq x = a.
Proof. intros H. unfold rq. rewrite H. reflexivity. Qed.

Lemma round_in (x hi : Q) :
  (exists c, round hi = Fin c /\ c == hi) -> 0 <= x -> x <= hi ->
  round x = Fin (rq x) /\ 0 <= rq x /\ rq x <= hi.
Proof.
  intros (c & Hc & Hchi) Hx Hhi.
  destruct (round_le x hi c Hx Hhi Hc) as (a & Ha & Ha0 & Hac).
  rewrite (round_fin_rq _ _ Ha). split; [exact Ha|]. split; lra.
Qed.

Lemma exact_1 : exists c, round 1 = Fin c /\ c == 1.
Proof. apply (round_int_exact 1). split; [lia|reflexivity]. Qed.

Lemma exact_255 : exists c, round 255 = Fin c /\ c == 255.
Proof. apply (round_int_exact 255). split; [lia|reflexivity]. Qed.

Lemma exact_9_2 : exists c, round (9 # 2) = Fin c /\ c == 9 # 2.
Proof. eexists. split; vm_compute; reflexivity. Qed.

Lemma rq_mono (x y hi : Q) :
  (exists c, round hi = Fin c /\ c == hi) -> 0 <= x -> x <= y -> y <= hi ->
  rq x <= rq y.
Proof.
  intros Hhi Hx Hxy Hy.
  destruct (round_in x hi Hhi) as (Hrx & _); [lra..|].
  destruct (round_in y hi Hhi) as (Hry & _); [lra..|].
  exact (round_mono_fin x y _ _ Hx Hxy Hrx Hry).
Qed.

(** From the rounded difference [d] on, every intermediate value is finite
    and in range. *)
Lemma interp_steps (d : Q) :
  0 <= d -> d <= 9 # 2 ->
  let t := rq (d / (9 # 2)) in
  let p := rq (1 - t) in
  (round (d / (9 # 2)) = Fin t /\ 0 <= t /\ t <= 1)
  /\ (round (1 - t) = Fin p /\ 0 <= p /\ p <= 1)
  /\ (round (255 * p) = Fin (rq (255 * p)) /\ 0 <= rq (255 * p) /\ rq (255 * p) <= 255)
  /\ (round (255 * t) = Fin (rq (255 * t)) /\ 0 <= rq (255 * t) /\ rq (255 * t) <= 255).
Proof.
  intros Hd0 Hd. intros t p.
  assert (Ht : round (d / (9 # 2)) = Fin t /\ 0 <= t /\ t <= 1).
  { apply (round_in _ 1 exact_1).
    - apply Qle_shift_div_l; lra.
    - apply Qle_shift_div_r; lra. }
  assert (Hp : round (1 - t) = Fin p /\ 0 <= p /\ p <= 1).
  { apply (round_in _ 1 exact_1); lra. }
  split; [exact Ht|]. split; [exact Hp|].
  split; apply (round_in _ 255 exact_255); lra.
Qed.

Lemma trunc_floor (a : Q) : 0 <= a -> trunc a = Qfloor a.
Proof.
  destruct a as [n d]. unfold trunc, Qfloor, Qle. simpl. intros H.
  apply Z.quot_div_nonneg; lia.
Qed.

Lemma trunc_range (a : Q) (n : Z) :
  0 <= a -> a <= inject_Z n -> (0 <= trunc a <= n)%Z.
Proof.
  intros H0 Hn. rewrite (trunc_floor a H0). split.
  - rewrite <- (Qfloor_Z 0). apply Qfloor_resp_le. exact H0.
  - rewrite <- (Qfloor_Z n). apply Qfloor_resp_le. exact Hn.
Qed.

Lemma trunc_mono (a b : Q) : 0 <= a -> a <= b -> (trunc a <= trunc b)%Z.
Proof.
  intros H0 Hab. rewrite !trunc_floor by lra. apply Qfloor_resp_le. exact Hab.
Qed.

Lemma fade_grow_range (d : Q) :
  0 <= d -> d <= 9 # 2 ->
  (0 <= fade (rq (d / (9 # 2))) <= 255)%Z /\ (0 <= grow (rq (d / (9 # 2))) <= 255)%Z.
Proof.
  intros H0 H1. destruct (interp_steps d H0 H1) as (_ & _ & (_ & Hr0 & Hr1) & (_ & Hb0 & Hb1)).
  split; apply trunc_range; assumption.
Qed.

Lemma fade_grow_mono (d1 d2 : Q) :
  0 <= d1 -> d1 <= d2 -> d2 <= 9 # 2 ->
  (fade (rq (d2 / (9 # 2))) <= fade (rq (d1 / (9 # 2))))%Z
  /\ (grow (rq (d1 / (9 # 2))) <= grow (rq (d2 / (9 # 2))))%Z.
Proof.
  intros H0 H12 H2.
  destruct (interp_steps d1) as ((_ & Ht10 & Ht11) & (_ & Hp10 & Hp11) & (_ & Hr10 & _) & (_ & Hb10 & _)); [lra..|].
  destruct (interp_steps d2) as ((_ & Ht20 & Ht21) & (_ & Hp20 & Hp21) & (_ & Hr20 & _) & (_ & Hb20 & _)); [lra..|].
  assert (Ht : rq (d1 / (9 # 2)) <= rq (d2 / (9 # 2))).
  { apply (rq_mono _ _ 1 exact_1).
    - apply Qle_shift_div_l; lra.
    - apply Qmult_le_compat_r; [lra|]. discriminate.
    - apply Qle_shift_div_r; lra. }
  assert (Hp : rq (1 - rq (d2 / (9 # 2))) <= rq (1 - rq (d1 / (9 # 2)))).
  { apply (rq_mono _ _ 1 exact_1); lra. }
  split; apply trunc_mono; try assumption; apply (rq_mono _ _ 255 exact_255); lra.
Qed.

Lemma of_int_round (z : Z) (a : Q) :
  round (inject_Z z) = Fin a -> of_int z = inr (Fin a).
Proof. intros H. unfold of_int. rewrite H. reflexivity. Qed.

Lemma of_int_exact (z : Z) :
  (0 <= z < 2 ^ 53)%Z -> exists a, of_int z = inr (Fin a) /\ a == inject_Z z.
Proof.
  intros H. destruct (round_int_exact z H) as (a & Ha & Hz).
  exists a. split; [apply of_int_round; exact Ha|exact Hz].
Qed.

Lemma lit_4_5 : exists c, lit 45 10 = Fin c /\ c == 9 # 2.
Proof. eexists. split; vm_compute; reflexivity. Qed.

Lemma lit_5_5 : exists c, lit 55 10 = Fin c /\ c == 11 # 2.
Proof. eexists. split; vm_compute; reflexivity. Qed.

Opaque round.

Lemma div_by_4_5 (d : Q) :
  div (F (Fin d)) c4_5 = inr (F (round (d / (9 # 2)))).
Proof.
  destruct lit_4_5 as (c & Hc & Hv). unfold div, c4_5. rewrite Hc.
  cbn [to_float bind fdiv].
  destruct (Qcompare_spec c 0) as [E|E|E]; try (exfalso; lra).
  rewrite (round_compat (d / c) (d / (9 # 2))); [reflexivity|].
  rewrite Hv. reflexivity.
Qed.

Lemma div_int_by_4_5 (n : Z) (d : Q) :
  round (inject_Z n) = Fin d ->
  div (I n) c4_5 = inr (F (round (d / (9 # 2)))).
Proof.
  intros H. rewrite <- div_by_4_5. unfold div, c4_5.
  cbn [to_float]. rewrite (of_int_round n d H). reflexivity.
Qed.

Lemma sub_1_float (t : Q) : sub (I 1) (F (Fin t)) = inr (F (round (1 - t))).
Proof.
  destruct (of_int_exact 1) as (c & Hc & Hv); [split; [lia|reflexivity]|].
  unfold sub. cbn [to_float]. rewrite Hc. cbn [bind fsub fneg fadd].
  rewrite (round_compat (c + - t) (1 - t)); [reflexivity|].
  rewrite Hv. change (inject_Z 1) with 1. ring.
Qed.

Lemma sub_float_1 (x : Q) : sub (F (Fin x)) (I 1) = inr (F (round (x - 1))).
Proof.
  destruct (of_int_exact 1) as (c & Hc & Hv); [split; [lia|reflexivity]|].
  unfold sub. cbn [to_float]. rewrite Hc. cbn [bind fsub fneg fadd].
  rewrite (round_compat (x + - c) (x - 1)); [reflexivity|].
  rewrite Hv. change (inject_Z 1) with 1. ring.
Qed.

Lemma sub_float_5_5 (x : Q) :
  sub (F (Fin x)) c5_5 = inr (F (round (x - (11 # 2)))).
Proof.
  destruct lit_5_5 as (c & Hc & Hv). unfold sub, c5_5. rewrite Hc.
  cbn [to_float bind fsub fneg fadd].
  rewrite (round_compat (x + - c) (x - (11 # 2))); [reflexivity|].
  rewrite Hv. ring.
Qed.

Lemma sub_int_5_5 (z : Z) :
  (0 <= z < 2 ^ 53)%Z ->
  sub (I z) c5_5 = inr (F (round (inject_Z z - (11 # 2)))).
Proof.
  intros Hz. destruct (of_int_exact z Hz) as (a & Ha & Hv).
  rewrite <- (round_compat (a - (11 # 2))) by (rewrite Hv; reflexivity).
  rewrite <- sub_float_5_5. unfold sub, c5_5. cbn [to_float]. rewrite Ha.
  reflexivity.
Qed.

Lemma mul_255_float (p : Q) :
  mul (I 255) (F (Fin p)) = inr (F (round (255 * p))).
Proof.
  destruct (of_int_exact 255) as (c & Hc & Hv); [split; [lia|reflexivity]|].
  unfold mul. cbn [to_float]. rewrite Hc. cbn [bind fmul].
  rewrite (round_compat (c * p) (255 * p)); [reflexivity|].
  rewrite Hv. reflexivity.
Qed.

Lemma leb_5_5 (r : num) (x : Q) :
  rank_value r = Some x -> leb r c5_5 = Qle_bool x (11 # 2).
Proof.
  destruct lit_5_5 as (c & Hc & Hv). intros H.
  assert (Hx : Qle_bool x c = Qle_bool x (11 # 2)).
  { destruct (Qle_bool x c) eqn:E1, (Qle_bool x (11 # 2)) eqn:E2; try reflexivity.
    - apply Qle_bool_iff in E1. rewrite Hv in E1. apply Qle_bool_iff in E1. congruence.
    - apply Qle_bool_iff in E2. rewrite <- Hv in E2. apply Qle_bool_iff in E2. congruence. }
  unfold c5_5. rewrite Hc.
  destruct r as [z|[y| |]]; cbn [rank_value] in H; try discriminate H;
    injection H as <-; cbn [leb fleb]; exact Hx.
Qed.

(** Both branches of [channels], from the rounded difference on. *)
Lemma interp_tail (d : Q) (k : num -> num -> num * num * num) :
  0 <= d -> d <= 9 # 2 ->
  let t := rq (d / (9 # 2)) in
  (LET percent := inr (F (round (d / (9 # 2)))) IN
   LET p1 := sub (I 1) percent IN
   LET a := mul (I 255) p1 IN
   LET b := mul (I 255) percent IN
   inr (k a b))
  = inr (k (F (Fin (rq (255 * rq (1 - t))))) (F (Fin (rq (255 * t))))).
Proof.
  intros H0 H1 t.
  destruct (interp_steps d H0 H1) as ((Ht & _) & (Hp & _) & (Hr & _) & (Hb & _)).
  fold t in Ht, Hp, Hr, Hb.
  cbn [bind]. rewrite Ht, sub_1_float. cbn [bind]. rewrite Hp, !mul_255_float.
  cbn [bind]. rewrite Hr, Hb. reflexivity.
Qed.

Lemma channels_spec (r : num) (x : Q) :
  rank_value r = Some x -> 1 <= x -> x <= 10 ->
  channels r
  = inr (if Qle_bool x (11 # 2)
         then (F (Fin (rq (255 * rq (1 - percent_low x)))), I 0,
               F (Fin (rq (255 * percent_low x))))
         else (I 0, F (Fin (rq (255 * percent_high x))),
               F (Fin (rq (255 * rq (1 - percent_high x)))))).
Proof.
  intros Hr H1 H10. unfold channels. rewrite (leb_5_5 r x Hr).
  destruct (Qle_bool x (11 # 2)) eqn:E.
  - apply Qle_bool_iff in E.
    destruct (round_in (x - 1) (9 # 2) exact_9_2) as (Hd & Hd0 & Hd1); [lra..|].
    assert (Hq : (LET d := sub r (I 1) IN div d c4_5)
                 = inr (F (round (rq (x - 1) / (9 # 2))))).
    { destruct r as [z|[y| |]]; cbn [rank_value] in Hr; try discriminate Hr;
        injection Hr as <-.
      - cbn [sub bind]. apply div_int_by_4_5.
        rewrite <- Hd. apply round_compat.
        rewrite <- Z.add_opp_r, inject_Z_plus. reflexivity.
      - rewrite sub_float_1. cbn [bind]. rewrite Hd. apply div_by_4_5. }
    pose proof (interp_tail (rq (x - 1)) (fun a b => (a, I 0, b)) Hd0 Hd1) as Ht.
    cbv zeta in Ht. rewrite <- Hq in Ht. unfold percent_low. rewrite <- Ht.
    destruct (sub r (I 1)) as [e|d]; reflexivity.
  - assert (E' : 11 # 2 < x).
    { apply Qnot_le_lt. intros Hc. apply Qle_bool_iff in Hc. congruence. }
    destruct (round_in (x - (11 # 2)) (9 # 2) exact_9_2) as (Hd & Hd0 & Hd1); [lra..|].
    assert (Hq : (LET d := sub r c5_5 IN div d c4_5)
                 = inr (F (round (rq (x - (11 # 2)) / (9 # 2))))).
    { destruct r as [z|[y| |]]; cbn [rank_value] in Hr; try discriminate Hr;
        injection Hr as <-.
      - rewrite sub_int_5_5.
        + cbn [bind]. rewrite Hd. apply div_by_4_5.
        + change 1 with (inject_Z 1) in H1. change 10 with (inject_Z 10) in H10.
          rewrite <- Zle_Qle in H1, H10. lia.
      - rewrite sub_float_5_5. cbn [bind]. rewrite Hd. apply div_by_4_5. }
    pose proof (interp_tail (rq (x - (11 # 2))) (fun a b => (I 0, b, a)) Hd0 Hd1) as Ht.
    cbv zeta in Ht. rewrite <- Hq in Ht. unfold percent_high. rewrite <- Ht.
    destruct (sub r c5_5) as [e|d]; reflexivity.
Qed.

Lemma rgb_spec (r : num) (x : Q) :
  rank_value r = Some x -> 1 <= x -> x <= 10 ->
  rgb r = inr (spec_channels x).
Proof.
  intros Hr H1 H10. unfold rgb. rewrite (channels_spec r x Hr H1 H10).
  unfold spec_channels, fade, grow.
  destruct (Qle_bool x (11 # 2)); reflexivity.
Qed.

Lemma spec_channels_range (x : Q) :
  1 <= x -> x <= 10 ->
  let '(red, green, blue) := spec_channels x in
  (0 <= red <= 255 /\ 0 <= green <= 255 /\ 0 <= blue <= 255)%Z.
Proof.
  intros H1 H10. unfold spec_channels.
  destruct (Qle_bool x (11 # 2)) eqn:E.
  - apply Qle_bool_iff in E.
    destruct (round_in (x - 1) (9 # 2) exact_9_2) as (_ & Hd0 & Hd1); [lra..|].
    destruct (fade_grow_range _ Hd0 Hd1) as [Hf Hg].
    unfold percent_low. repeat split; try lia; apply Hf || apply Hg.
  - assert (E' : 11 # 2 < x).
    { apply Qnot_le_lt. intros Hc. apply Qle_bool_iff in Hc. congruence. }
    destruct (round_in (x - (11 # 2)) (9 # 2) exact_9_2) as (_ & Hd0 & Hd1); [lra..|].
    destruct (fade_grow_range _ Hd0 Hd1) as [Hf Hg].
    unfold percent_high. repeat split; try lia; apply Hf || apply Hg.
Qed.

(** The luminance of three bytes never raises. *)
Lemma mul_float_byte (f : float) (z : Z) :
  (0 <= z <= 255)%Z -> exists a, mul (F f) (I z) = inr (F (fmul f (Fin a))).
Proof.
  intros Hz. destruct (of_int_exact z) as (a & Ha & _); [lia|].
  exists a. unfold mul. cbn [to_float bind]. rewrite Ha. reflexivity.
Qed.

Lemma div_float_255 (s : float) : exists f, div (F s) (I 255) = inr (F f).
Proof.
  destruct (of_int_exact 255) as (c & Hc & Hv); [split; [lia|reflexivity]|].
  unfold div. cbn [to_float bind]. rewrite Hc. cbn [bind].
  assert (exists f, fdiv s (Fin c) = inr f) as [f ->]; [|eexists; reflexivity].
  unfold fdiv.
  destruct (Qcompare_spec c 0) as [E|E|E];
    [exfalso; rewrite Hv in E; discriminate E| |];
    destruct s; eexists; reflexivity.
Qed.

Lemma luminance_total (red green blue : Z) :
  (0 <= red <= 255)%Z -> (0 <= green <= 255)%Z -> (0 <= blue <= 255)%Z ->
  exists lum, luminance red green blue = inr (F lum).
Proof.
  intros Hr Hg Hb. unfold luminance, c0_299, c0_587, c0_114.
  destruct (mul_float_byte (lit 299 1000) red Hr) as (r & ->).
  destruct (mul_float_byte (lit 587 1000) green Hg) as (g & ->).
  destruct (mul_float_byte (lit 114 1000) blue Hb) as (b & ->).
  cbn [bind add to_float].
  apply div_float_255.
Qed.

Transparent round.

(** *** The hexadecimal colour string *)



(** *** The exact interpolation, for integer ranks *)



(** C9.  For ranks of values [x1 <= x2] in [[1,10]]: when both are at most
    5.5, red does not increase and blue does not decrease; when both are
    above 5.5, blue does not increase and green does not decrease. *)
Theorem C9_channels_monotone (r1 r2 : num) (x1 x2 : Q) :
  rank_value r1 = Some x1 -> rank_value r2 = Some x2 ->
  1 <= x1 -> x1 <= x2 -> x2 <= 10 ->
  exists red1 green1 blue1 red2 green2 blue2,
    rgb r1 = inr (red1, green1, blue1)
    /\ rgb r2 = inr (red2, green2, blue2)
    /\ (x2 <= 11 # 2 -> (red2 <= red1 /\ blue1 <= blue2)%Z)
    /\ (11 # 2 < x1 -> (blue2 <= blue1 /\ green1 <= green2)%Z).
Proof.
  intros Hv1 Hv2 H1 H12 H10.
  rewrite (rgb_spec r1 x1 Hv1) by lra. rewrite (rgb_spec r2 x2 Hv2) by lra.
  unfold spec_channels.
  destruct (Qle_bool x1 (11 # 2)) eqn:E1; destruct (Qle_bool x2 (11 # 2)) eqn:E2;
    do 6 eexists; (split; [reflexivity|]); (split; [reflexivity|]); split; intros H;
    try (apply Qle_bool_iff in E1); try (apply Qle_bool_iff in E2);
    try (exfalso; lra);
    try (exfalso; assert (x2 <= 11 # 2) as Hc by lra; apply Qle_bool_iff in Hc; congruence);
    try (exfalso; assert (x1 <= 11 # 2) as Hc by lra; apply Qle_bool_iff in Hc; congruence).
  - destruct (round_in (x1 - 1) (9 # 2) exact_9_2) as (_ & Ha0 & Ha1); [lra..|].
    destruct (round_in (x2 - 1) (9 # 2) exact_9_2) as (_ & Hb0 & Hb1); [lra..|].
    unfold percent_low. apply fade_grow_mono; try assumption.
    apply (rq_mono _ _ (9 # 2) exact_9_2); lra.
  - assert (11 # 2 < x2) by lra.
    destruct (round_in (x1 - (11 # 2)) (9 # 2) exact_9_2) as (_ & Ha0 & Ha1); [lra..|].
    destruct (round_in (x2 - (11 # 2)) (9 # 2) exact_9_2) as (_ & Hb0 & Hb1); [lra..|].
    unfold percent_high. apply fade_grow_mono; try assumption.
    apply (rq_mono _ _ (9 # 2) exact_9_2); lra.
Qed.

(** C9, witness: the ranks 2 and 3.5. *)
Lemma C9_channels_monotone_witness :
  exists red1 green1 blue1 red2 green2 blue2,
    rgb (I 2) = inr (red1, green1, blue1)
    /\ rgb (F (Fin (7 # 2))) = inr (red2, green2, blue2)
    /\ (7 # 2 <= 11 # 2 -> (red2 <= red1 /\ blue1 <= blue2)%Z)
    /\ (11 # 2 < inject_Z 2 -> (blue2 <= blue1 /\ green1 <= green2)%Z).
Proof.
  apply (C9_channels_monotone (I 2) (F (Fin (7 # 2))));
    [reflexivity|reflexivity|discriminate|discriminate|discriminate].
Defined.

(** *** Ranks that are not finite *)

(** A rank that is a [float] but not a finite one makes the mapper raise:
    [int()] refuses a NaN with [ValueError] and an infinity with
    [OverflowError]. *)
Theorem nonfinite_rank_raises (f : float) :
  rank_value (F f) = None ->
  get_color_for_rank (PFloat f)
  = inl (match f with NaN => ValueError | _ => OverflowError end).
Proof.
  destruct f as [x|[|]|]; [discriminate|intros _; vm_compute; reflexivity..].
Qed.

Lemma nonfinite_rank_raises_witness :
  get_color_for_rank (PFloat NaN) = inl ValueError.
Proof. apply (nonfinite_rank_raises NaN). reflexivity. Defined.

(** *** When the renderer returns *)

Lemma mapM_total {A B} (f : A -> exn + B) (l : list A) :
  (forall x, x ∈ l -> exists y, f x = inr y) -> exists r, mapM f l = inr r.
Proof.
  induction l as [|x l IH]; intros H; [eexists; reflexivity|].
  cbn [mapM]. destruct (H x) as (y & ->); [left|].
  destruct IH as (r & ->); [intros x' Hx'; apply H; right; exact Hx'|].
  eexists. reflexivity.
Qed.

Lemma color_total (rank : pyval) :
  (as_number rank = None
   \/ exists r x, as_number rank = Some r /\ rank_value r = Some x
                  /\ 1 <= x /\ x <= 10) ->
  exists c, get_color_for_rank rank = inr c.
Proof.
  intros [H|(r & x & Hn & Hv & H1 & H10)].
  - eexists. apply get_color_none. exact H.
  - pose proof (rgb_spec r x Hv H1 H10) as Hrgb.
    pose proof (spec_channels_range x H1 H10) as Hrange.
    destruct (spec_channels x) as [[red green] blue].
    destruct Hrange as (Hr & Hg & Hb).
    destruct (luminance_total red green blue Hr Hg Hb) as (lum & Hlum).
    unfold get_color_for_rank. rewrite Hn, Hrgb. cbn [bind]. rewrite Hlum.
    eexists. reflexivity.
Qed.

Lemma dict_get_of_key {V} (k : str) (d : odict V) :
  k ∈ keys d -> exists x, dict_get k d = Some x.
Proof.
  unfold keys. induction d as [|[k' v'] d IH]; cbn [map fst dict_get]; intros H.
  - apply elem_of_nil in H as [].
  - destruct (str_eqb k k') eqn:E; [eexists; reflexivity|].
    apply elem_of_cons in H as [->|H]; [|apply IH, H].
    rewrite str_eqb_refl in E. discriminate.
Qed.

(** The renderer returns a document for every schedule whose time labels
    all start with an integer hour and every mapping of rankings whose
    numbers are on the scale from 1 to 10. *)
Theorem render_total (s : schedule) (m : gmap str pyval) :
  hours_parse s -> ranks_in_scale m ->
  exists html, generate_html_table s (YMap m) = inr html.
Proof.
  intros Hh Hr.
  assert (Hart : forall a, exists y, artist_html (YMap m) a = inr y).
  { intros a. unfold artist_html. cbn [get bind].
    destruct (color_total (default PNone (m !! a))) as (c & ->).
    - destruct (m !! a) as [rank|] eqn:E; [apply (Hr a), E|left; reflexivity].
    - eexists. reflexivity. }
  assert (Hcell : forall vte v, exists y, cell_parts (YMap m) vte v = inr y).
  { intros vte v. unfold cell_parts.
    destruct (default [] (dict_get v vte)) as [|a0 as0]; [eexists; reflexivity|].
    destruct (mapM_total (artist_html (YMap m)) (a0 :: as0)) as (items & ->);
      [intros a _; apply Hart|].
    eexists. reflexivity. }
  assert (Hrow : forall de t, t ∈ keys de ->
                   exists y, row_parts (YMap m) (all_venues s) de t = inr y).
  { intros de t Ht. unfold row_parts, row_cells.
    destruct (dict_get_of_key t de Ht) as (evs & ->).
    destruct (mapM_total
                (cell_parts (YMap m) (venue_to_events (all_venues s) evs))
                (all_venues s)) as (cells & ->); [intros v _; apply Hcell|].
    eexists. reflexivity. }
  unfold generate_html_table.
  destruct (mapM_total (day_parts (YMap m) (all_venues s)) s) as (days & ->);
    [|eexists; reflexivity].
  intros [day de] Hd. unfold day_parts.
  assert (Hde : de ∈ values s).
  { unfold values. apply list_elem_of_In, in_map_iff. exists (day, de).
    split; [reflexivity|apply list_elem_of_In, Hd]. }
  rewrite sorted_times_eq.
  - cbn [bind].
    destruct (mapM_total (row_parts (YMap m) (all_venues s) de)
                (sorted hour_ltb (keys de))) as (rows & ->).
    + intros t Ht. apply Hrow. rewrite sorted_perm in Ht. exact Ht.
    + eexists. reflexivity.
  - apply Forall_forall. intros t Ht. destruct (Hh de t Hde Ht) as (h & Hk).
    unfold time_sort_key. rewrite Hk. eexists. reflexivity.
Qed.

Lemma render_total_witness :
  exists html,
    generate_html_table
      [(u "Fri", [(u "20:00", [Event (u "A") (u "Hall")])])]
      (YMap {[ u "A" := PInt 7 ]}) = inr html.
Proof.
  apply render_total.
  - intros de t Hde Ht.
    apply list_elem_of_singleton in Hde. subst de.
    apply list_elem_of_singleton in Ht. subst t.
    eexists. reflexivity.
  - intros a rank H. apply lookup_singleton_Some in H as [_ <-].
    right. exists (I 7), 7. repeat split; discriminate.
Defined.

(** *** Integer ranks off the scale *)

Lemma exact_1_8 : exists c, round (1 # 8) = Fin c /\ c == 1 # 8.
Proof. eexists. split; vm_compute; reflexivity. Qed.

Lemma exact_9_8 : exists c, round (9 # 8) = Fin c /\ c == 9 # 8.
Proof. eexists. split; vm_compute; reflexivity. Qed.

Lemma exact_11_2 : exists c, round (11 # 2) = Fin c /\ c == 11 # 2.
Proof. eexists. split; vm_compute; reflexivity. Qed.

Lemma round_neg (x : Q) : 0 < x -> round (- x) = fneg (round x).
Proof.
  intros Hx. unfold round.
  assert (Qcompare (- x) 0 = Lt) as -> by (apply -> Qlt_alt; lra).
  assert (Qcompare x 0 = Gt) as -> by (apply -> Qgt_alt; lra).
  rewrite (round_pos_compat (- - x) x) by lra.
  destruct (overflows (round_pos x)); reflexivity.
Qed.

Lemma round_ge (c c' x : Q) :
  round c = Fin c' -> 0 <= c -> c <= x ->
  round x = Inf false \/ exists b, round x = Fin b /\ c' <= b.
Proof.
  intros Hc H0 Hx. destruct (round x) as [b|s|] eqn:E.
  - right. exists b. split; [reflexivity|].
    apply (round_mono_fin c x c' b H0 Hx Hc E).
  - left. destruct (Qlt_le_dec 0 x) as [Hpos|Hz].
    + rewrite (round_of_pos x Hpos) in E.
      destruct (overflows (round_pos x)); [symmetry; exact E|discriminate].
    + rewrite (round_compat x 0) in E by lra. rewrite round_zero in E. discriminate.
  - exfalso. destruct (Qlt_le_dec 0 x) as [Hpos|Hz].
    + rewrite (round_of_pos x Hpos) in E.
      destruct (overflows (round_pos x)); discriminate.
    + rewrite (round_compat x 0) in E by lra. rewrite round_zero in E. discriminate.
Qed.

Lemma trunc_negative (a : Q) : 1 <= a -> negative_or_fails (Fin (- a)).
Proof.
  intros Ha. unfold negative_or_fails. cbn [to_int].
  destruct a as [n d]. unfold Qle in Ha. cbn [Qnum Qden Qopp] in *.
  rewrite Z.quot_opp_l by lia.
  assert (1 <= n ÷ Zpos d)%Z; [|lia].
  rewrite Z.quot_div_nonneg by lia.
  apply Z.div_le_lower_bound; lia.
Qed.

Opaque round.

Lemma round_ge_neg (c c' x : Q) :
  round c = Fin c' -> 0 < c -> c <= x ->
  round (- x) = Inf true \/ exists b, round (- x) = Fin (- b) /\ c' <= b.
Proof.
  intros Hc H0 Hx. rewrite round_neg by lra.
  destruct (round_ge c c' x Hc) as [->|(b & -> & Hb)]; [lra|exact Hx| |].
  - left. reflexivity.
  - right. exists b. split; [reflexivity|exact Hb].
Qed.

Lemma mul_255_any (f : float) :
  exists c, c == 255 /\ mul (I 255) (F f) = inr (F (fmul (Fin c) f)).
Proof.
  destruct (of_int_exact 255) as (c & Hc & Hv); [split; [lia|reflexivity]|].
  exists c. split; [exact Hv|]. unfold mul. cbn [to_float]. rewrite Hc. reflexivity.
Qed.

Lemma mul_255_below (f : float) :
  well_below_zero f ->
  exists b, mul (I 255) (F f) = inr (F b) /\ negative_or_fails b.
Proof.
  intros [->|(t & -> & Ht)].
  - destruct (mul_255_any (Inf true)) as (c & Hc & ->).
    eexists. split; [reflexivity|]. cbn [fmul].
    destruct (Qcompare_spec c 0) as [E|E|E]; try (exfalso; lra). exact Logic.I.
  - rewrite mul_255_float. eexists. split; [reflexivity|].
    rewrite (round_compat (255 * - t) (- (255 * t))) by ring.
    destruct (round_int_exact 31) as (c31 & H31 & Hv31); [split; [lia|reflexivity]|].
    destruct (round_ge_neg (inject_Z 31) c31 (255 * t) H31) as [->|(b & -> & Hb)].
    + reflexivity.
    + change (inject_Z 31) with 31. lra.
    + exact Logic.I.
    + apply trunc_negative. rewrite Hv31 in Hb. change (inject_Z 31) with 31 in Hb. lra.
Qed.

Lemma one_minus_above (f : float) :
  well_above_one f ->
  exists p1, sub (I 1) (F f) = inr (F p1) /\ well_below_zero p1.
Proof.
  intros [->|(t & -> & Ht)].
  - destruct (of_int_exact 1) as (c & Hc & Hv); [split; [lia|reflexivity]|].
    unfold sub. cbn [to_float]. rewrite Hc. cbn [bind fsub fneg fadd negb].
    eexists. split; [reflexivity|]. left. reflexivity.
  - rewrite sub_1_float. eexists. split; [reflexivity|].
    rewrite (round_compat (1 - t) (- (t - 1))) by ring.
    destruct exact_1_8 as (c & Hc & Hv).
    destruct (round_ge_neg (1 # 8) c (t - 1) Hc) as [->|(b & -> & Hb)]; [lra..| |].
    + left. reflexivity.
    + right. exists b. split; [reflexivity|]. rewrite Hv in Hb. exact Hb.
Qed.

Lemma percent_above (z : Z) :
  (11 <= z)%Z ->
  match (LET d := sub (I z) c5_5 IN div d c4_5) with
  | inl _ => True
  | inr p => exists f, p = F f /\ well_above_one f
  end.
Proof.
  intros Hz. destruct lit_5_5 as (c5 & Hc5 & Hv5).
  destruct lit_4_5 as (c4 & Hc4 & Hv4).
  assert (Hz' : 11 <= inject_Z z).
  { change 11 with (inject_Z 11). rewrite <- Zle_Qle. exact Hz. }
  destruct (round_int_exact 11) as (c11 & H11 & Hv11); [split; [lia|reflexivity]|].
  change (inject_Z 11) with 11 in *.
  unfold sub, c5_5. rewrite Hc5. cbn [to_float]. unfold of_int.
  destruct (round_ge 11 c11 (inject_Z z) H11) as [->|(a & -> & Ha)]; [lra..|exact Logic.I|].
  cbn [bind fsub fneg fadd].
  destruct exact_11_2 as (c & Hc & Hv).
  destruct (round_ge (11 # 2) c (a + - c5) Hc) as [->|(d & -> & Hd)]; [lra..| |].
  - unfold div, c4_5. rewrite Hc4. cbn [to_float bind fdiv].
    destruct (Qcompare_spec c4 0) as [E|E|E]; try (exfalso; lra).
    cbn [bind]. eexists. split; [reflexivity|]. left. reflexivity.
  - rewrite div_by_4_5. eexists. split; [reflexivity|].
    destruct exact_9_8 as (c9 & Hc9 & Hv9).
    destruct (round_ge (9 # 8) c9 (d / (9 # 2)) Hc9) as [->|(t & -> & Ht)].
    + lra.
    + apply Qle_shift_div_l; lra.
    + left. reflexivity.
    + right. exists t. split; [reflexivity|]. rewrite Hv9 in Ht. exact Ht.
Qed.

Lemma percent_below (z : Z) :
  (z <= 0)%Z ->
  match (LET d := sub (I z) (I 1) IN div d c4_5) with
  | inl _ => True
  | inr p => exists f, p = F f /\ well_below_zero f
  end.
Proof.
  intros Hz. cbn [sub bind].
  assert (Hz' : 1 <= inject_Z (1 - z)).
  { change 1 with (inject_Z 1) at 1. rewrite <- Zle_Qle. lia. }
  assert (Heq : inject_Z (z - 1) == - inject_Z (1 - z)).
  { rewrite <- inject_Z_opp. apply inject_Z_injective. lia. }
  destruct exact_1 as (c1 & Hc1 & Hv1).
  destruct (round_ge_neg 1 c1 (inject_Z (1 - z)) Hc1) as [Hr|(a & Hr & Ha)];
    [lra..| |]; rewrite <- (round_compat _ _ Heq) in Hr.
  - unfold div, c4_5. cbn [to_float]. unfold of_int. rewrite Hr. exact Logic.I.
  - rewrite (div_int_by_4_5 _ _ Hr). eexists. split; [reflexivity|].
    rewrite (round_compat (- a / (9 # 2)) (- (a / (9 # 2))))
      by (field; discriminate).
    destruct exact_1_8 as (c8 & Hc8 & Hv8).
    destruct (round_ge_neg (1 # 8) c8 (a / (9 # 2)) Hc8) as [->|(t & -> & Ht)].
    + lra.
    + apply Qle_shift_div_l; lra.
    + left. reflexivity.
    + right. exists t. split; [reflexivity|]. rewrite Hv8 in Ht. exact Ht.
Qed.

Lemma rgb_off_scale (z red green blue : Z) :
  (z <= 0 \/ 11 <= z)%Z -> rgb (I z) = inr (red, green, blue) -> (blue < 0)%Z.
Proof.
  intros Hz. unfold rgb, channels.
  rewrite (leb_5_5 (I z) (inject_Z z) eq_refl).
  assert (Hfin : forall (r g b : num) (f : float),
            b = F f -> negative_or_fails f ->
            (LET red := int r IN LET green := int g IN LET blue := int b IN
             inr (red, green, blue)) = inr (red, green, blue) -> (blue < 0)%Z).
  { intros r g b f -> Hf. unfold negative_or_fails in Hf.
    destruct (int r) as [e|r']; [discriminate|].
    destruct (int g) as [e|g']; [discriminate|]. cbn [bind int].
    destruct (to_int f) as [e|b']; [discriminate|].
    cbn [bind]. intros [= _ _ <-]. exact Hf. }
  destruct Hz as [Hz|Hz].
  - assert (Qle_bool (inject_Z z) (11 # 2) = true) as ->.
    { apply Qle_bool_iff. apply Qle_trans with (inject_Z 0); [|discriminate].
      rewrite <- Zle_Qle. exact Hz. }
    pose proof (percent_below z Hz) as Hp.
    destruct (sub (I z) (I 1)) as [e|d]; [discriminate|]. cbn [bind] in *.
    destruct (div d c4_5) as [e|p]; [discriminate|]. cbn [bind].
    destruct Hp as (f & -> & Hf).
    destruct (sub (I 1) (F f)) as [e|p1]; [discriminate|]. cbn [bind].
    destruct (mul (I 255) p1) as [e|rd]; [discriminate|]. cbn [bind].
    destruct (mul_255_below f Hf) as (b & -> & Hb). cbn [bind].
    apply (Hfin _ _ _ b eq_refl Hb).
  - assert (Qle_bool (inject_Z z) (11 # 2) = false) as ->.
    { destruct (Qle_bool (inject_Z z) (11 # 2)) eqn:E; [|reflexivity].
      apply Qle_bool_iff in E. exfalso.
      assert (11 <= inject_Z z); [|lra].
      change 11 with (inject_Z 11). rewrite <- Zle_Qle. exact Hz. }
    pose proof (percent_above z Hz) as Hp.
    destruct (sub (I z) c5_5) as [e|d]; [discriminate|]. cbn [bind] in *.
    destruct (div d c4_5) as [e|p]; [discriminate|]. cbn [bind].
    destruct Hp as (f & -> & Hf).
    destruct (one_minus_above f Hf) as (p1 & -> & Hp1). cbn [bind].
    destruct (mul_255_below p1 Hp1) as (b & -> & Hb). cbn [bind].
    destruct (mul (I 255) (F f)) as [e|gr]; [discriminate|]. cbn [bind].
    apply (Hfin _ _ _ b eq_refl Hb).
Qed.

Transparent round.

Lemma background_negative (red green blue : Z) :
  (blue < 0)%Z -> is_hex_color (background red green blue) = false.
Proof.
  intros Hb. unfold background, is_hex_color. cbn [u app].
  assert (forallb is_lower_hex (hex02 red ++ hex02 green ++ hex02 blue) = false)
    as ->; [|apply andb_false_r].
  rewrite !forallb_app. unfold hex02 at 3.
  apply Z.ltb_lt in Hb. rewrite Hb. cbn [forallb].
  rewrite !andb_false_r. reflexivity.
Qed.

(** An [int] rank off the scale from 1 to 10 (or [False], which counts as
    0) never gives a colour: the mapper has no range check, the blue channel
    comes out negative, and the background string, if one is returned at
    all, is not ['#'] and six hexadecimal digits. *)
Theorem off_scale_rank_has_no_color (rank : pyval) (z : Z)
    (c : option str * option str) :
  as_number rank = Some (I z) -> (z <= 0 \/ 11 <= z)%Z ->
  get_color_for_rank rank = inr c ->
  exists bg, fst c = Some bg /\ is_hex_color bg = false.
Proof.
  intros Hn Hz Hc.
  destruct (get_color_numeric rank (I z) c Hn Hc)
    as (red & green & blue & tc & Hrgb & _ & ->).
  eexists. split; [reflexivity|].
  apply background_negative. eapply rgb_off_scale; eassumption.
Qed.

Lemma off_scale_rank_has_no_color_witness :
  exists bg,
    fst (Some (u "#13700-38"), Some WHITE) = Some bg
    /\ is_hex_color bg = false.
Proof.
  apply (off_scale_rank_has_no_color (PBool false) 0%Z);
    [reflexivity|left; lia|vm_compute; reflexivity].
Defined.

(** *** Where the mapper returns (C10) *)

Lemma pow2_exact (k : Z) :
  (0 <= k <= 1023)%Z -> exists c, round (2 ^ k) = Fin c /\ c == 2 ^ k.
Proof.
  intros Hk. pose proof (pow2_pos k) as Hpos.
  assert (Hl : ilog2 (2 ^ k) = k).
  { apply ilog2_unique; [exact Hpos|lra|].
    rewrite pow2_succ. lra. }
  assert (Hrp : round_pos (2 ^ k) == 2 ^ k).
  { unfold round_pos, ulp_exp. rewrite Hl.
    replace (Z.max (k - 52) (-1074)) with (k - 52)%Z by lia.
    pose proof (pow2_pos (k - 52)) as Hp.
    assert (Hs : 2 ^ k == 2 ^ 52 * 2 ^ (k - 52)).
    { rewrite <- pow2_add. replace (52 + (k - 52))%Z with k by lia. reflexivity. }
    rewrite (rne_of_Z _ (2 ^ 52)).
    - rewrite <- pow2_Z by lia. rewrite Hs. reflexivity.
    - rewrite <- pow2_Z by lia. rewrite Hs. field. lra. }
  exists (round_pos (2 ^ k)). split; [|exact Hrp].
  rewrite (round_of_pos _ Hpos).
  assert (overflows (round_pos (2 ^ k)) = false) as ->; [|reflexivity].
  unfold overflows. apply Z.leb_gt.
  rewrite (ilog2_unique _ k); [lia|lra| |].
  - rewrite Hrp. lra.
  - rewrite Hrp, pow2_succ. lra.
Qed.

Lemma round_within (k : Z) (x : Q) :
  (0 <= k <= 1023)%Z -> - 2 ^ k <= x -> x <= 2 ^ k ->
  within (2 ^ k) (round x).
Proof.
  intros Hk Hlo Hhi. destruct (pow2_exact k Hk) as (c & Hc & Hv).
  pose proof (pow2_pos k) as Hpos. unfold within.
  destruct (Qlt_le_dec 0 x) as [Hx|Hx].
  - destruct (round_le x (2 ^ k) c) as (a & -> & Ha0 & Ha); [lra|exact Hhi|exact Hc|].
    exists a. split; [reflexivity|]. lra.
  - destruct (Qlt_le_dec x 0) as [Hn|Hz].
    + rewrite (round_compat x (- - x)) by ring.
      rewrite round_neg by lra.
      destruct (round_le (- x) (2 ^ k) c) as (a & -> & Ha0 & Ha); [lra|lra|exact Hc|].
      exists (- a). split; [reflexivity|]. lra.
    + rewrite (round_compat x 0) by lra. rewrite round_zero.
      exists 0. split; [reflexivity|]. lra.
Qed.

Lemma of_int_within (k : Z) (z : Z) :
  (0 <= k <= 1023)%Z -> - 2 ^ k <= inject_Z z -> inject_Z z <= 2 ^ k ->
  exists a, of_int z = inr (Fin a) /\ - 2 ^ k <= a /\ a <= 2 ^ k.
Proof.
  intros Hk Hlo Hhi.
  destruct (round_within k (inject_Z z) Hk Hlo Hhi) as (a & Ha & Hb).
  exists a. split; [apply of_int_round; exact Ha|exact Hb].
Qed.

Lemma trunc_between (v : Q) :
  (0 <= v -> 0 <= inject_Z (trunc v) /\ inject_Z (trunc v) <= v)
  /\ (v <= 0 -> v <= inject_Z (trunc v) /\ inject_Z (trunc v) <= 0).
Proof.
  split; intros Hv.
  - rewrite (trunc_floor v Hv). split; [|apply Qfloor_le].
    change 0 with (inject_Z 0). rewrite <- Zle_Qle.
    rewrite <- (Qfloor_Z 0). apply Qfloor_resp_le. exact Hv.
  - assert (Hneg : trunc v = (- trunc (- v))%Z).
    { destruct v as [n d]. unfold trunc. cbn [Qnum Qden Qopp].
      rewrite Z.quot_opp_l by lia. lia. }
    assert (H0 : 0 <= - v) by lra.
    rewrite Hneg, inject_Z_opp, (trunc_floor (- v) H0).
    pose proof (Qfloor_le (- v)) as H1.
    assert (H2 : 0 <= inject_Z (Qfloor (- v))).
    { change 0 with (inject_Z 0). rewrite <- Zle_Qle.
      rewrite <- (Qfloor_Z 0). apply Qfloor_resp_le. exact H0. }
    lra.
Qed.

Lemma trunc_within (B v : Q) :
  - B <= v -> v <= B ->
  - B <= inject_Z (trunc v) /\ inject_Z (trunc v) <= B.
Proof.
  intros Hlo Hhi. destruct (trunc_between v) as [Hp Hn].
  destruct (Qlt_le_dec v 0) as [Hv|Hv].
  - destruct Hn as [H1 H2]; [lra|]. lra.
  - destruct Hp as [H1 H2]; [lra|]. lra.
Qed.

Lemma lit_below_1 (n : Z) (d : positive) :
  (0 <= n)%Z -> (n <= Zpos d)%Z ->
  exists c, lit n d = Fin c.
Proof.
  intros H0 H1. unfold lit.
  destruct (round_within 0 (n # d)) as (c & -> & _); [lia| | |eauto].
  - change (2 ^ 0) with 1. unfold Qle. cbn. lia.
  - change (2 ^ 0) with 1. unfold Qle. cbn. lia.
Qed.

Opaque round.

(** The powers of two the bounds go through. *)
Lemma pow2_steps :
  let B := 2 ^ 1000 in
  1024 <= B /\ 2 ^ 1001 == 2 * B /\ 2 ^ 1002 == 4 * B /\ 2 ^ 1010 == 1024 * B.
Proof.
  cbv zeta. split; [|split; [|split]].
  - change 1024 with (2 ^ 10). apply pow2_le. lia.
  - change 1001%Z with (1000 + 1)%Z. rewrite pow2_add. change (2 ^ 1) with 2. ring.
  - change 1002%Z with (1000 + 2)%Z. rewrite pow2_add. change (2 ^ 2) with 4. ring.
  - change 1010%Z with (1000 + 10)%Z. rewrite pow2_add.
    change (2 ^ 10) with 1024. ring.
Qed.

Lemma div_4_5_within (d : Q) :
  - 2 ^ 1001 <= d -> d <= 2 ^ 1001 ->
  exists p, div (F (Fin d)) c4_5 = inr (F (Fin p))
            /\ - 2 ^ 1001 <= p /\ p <= 2 ^ 1001.
Proof.
  intros Hlo Hhi. rewrite div_by_4_5.
  pose proof (pow2_pos 1001) as Hpos.
  destruct (round_within 1001 (d / (9 # 2))) as (p & -> & Hp); [lia| | |eauto].
  - apply Qle_shift_div_l; lra.
  - apply Qle_shift_div_r; lra.
Qed.

Lemma div_num_within (d : num) (y : Q) :
  rank_value d = Some y -> - 2 ^ 1001 <= y -> y <= 2 ^ 1001 ->
  exists p, div d c4_5 = inr (F (Fin p))
            /\ - 2 ^ 1001 <= p /\ p <= 2 ^ 1001.
Proof.
  intros Hd Hlo Hhi.
  destruct d as [n|[v| |]]; cbn [rank_value] in Hd; try discriminate Hd;
    injection Hd as <-.
  - destruct (round_within 1001 (inject_Z n)) as (a & Ha & Hal & Hah);
      [lia|exact Hlo|exact Hhi|].
    rewrite (div_int_by_4_5 n a Ha). rewrite <- div_by_4_5.
    apply div_4_5_within; assumption.
  - apply div_4_5_within; assumption.
Qed.

(** The difference the quotient is taken of, in either branch. *)
Lemma diff_within (r : num) (x : Q) (low : bool) :
  rank_value r = Some x -> - 2 ^ 1000 <= x -> x <= 2 ^ 1000 ->
  exists d y,
    (if low then sub r (I 1) else sub r c5_5) = inr d
    /\ rank_value d = Some y /\ - 2 ^ 1001 <= y /\ y <= 2 ^ 1001.
Proof.
  intros Hr Hlo Hhi.
  destruct pow2_steps as (HB & H1 & _). cbv zeta in HB, H1.
  destruct r as [z|[v| |]]; cbn [rank_value] in Hr; try discriminate Hr;
    injection Hr as <-; destruct low.
  - exists (I (z - 1)), (inject_Z (z - 1)). split; [reflexivity|].
    split; [reflexivity|].
    unfold Z.sub. rewrite inject_Z_plus, inject_Z_opp.
    change (inject_Z 1) with 1. lra.
  - destruct (of_int_within 1000 z) as (a & Ha & Hal & Hah); [lia|lra|lra|].
    destruct lit_5_5 as (c5 & Hc5 & Hv5).
    destruct (round_within 1001 (a + - c5)) as (y & Hy & Hb); [lia|lra|lra|].
    exists (F (Fin y)), y. split; [|split; [reflexivity|exact Hb]].
    unfold sub, c5_5. rewrite Hc5. cbn [to_float]. rewrite Ha.
    cbn [bind fsub fneg fadd]. rewrite Hy. reflexivity.
  - destruct (round_within 1001 (v - 1)) as (y & Hy & Hb); [lia|lra|lra|].
    exists (F (Fin y)), y. split; [|split; [reflexivity|exact Hb]].
    rewrite sub_float_1, Hy. reflexivity.
  - destruct (round_within 1001 (v - (11 # 2))) as (y & Hy & Hb); [lia|lra|lra|].
    exists (F (Fin y)), y. split; [|split; [reflexivity|exact Hb]].
    rewrite sub_float_5_5, Hy. reflexivity.
Qed.

(** The two channels computed from [percent]. *)
Lemma tail_within (p : Q) (k : num -> num -> num * num * num) :
  - 2 ^ 1001 <= p -> p <= 2 ^ 1001 ->
  exists a b,
    (LET p1 := sub (I 1) (F (Fin p)) IN
     LET x := mul (I 255) p1 IN
     LET y := mul (I 255) (F (Fin p)) IN
     inr (k x y))
    = inr (k (F (Fin a)) (F (Fin b)))
    /\ (- 2 ^ 1010 <= a /\ a <= 2 ^ 1010)
    /\ (- 2 ^ 1010 <= b /\ b <= 2 ^ 1010).
Proof.
  intros Hlo Hhi.
  destruct pow2_steps as (HB & H1 & H2 & H10). cbv zeta in HB, H1, H2, H10.
  destruct (round_within 1002 (1 - p)) as (p1 & Hp1 & Hb1); [lia|lra|lra|].
  destruct (round_within 1010 (255 * p1)) as (a & Ha & Hba); [lia|lra|lra|].
  destruct (round_within 1010 (255 * p)) as (b & Hb & Hbb); [lia|lra|lra|].
  exists a, b. split; [|split; assumption].
  rewrite sub_1_float, Hp1. cbn [bind]. rewrite !mul_255_float, Ha, Hb.
  reflexivity.
Qed.

(** [int()] of a channel. *)
Lemma int_within (c : num) :
  c = I 0 \/ (exists a, c = F (Fin a) /\ - 2 ^ 1010 <= a /\ a <= 2 ^ 1010) ->
  exists n, int c = inr n
            /\ - 2 ^ 1010 <= inject_Z n /\ inject_Z n <= 2 ^ 1010.
Proof.
  pose proof (pow2_pos 1010) as Hpos.
  intros [->|(a & -> & Hlo & Hhi)].
  - exists 0%Z. split; [reflexivity|]. change (inject_Z 0) with 0. lra.
  - exists (trunc a). split; [reflexivity|]. apply trunc_within; assumption.
Qed.

Lemma rgb_total (r : num) (x : Q) :
  rank_value r = Some x -> - 2 ^ 1000 <= x -> x <= 2 ^ 1000 ->
  exists red green blue,
    rgb r = inr (red, green, blue)
    /\ (- 2 ^ 1010 <= inject_Z red /\ inject_Z red <= 2 ^ 1010)
    /\ (- 2 ^ 1010 <= inject_Z green /\ inject_Z green <= 2 ^ 1010)
    /\ (- 2 ^ 1010 <= inject_Z blue /\ inject_Z blue <= 2 ^ 1010).
Proof.
  intros Hr Hlo Hhi. unfold rgb, channels.
  assert (Hzero : I 0 = I 0 \/
            exists a, I 0 = F (Fin a) /\ - 2 ^ 1010 <= a /\ a <= 2 ^ 1010)
    by (left; reflexivity).
  destruct (int_within (I 0) Hzero) as (n0 & Hn0 & Hb0).
  destruct (leb r c5_5).
  - destruct (diff_within r x true Hr Hlo Hhi) as (d & y & Hd & Hy & Hyl & Hyh).
    cbv iota in Hd. rewrite Hd. cbn [bind].
    destruct (div_num_within d y Hy Hyl Hyh) as (p & -> & Hpl & Hph).
    cbn [bind].
    destruct (tail_within p (fun a b => (a, I 0, b)) Hpl Hph)
      as (a & b & -> & Ha & Hb).
    cbn [bind].
    destruct (int_within (F (Fin a))) as (na & -> & Hna); [right; eauto|].
    destruct (int_within (F (Fin b))) as (nb & -> & Hnb); [right; eauto|].
    rewrite Hn0. cbn [bind]. eauto 10.
  - destruct (diff_within r x false Hr Hlo Hhi) as (d & y & Hd & Hy & Hyl & Hyh).
    cbv iota in Hd. rewrite Hd. cbn [bind].
    destruct (div_num_within d y Hy Hyl Hyh) as (p & -> & Hpl & Hph).
    cbn [bind].
    destruct (tail_within p (fun a b => (I 0, b, a)) Hpl Hph)
      as (a & b & -> & Ha & Hb).
    cbn [bind].
    destruct (int_within (F (Fin a))) as (na & -> & Hna); [right; eauto|].
    destruct (int_within (F (Fin b))) as (nb & -> & Hnb); [right; eauto|].
    rewrite Hn0. cbn [bind]. eauto 10.
Qed.

Lemma mul_lit_int (f : float) (z : Z) :
  - 2 ^ 1010 <= inject_Z z -> inject_Z z <= 2 ^ 1010 ->
  exists g, mul (F f) (I z) = inr (F g).
Proof.
  intros Hlo Hhi.
  destruct (of_int_within 1010 z) as (a & Ha & _); [lia|exact Hlo|exact Hhi|].
  unfold mul. cbn [to_float bind]. rewrite Ha. eauto.
Qed.

Lemma luminance_within (red green blue : Z) :
  (- 2 ^ 1010 <= inject_Z red /\ inject_Z red <= 2 ^ 1010) ->
  (- 2 ^ 1010 <= inject_Z green /\ inject_Z green <= 2 ^ 1010) ->
  (- 2 ^ 1010 <= inject_Z blue /\ inject_Z blue <= 2 ^ 1010) ->
  exists lum, luminance red green blue = inr (F lum).
Proof.
  intros [Hr1 Hr2] [Hg1 Hg2] [Hb1 Hb2]. unfold luminance, c0_299, c0_587, c0_114.
  destruct (mul_lit_int (lit 299 1000) red Hr1 Hr2) as (r & ->).
  destruct (mul_lit_int (lit 587 1000) green Hg1 Hg2) as (g & ->).
  destruct (mul_lit_int (lit 114 1000) blue Hb1 Hb2) as (b & ->).
  cbn [bind add to_float].
  apply div_float_255.
Qed.

Transparent round.

(** C10, counterexample.  The mapper is not total: it raises for the [float]
    NaN, for an infinity and for an [int] too large for a [float]. *)
Lemma C10_counterexample :
  (get_color_for_rank (PFloat NaN) = inl ValueError
   /\ ~ exists c, get_color_for_rank (PFloat NaN) = inr c)
  /\ get_color_for_rank (PFloat (Inf false)) = inl OverflowError
  /\ get_color_for_rank (PInt (10 ^ 400)) = inl OverflowError.
Proof.
  assert (H : get_color_for_rank (PFloat NaN) = inl ValueError)
    by (vm_compute; reflexivity).
  split; [split; [exact H|]|split; vm_compute; reflexivity].
  intros [c Hc]. rewrite H in Hc. discriminate Hc.
Qed.

(** C10, as amended.  For [None] and for every value that is not an [int]
    or a [float] the mapper returns [(None, None)] and does not raise.  For
    an [int] or a [float] that is finite and of magnitude at most 2^1000 it
    does not raise either, and returns a background and a text colour; no
    number is given [(None, None)]. *)
Theorem C10_unranked_is_none (rank : pyval) :
  (rank = PNone \/ as_number rank = None ->
     get_color_for_rank rank = inr (None, None))
  /\ (forall r x,
        as_number rank = Some r -> rank_value r = Some x ->
        - 2 ^ 1000 <= x -> x <= 2 ^ 1000 ->
        exists bg tc, get_color_for_rank rank = inr (Some bg, Some tc))
  /\ (forall r, as_number rank = Some r ->
        get_color_for_rank rank <> inr (None, None)).
Proof.
  split; [|split].
  - intros [->|H]; [reflexivity|]. apply get_color_none. exact H.
  - intros r x Hn Hv Hlo Hhi.
    destruct (rgb_total r x Hv Hlo Hhi)
      as (red & green & blue & Hrgb & Hr & Hg & Hb).
    destruct (luminance_within red green blue Hr Hg Hb) as (lum & Hlum).
    unfold get_color_for_rank. rewrite Hn, Hrgb. cbn [bind]. rewrite Hlum.
    cbn [bind]. eauto.
  - intros r Hn H.
    destruct (get_color_numeric rank r _ Hn H) as (? & ? & ? & ? & _ & _ & Hc).
    discriminate Hc.
Qed.

(** C10, witness: a string and a rank far off the scale. *)
Lemma C10_unranked_is_none_witness :
  get_color_for_rank (PStr (u "skipped")) = inr (None, None)
  /\ exists bg tc, get_color_for_rank (PInt (-40)) = inr (Some bg, Some tc).
Proof.
  split.
  - apply (proj1 (C10_unranked_is_none (PStr (u "skipped")))).
    right. reflexivity.
  - apply (proj1 (proj2 (C10_unranked_is_none (PInt (-40))))
             (I (-40)) (inject_Z (-40))); [reflexivity|reflexivity| |].
    + apply Qle_trans with (- (1024)); [|discriminate].
      apply Qopp_le_compat. change 1024 with (2 ^ 10). apply pow2_le. lia.
    + apply Qle_trans with 0; [discriminate|]. apply Qlt_le_weak, pow2_pos.
Defined.

End ColourFacts.
